(** * Language tags: compact representation, key/type index, parents, regions

    A shallow embedding of [language/internal/language.go]: the [Tag] value,
    its string forms, the scan of the Unicode locale extension
    ([findTypeForKey], [TypeForKey], [SetTypeForKey]), the CLDR parent chain
    ([Parent]) and region containment ([Contains]); then the variants, the
    methods of an extension, [remakeString], the parsing of identifiers and
    the kinds of regions.

    Go strings and byte slices are lists of bytes ([ascii]); Go [int] is [Z];
    an index or slice expression out of range panics, which the embedding
    records in the [outcome] type.  Loops run on a fuel argument that the
    callers set from the length of the string. *)

From Stdlib Require Import ZArith Ascii String List Sorted Bool Lia.
Import ListNotations.
Open Scope Z_scope.

(** ** Results of running Go code *)

Inductive outcome (A : Type) : Type :=
| Ret (a : A)
| Panic
| OutOfFuel.

Arguments Ret {A} a.
Arguments Panic {A}.
Arguments OutOfFuel {A}.

Definition bind {A B : Type} (m : outcome A) (f : A -> outcome B) : outcome B :=
  match m with
  | Ret a => f a
  | Panic => Panic
  | OutOfFuel => OutOfFuel
  end.

Notation "x <- m ;; k" := (bind m (fun x => k))
  (at level 61, m at next level, right associativity).

(** ** Go strings *)

Definition gostring := list ascii.

Definition lit (s : string) : gostring := list_ascii_of_string s.

Definition len (s : gostring) : Z := Z.of_nat (length s).

Definition dash : ascii := "-"%char.

(** [s[i]] *)
Definition index (s : gostring) (i : Z) : outcome ascii :=
  if i <? 0 then Panic
  else match nth_error s (Z.to_nat i) with
       | Some c => Ret c
       | None => Panic
       end.

(** [s[lo:hi]] *)
Definition slice (s : gostring) (lo hi : Z) : outcome gostring :=
  if (0 <=? lo) && (lo <=? hi) && (hi <=? len s)
  then Ret (firstn (Z.to_nat (hi - lo)) (skipn (Z.to_nat lo) s))
  else Panic.

(** [s[lo:]] and [s[:hi]] *)
Definition sliceFrom (s : gostring) (lo : Z) : outcome gostring := slice s lo (len s).
Definition sliceTo (s : gostring) (hi : Z) : outcome gostring := slice s 0 hi.

Fixpoint str_eqb (a b : gostring) : bool :=
  match a, b with
  | [], [] => true
  | x :: a', y :: b' => Ascii.eqb x y && str_eqb a' b'
  | _, _ => false
  end.

Definition byte_ltb (x y : ascii) : bool := (N_of_ascii x <? N_of_ascii y)%N.

(** Go's [a < b] on strings: byte-wise lexicographic. *)
Fixpoint str_ltb (a b : gostring) : bool :=
  match a, b with
  | _, [] => false
  | [], _ :: _ => true
  | x :: a', y :: b' =>
      if byte_ltb x y then true
      else if byte_ltb y x then false
      else str_ltb a' b'
  end.

Definition str_gtb (a b : gostring) : bool := str_ltb b a.

(** ** The tag *)

Inductive error : Type :=
| errPrivateUse
| errInvalidArguments
| errSyntax
| errInvalid (what : gostring).

Record Tag : Type := mkTag {
  lang : Z;      (* langID *)
  region : Z;    (* regionID *)
  script : Z;    (* scriptID *)
  pVariant : Z;  (* byte: offset in str, includes preceding '-' *)
  pExt : Z;      (* uint16: offset of first extension, includes preceding '-' *)
  str : gostring
}.

Definition und : Tag := mkTag 0 0 0 0 0 [].

Definition langTag (l : Z) : Tag := mkTag l 0 0 0 0 [].

Definition coreTag (l s r : Z) : Tag := mkTag l r s 0 0 [].

Definition Raw (t : Tag) : Z * Z * Z := (lang t, script t, region t).

Definition equalTags (t a : Tag) : bool :=
  (lang t =? lang a) && (script t =? script a) && (region t =? region a).

Definition isEmpty (s : gostring) : bool :=
  match s with [] => true | _ => false end.

(** [private] reports whether the tag consists solely of a private use tag. *)
Definition private (t : Tag) : bool :=
  negb (isEmpty (str t)) && (pVariant t =? 0).

Definition IsRoot (t : Tag) : bool :=
  if pVariant t <? len (str t) then false else equalTags t und.

(** ** Extension blocks *)

(** Modelled from the spec: [nextExtension] is declared outside
    [language.go].  By the block boundary rule an extension block runs up to,
    and not including, the next [-X-] pattern, or to the end of the string:
    [nextBoundary rem q] is the position of the first such pattern in [rem],
    whose first byte is at position [q], and the end of the string when there
    is none. *)
Fixpoint nextBoundary (rem : gostring) (q : Z) : Z :=
  match rem with
  | [] => q
  | c :: tl =>
      if Ascii.eqb c dash &&
         match tl with
         | _ :: d :: _ => Ascii.eqb d dash
         | _ => false
         end
      then q
      else nextBoundary tl (q + 1)
  end.

Definition nextExtension (s : gostring) (p : Z) : Z :=
  if len s <=? p then len s
  else nextBoundary (skipn (Z.to_nat p) s) p.

(** Modelled from the spec: [getExtension] is declared outside
    [language.go].  It steps over the dash at [p], if there is one, and
    returns the block that starts there together with its end position. *)
Definition getExtension (s : gostring) (p : Z) : outcome (Z * gostring) :=
  c <- index s p ;;
  let p := if Ascii.eqb c dash then p + 1 else p in
  let e := nextExtension s p in
  ext <- slice s p e ;;
  Ret (e, ext).

(** ** The key/type index of the 'u' extension *)

(** [for ; p < max && s[p] != '-'; p++ {}] *)
Fixpoint skipToDash (fuel : nat) (s : gostring) (p max : Z) : outcome Z :=
  match fuel with
  | O => OutOfFuel
  | S fuel' =>
      if p <? max then
        c <- index s p ;;
        if Ascii.eqb c dash then Ret p else skipToDash fuel' s (p + 1) max
      else Ret p
  end.

(** The first loop of [findTypeForKey]: find the 'u' extension.  [inl p] is
    the position of its type byte, [inr r] an early return. *)
Fixpoint findU (fuel : nat) (s : gostring) (p : Z) : outcome (Z + Z * Z * bool) :=
  match fuel with
  | O => OutOfFuel
  | S fuel' =>
      c <- index s p ;;
      if Ascii.eqb c "u" then Ret (inl p)
      else if byte_ltb "u" c then Ret (inr (p - 1, p - 1, false))
      else
        let p := nextExtension s p in
        if p =? len s then Ret (inr (len s, len s, false))
        else findU fuel' s (p + 1)
  end.

(** The second loop: iterate over keys until the end of the section.  [p]
    points to the hyphen preceding the current token. *)
Fixpoint scanKeys (fuel : nat) (s key : gostring) (p start : Z) (curKey : gostring)
  : outcome (Z * Z * bool) :=
  match fuel with
  | O => OutOfFuel
  | S fuel' =>
      let rest (p start : Z) (curKey : gostring) : outcome (Z * Z * bool) :=
        let max := if len s <? p + 5 then len s else p + 5 in
        p <- skipToDash (S (Z.to_nat (max - p))) s p max ;;
        stop <- (if p =? len s then Ret true
                 else c <- index s (p + 2) ;; Ret (Ascii.eqb c dash)) ;;
        if (stop : bool) then
          if str_eqb curKey key then Ret (start, p, true) else Ret (p, p, true)
        else scanKeys fuel' s key p start curKey in
      let p3 := p + 3 in
      c <- index s p3 ;;
      if Ascii.eqb c dash then
        if str_eqb curKey key then Ret (start, p, true)
        else
          curKey <- slice s (p + 1) p3 ;;
          if str_gtb curKey key then Ret (p, p, true)
          else rest (p + 7) (p + 4) curKey
      else rest (p + 4) start curKey
  end.

Definition findTypeForKey (t : Tag) (key : gostring) : outcome (Z * Z * bool) :=
  let p := pExt t in
  if negb (len key =? 2) || (p =? len (str t)) || (p =? 0) then Ret (p, p, false)
  else
    let s := str t in
    r <- findU (S (length s)) s (p + 1) ;;
    match r with
    | inr early => Ret early
    | inl p => scanKeys (S (length s)) s key (p + 1) 0 []
    end.

Definition TypeForKey (t : Tag) (key : gostring) : outcome gostring :=
  r <- findTypeForKey t key ;;
  let '(start, end_, _) := r in
  if negb (end_ =? start) then slice (str t) start end_ else Ret [].


(** ** External collaborators

    The code tables, the defaults inference and the extension scanner are
    declared outside [language.go]; the functions below take them as a
    parameter. *)

Record parentRel : Type := mkParentRel {
  p_lang : Z;
  p_script : Z;
  p_maxScript : Z;
  p_toRegion : Z;
  p_fromRegion : list Z
}.

Record IdentifierTables : Type := mkTables {
  (* [langID.String], [scriptID.String], [regionID.String] *)
  langString : Z -> gostring;
  scriptString : Z -> gostring;
  regionString : Z -> gostring;
  (* [addTags]: fills unset script and region with the language defaults *)
  addTags : Tag -> Tag * option error;
  (* the CLDR parent overrides *)
  parents : list parentRel;
  (* region containment *)
  regionInclusion : list Z;
  regionContainment : list Z;
  regionInclusionBits : list Z;
  nRegionGroups : Z;
  (* [makeScanner(b)] followed by [parseExtensions(&scan)]: the bytes of [b]
     after the scan, which works in place, and [scan.err] *)
  parseExtensions : gostring -> gostring * option error
}.

Definition maxCoreSize : Z := 12.
Definition max99thPercentileSize : Z := 32.
Definition maxSimpleUExtensionSize : Z := 14.

(** A zeroed byte array [[n]byte{}]. *)
Definition newBuf (n : Z) : gostring := repeat zero (Z.to_nat n).

(** [copy(buf[off:], src)]: the number of bytes written and the buffer
    afterwards. *)
Definition copyAt (buf : gostring) (off : Z) (src : gostring) : outcome (Z * gostring) :=
  if (0 <=? off) && (off <=? len buf) then
    let n := Z.min (len src) (len buf - off) in
    Ret (n, firstn (Z.to_nat off) buf ++ firstn (Z.to_nat n) src
              ++ skipn (Z.to_nat (off + n)) buf)
  else Panic.

(** [buf[i] = c] *)
Definition storeAt (buf : gostring) (i : Z) (c : ascii) : outcome gostring :=
  if (0 <=? i) && (i <? len buf) then
    Ret (firstn (Z.to_nat i) buf ++ c :: skipn (Z.to_nat (i + 1)) buf)
  else Panic.

(** [table[i]] on a Go array *)
Definition lookup (table : list Z) (i : Z) : outcome Z :=
  if i <? 0 then Panic
  else match nth_error table (Z.to_nat i) with
       | Some v => Ret v
       | None => Panic
       end.

Section WithTables.

Variable T : IdentifierTables.

(** ** String forms *)

(** [genCoreBytes] writes the base language, script and region to the buffer
    and returns the number of bytes written.  [lang.stringToBuf(buf)] copies
    the language code to the start of the buffer. *)
Definition genCoreBytes (t : Tag) (buf : gostring) : outcome (Z * gostring) :=
  r <- copyAt buf 0 (langString T (lang t)) ;;
  let '(n, buf) := r in
  r <- (if negb (script t =? 0) then
          r1 <- copyAt buf n [dash] ;;
          let '(k1, buf) := r1 in
          r2 <- copyAt buf (n + k1) (scriptString T (script t)) ;;
          let '(k2, buf) := r2 in
          Ret (n + k1 + k2, buf)
        else Ret (n, buf)) ;;
  let '(n, buf) := r in
  if negb (region t =? 0) then
    r1 <- copyAt buf n [dash] ;;
    let '(k1, buf) := r1 in
    r2 <- copyAt buf (n + k1) (regionString T (region t)) ;;
    let '(k2, buf) := r2 in
    Ret (n + k1 + k2, buf)
  else Ret (n, buf).

Definition String (t : Tag) : outcome gostring :=
  if negb (isEmpty (str t)) then Ret (str t)
  else if (script t =? 0) && (region t =? 0) then Ret (langString T (lang t))
  else
    r <- genCoreBytes t (newBuf maxCoreSize) ;;
    let '(n, buf) := r in
    sliceTo buf n.

Definition MarshalText (t : Tag) : outcome (gostring * option error) :=
  text <- (if negb (isEmpty (str t)) then Ret (str t)
           else if (script t =? 0) && (region t =? 0) then Ret (langString T (lang t))
           else
             r <- genCoreBytes t (newBuf maxCoreSize) ;;
             let '(n, buf) := r in
             sliceTo buf n) ;;
  Ret (text, None).

(** ** Extensions *)

Fixpoint extensionLoop (fuel : nat) (s : gostring) (x : ascii) (i : Z)
  : outcome (gostring * bool) :=
  match fuel with
  | O => OutOfFuel
  | S fuel' =>
      if i <? len s - 1 then
        r <- getExtension s i ;;
        let '(i, ext) := r in
        c <- index ext 0 ;;
        if Ascii.eqb c x then Ret (ext, true)
        else extensionLoop fuel' s x i
      else Ret ([], false)
  end.

Definition Extension (t : Tag) (x : ascii) : outcome (gostring * bool) :=
  extensionLoop (S (length (str t))) (str t) x (pExt t).

Fixpoint extensionsLoop (fuel : nat) (s : gostring) (i : Z) (e : list gostring)
  : outcome (list gostring) :=
  match fuel with
  | O => OutOfFuel
  | S fuel' =>
      if i <? len s - 1 then
        r <- getExtension s i ;;
        let '(i, ext) := r in
        extensionsLoop fuel' s i (e ++ [ext])
      else Ret e
  end.

Definition Extensions (t : Tag) : outcome (list gostring) :=
  extensionsLoop (S (length (str t))) (str t) (pExt t) [].

(** ** Setting a key *)

Definition withStr (t : Tag) (s : gostring) : Tag :=
  mkTag (lang t) (region t) (script t) (pVariant t) (pExt t) s.

Definition SetTypeForKey (t : Tag) (key value : gostring) : outcome (Tag * option error) :=
  if private t then Ret (t, Some errPrivateUse)
  else if negb (len key =? 2) then Ret (t, Some errInvalidArguments)
  else if isEmpty value then
    (* Remove the setting if value is "". *)
    r <- findTypeForKey t key ;;
    let '(start, end_, _) := r in
    if negb (start =? end_) then
      (* Remove key tag and leading '-'. *)
      let start := start - 4 in
      (* Remove a possible empty extension. *)
      last <- (if end_ =? len (str t) then Ret true
               else c <- index (str t) (end_ + 2) ;; Ret (Ascii.eqb c dash)) ;;
      only <- (if (last : bool) then c <- index (str t) (start - 2) ;; Ret (Ascii.eqb c dash)
               else Ret false) ;;
      let start := if (only : bool) then start - 2 else start in
      if (start =? pVariant t) && (end_ =? len (str t)) then
        Ret (mkTag (lang t) (region t) (script t) 0 0 [], None)
      else
        a <- sliceTo (str t) start ;;
        b <- sliceFrom (str t) end_ ;;
        Ret (withStr t (a ++ b), None)
    else Ret (t, None)
  else if (len value <? 3) || (8 <? len value) then Ret (t, Some errInvalidArguments)
  else
    let buf := newBuf (maxCoreSize + maxSimpleUExtensionSize) in
    (* Generate the tag string if needed. *)
    r <- (if isEmpty (str t) then
            r <- genCoreBytes t buf ;;
            let '(uStart, buf) := r in
            buf <- storeAt buf uStart dash ;;
            Ret (uStart + 1, buf)
          else Ret (0, buf)) ;;
    let '(uStart, buf) := r in
    (* Create new key-type pair and parse it to verify. *)
    r <- copyAt buf uStart (lit "u-") ;;
    r <- copyAt (snd r) (uStart + 2) key ;;
    buf <- storeAt (snd r) (uStart + 4) dash ;;
    r <- copyAt buf (uStart + 5) value ;;
    let '(n, buf) := r in
    b <- slice buf uStart (uStart + 5 + n) ;;
    let '(b, err) := parseExtensions T b in
    match err with
    | Some e => Ret (t, Some e)
    | None =>
        (* Assemble the replacement string. *)
        if isEmpty (str t) then
          core <- sliceTo buf uStart ;;
          Ret (mkTag (lang t) (region t) (script t)
                     ((uStart - 1) mod 256) ((uStart - 1) mod 65536) (core ++ b), None)
        else
          let s := str t in
          r <- findTypeForKey t key ;;
          let '(start, end_, hasExt) := r in
          a <- sliceTo s start ;;
          c <- sliceFrom s end_ ;;
          if start =? end_ then
            b <- (if (hasExt : bool) then sliceFrom b 2 else Ret b) ;;
            Ret (withStr t (a ++ dash :: b ++ c), None)
          else Ret (withStr t (a ++ value ++ c), None)
    end.

(** ** Parents *)

Fixpoint parentOverride (ps : list parentRel) (t : Tag) (maxScript : Z) : option Tag :=
  match ps with
  | [] => None
  | p :: ps' =>
      if (p_lang p =? lang t) && (p_maxScript p =? maxScript)
         && existsb (fun r => r =? region t) (p_fromRegion p)
      then Some (coreTag (lang t) (p_script p) (p_toRegion p))
      else parentOverride ps' t maxScript
  end.

Definition Parent (t : Tag) : Tag :=
  if negb (isEmpty (str t)) then
    (* Strip the variants and extensions. *)
    let '(b, s, r) := Raw t in
    let t := coreTag b s r in
    if (region t =? 0) && negb (script t =? 0) && negb (lang t =? 0)
       && (script (fst (addTags T (langTag (lang t)))) =? script t)
    then langTag (lang t)
    else t
  else if negb (lang t =? 0) then
    if negb (region t =? 0) then
      let maxScript :=
        if script t =? 0 then script (fst (addTags T t)) else script t in
      match parentOverride (parents T) t maxScript with
      | Some parent => parent
      | None =>
          (* Strip the script if it is the default one. *)
          let base := fst (addTags T (langTag (lang t))) in
          if negb (script base =? maxScript)
          then coreTag (lang t) maxScript 0
          else langTag (lang t)
      end
    else if negb (script t =? 0) then
      (* The parent for a base-script pair with a non-default script is
         "und" instead of the base language. *)
      let base := fst (addTags T (langTag (lang t))) in
      if negb (script base =? script t) then und else langTag (lang t)
    else und
  else und.

(** ** Regions *)

Definition Contains (r c : Z) : outcome bool :=
  if r =? c then Ret true
  else
    g <- lookup (regionInclusion T) r ;;
    if nRegionGroups T <=? g then Ret false
    else
      m <- lookup (regionContainment T) g ;;
      d <- lookup (regionInclusion T) c ;;
      b <- lookup (regionInclusionBits T) d ;;
      (* A contained country may belong to multiple disjoint groups.  If the
         contained region is a group, it must strictly be a subset. *)
      if nRegionGroups T <=? d then Ret (negb (Z.land b m =? 0))
      else Ret (Z.ldiff b m =? 0).

End WithTables.

(** * The other operations of the file *)

(** ** Variants *)

(** [strings.Index(s, sep)] for a separator of one byte: the position of its
    first occurrence, or -1. *)
Fixpoint stringsIndex (s : gostring) (sep : ascii) : Z :=
  match s with
  | [] => -1
  | c :: r =>
      if Ascii.eqb c sep then 0
      else
        let p := stringsIndex r sep in
        if p =? -1 then -1 else p + 1
  end.

(** [nextToken] returns token t and the rest of the string. *)
Definition nextToken (s : gostring) : outcome (gostring * gostring) :=
  s1 <- sliceFrom s 1 ;;
  let p := stringsIndex s1 dash in
  if p =? -1 then Ret (s1, [])
  else
    let p := p + 1 in
    t <- slice s 1 p ;;
    tail <- sliceFrom s p ;;
    Ret (t, tail).

Record Variant : Type := mkVariant { variant : gostring }.

Definition Variant_String (v : Variant) : gostring := variant v.

(** The loop of [Variants]: [str] starts as [t.str[t.pVariant:t.pExt]], and
    [nextToken] takes one token off it until it is empty. *)
Fixpoint variantsLoop (fuel : nat) (str : gostring) (v : list Variant)
  : outcome (list Variant) :=
  match fuel with
  | O => OutOfFuel
  | S fuel' =>
      if negb (isEmpty str) then
        r <- nextToken str ;;
        let '(x, str) := r in
        variantsLoop fuel' str (v ++ [mkVariant x])
      else Ret v
  end.

Definition Variants (t : Tag) : outcome (list Variant) :=
  if pVariant t <? pExt t then
    seg <- slice (str t) (pVariant t) (pExt t) ;;
    variantsLoop (S (length seg)) seg []
  else Ret [].

(** ** The methods of an extension

    An [Extension] holds one string, the block without the dash before it;
    [Extension] and [Extensions] above return that string. *)

Definition Extension_String (e : gostring) : gostring := e.

(** [Type] returns the one-byte type of the extension, 0 for the empty one. *)
Definition Extension_Type (e : gostring) : ascii :=
  match e with
  | [] => zero
  | c :: _ => c
  end.

(** [strings.Split(s, sep)] for a separator of one byte. *)
Fixpoint stringsSplit (s : gostring) (sep : ascii) : list gostring :=
  match s with
  | [] => [[]]
  | c :: r =>
      if Ascii.eqb c sep then [] :: stringsSplit r sep
      else
        match stringsSplit r sep with
        | w :: ws => (c :: w) :: ws
        | [] => [[c]]
        end
  end.

Definition Extension_Tokens (e : gostring) : list gostring := stringsSplit e dash.

(** ** Remaking the string *)

(** [strings.HasPrefix] *)
Fixpoint hasPrefix (s prefix : gostring) {struct prefix} : bool :=
  match prefix, s with
  | [], _ => true
  | _ :: _, [] => false
  | c :: prefix', d :: s' => Ascii.eqb d c && hasPrefix s' prefix'
  end.

(** [remakeString] updates [t.str] after lang, script or region changed; the
    tag is passed in and the updated tag returned. *)
Definition remakeString (T : IdentifierTables) (t : Tag) : outcome Tag :=
  if isEmpty (str t) then Ret t
  else
    extra <- sliceFrom (str t) (pVariant t) ;;
    extra <- (if 0 <? pVariant t then sliceFrom extra 1 else Ret extra) ;;
    if equalTags t und && hasPrefix extra (lit "x-") then
      Ret (mkTag (lang t) (region t) (script t) 0 0 extra)
    else
      (* avoid extra memory allocation in most cases *)
      r <- genCoreBytes T t (newBuf max99thPercentileSize) ;;
      let '(n, buf) := r in
      b <- sliceTo buf n ;;
      if negb (isEmpty extra) then
        let diff := len b - pVariant t in
        Ret (mkTag (lang t) (region t) (script t)
                   ((pVariant t + diff) mod 256) ((pExt t + diff) mod 65536)
                   (b ++ dash :: extra))
      else
        Ret (mkTag (lang t) (region t) (script t)
                   (len b mod 256) (len b mod 65536) b).

(** ** Parsing identifiers

    The lookups of the identifiers, the index of the registered variants and
    the attributes of the regions are declared outside [language.go]. *)

Record CodeTables : Type := mkCodes {
  getLangID : gostring -> Z * option error;
  (* [getScriptID(script, b)], for the table [script] *)
  getScriptID : gostring -> Z * option error;
  getRegionID : gostring -> Z * option error;
  (* [variantIndex], a map from the variants to their index *)
  variantIndex : gostring -> option Z;
  mkErrInvalid : gostring -> error;
  (* [strings.ToLower] on a string that is not all ASCII *)
  unicodeToLower : gostring -> gostring;
  (* [regionID.IsPrivateUse] and the region [XK] *)
  IsPrivateUse : Z -> bool;
  _XK : Z
}.

Definition ParseBase (C : CodeTables) (s : gostring) : outcome (Z * option error) :=
  let n := len s in
  if (n <? 2) || (3 <? n) then Ret (0, Some errSyntax)
  else
    r <- copyAt (newBuf 3) 0 s ;;
    let '(k, buf) := r in
    b <- sliceTo buf k ;;
    Ret (getLangID C b).

Definition ParseScript (C : CodeTables) (s : gostring) : outcome (Z * option error) :=
  if negb (len s =? 4) then Ret (0, Some errSyntax)
  else
    r <- copyAt (newBuf 4) 0 s ;;
    let '(k, buf) := r in
    b <- sliceTo buf k ;;
    Ret (getScriptID C b).

Definition ParseRegion (C : CodeTables) (s : gostring) : outcome (Z * option error) :=
  let n := len s in
  if (n <? 2) || (3 <? n) then Ret (0, Some errSyntax)
  else
    r <- copyAt (newBuf 3) 0 s ;;
    let '(k, buf) := r in
    b <- sliceTo buf k ;;
    Ret (getRegionID C b).

Definition isUpper (c : ascii) : bool :=
  ((65 <=? N_of_ascii c) && (N_of_ascii c <=? 90))%N.

Definition isASCII (s : gostring) : bool :=
  forallb (fun c => (N_of_ascii c <? 128)%N) s.

(** [strings.ToLower]: on an ASCII string the upper case letters are moved
    to lower case, byte by byte. *)
Definition stringsToLower (C : CodeTables) (s : gostring) : gostring :=
  if isASCII s
  then map (fun c => if isUpper c then ascii_of_N (N_of_ascii c + 32) else c) s
  else unicodeToLower C s.

Definition ParseVariant (C : CodeTables) (s : gostring) : Variant * option error :=
  let s := stringsToLower C s in
  match variantIndex C s with
  | Some _ => (mkVariant s, None)
  | None => (mkVariant [], Some (mkErrInvalid C s))
  end.

(** ** Countries and groups *)

Definition IsGroup (T : IdentifierTables) (r : Z) : outcome bool :=
  if r =? 0 then Ret false
  else
    g <- lookup (regionInclusion T) r ;;
    Ret (g <? Z.of_nat (length (regionContainment T))).

(** [r == 0 || r.IsGroup() || r.IsPrivateUse() && r != _XK], from left to
    right. *)
Definition IsCountry (T : IdentifierTables) (C : CodeTables) (r : Z) : outcome bool :=
  if r =? 0 then Ret false
  else
    g <- IsGroup T r ;;
    if (g : bool) then Ret false
    else if IsPrivateUse C r && negb (r =? _XK C) then Ret false
    else Ret true.

(** * The data model

    ** The canonical layout of the suffix

    After the core a tag holds variants and extension blocks.  A block is a
    type of one byte and tokens of two to eight bytes (one to eight in the
    private use block [x]).  In the 'u' block attributes come first, then
    keywords: a key of two bytes followed by its type, one or more
    components of three to eight bytes. *)

Definition nodash (w : gostring) : Prop := Forall (fun c => c <> dash) w.

Definition token (lo hi : nat) (w : gostring) : Prop :=
  nodash w /\ (lo <= length w <= hi)%nat.

(** [-w1-w2...] *)
Definition joinTokens (ws : list gostring) : gostring :=
  concat (map (fun w => dash :: w) ws).

Definition keyword : Type := (gostring * list gostring)%type.

Definition renderKeyword (kw : keyword) : gostring :=
  dash :: fst kw ++ joinTokens (snd kw).

Definition renderKeywords (kws : list keyword) : gostring :=
  concat (map renderKeyword kws).

Inductive ext : Type :=
| ExtU (attrs : list gostring) (kws : list keyword)
| ExtOther (ty : ascii) (toks : list gostring).

Definition extType (e : ext) : ascii :=
  match e with
  | ExtU _ _ => "u"%char
  | ExtOther ty _ => ty
  end.

Definition renderExt (e : ext) : gostring :=
  match e with
  | ExtU attrs kws => dash :: "u"%char :: joinTokens attrs ++ renderKeywords kws
  | ExtOther ty toks => dash :: ty :: joinTokens toks
  end.

Definition renderExts (es : list ext) : gostring := concat (map renderExt es).

Definition keywordOk (kw : keyword) : Prop :=
  token 2 2 (fst kw) /\ snd kw <> [] /\ Forall (token 3 8) (snd kw).

Definition extOk (e : ext) : Prop :=
  match e with
  | ExtU attrs kws =>
      Forall (token 3 8) attrs /\ Forall keywordOk kws /\ (attrs <> [] \/ kws <> [])
  | ExtOther ty toks =>
      ty <> dash /\ ty <> "u"%char /\ toks <> [] /\
      Forall (token (if Ascii.eqb ty "x" then 1 else 2) 8) toks
  end.

Definition extSorted (e : ext) : Prop :=
  match e with
  | ExtU _ kws => StronglySorted (fun a b : keyword => str_ltb (fst a) (fst b) = true) kws
  | ExtOther _ _ => True
  end.

(** No two dashes in a row. *)
Fixpoint noDashPair (s : gostring) : Prop :=
  match s with
  | a :: (b :: _) as tl => ~ (a = dash /\ b = dash) /\ noDashPair tl
  | _ => True
  end.

(** ** Valid tags *)

(** The synthesized core [lang[-script][-region]]. *)
Definition coreString (T : IdentifierTables) (t : Tag) : gostring :=
  langString T (lang t)
  ++ (if script t =? 0 then [] else dash :: scriptString T (script t))
  ++ (if region t =? 0 then [] else dash :: regionString T (region t)).

(** The sizes of the codes: a language of 2 or 3 bytes, a script of 4, a
    region of 2 or 3. *)
Definition codesOk (T : IdentifierTables) : Prop :=
  (forall l, (2 <= length (langString T l) <= 3)%nat) /\
  (forall s, length (scriptString T s) = 4%nat) /\
  (forall r, (2 <= length (regionString T r) <= 3)%nat).

(** The scanner works in place: the slice it is given keeps its length. *)
Definition scannerInPlace (T : IdentifierTables) : Prop :=
  forall b, length (fst (parseExtensions T b)) = length b.

(** A core followed by variants and by extension blocks in ascending order
    of their type, the keys of the 'u' block in ascending order; [pVariant]
    and [pExt] at the start of the variants and of the extensions. *)
Definition hasSuffix (T : IdentifierTables) (t : Tag) (variants : list gostring)
           (es : list ext) : Prop :=
  str t = coreString T t ++ joinTokens variants ++ renderExts es /\
  pVariant t = len (coreString T t) /\
  pExt t = len (coreString T t) + len (joinTokens variants) /\
  0 < pVariant t < 256 /\ pExt t < 65536 /\
  (variants <> [] \/ es <> []) /\
  Forall (fun v => nodash v /\ v <> []) variants /\
  Forall extOk es /\ Forall extSorted es /\
  StronglySorted (fun a b => byte_ltb (extType a) (extType b) = true) es.

(** The invariants of the data model: a tag without a suffix, its string
    empty and its offsets zero; a private use tag [x-...], its offsets zero
    as [remakeString] sets them; a tag with a suffix. *)
Inductive validTag (T : IdentifierTables) (t : Tag) : Prop :=
| validCore :
    str t = [] -> pVariant t = 0 -> pExt t = 0 -> validTag T t
| validPrivate (toks : list gostring) :
    str t = "x"%char :: joinTokens toks -> toks <> [] -> Forall (token 1 8) toks ->
    pVariant t = 0 -> pExt t = 0 -> validTag T t
| validSuffix (variants : list gostring) (es : list ext) :
    hasSuffix T t variants es -> validTag T t.

(** A type: components of three to eight bytes, joined by dashes. *)
Definition typeOk (value : gostring) : Prop :=
  exists comps, comps <> [] /\ Forall (token 3 8) comps /\ joinTokens comps = dash :: value.

(** The fragment [u-<key>-<value>] that [SetTypeForKey] builds. *)
Definition fragment (key value : gostring) : gostring :=
  lit "u-" ++ key ++ dash :: value.

(** ** The key/type index on the layout *)

(** Where [findTypeForKey] ends up on a suffix of the layout: the string is
    split in three, the part before the type (or before the point of
    insertion), the type, and the part after it. *)
Fixpoint locateKey (key acc : gostring) (kws : list keyword) (rest : gostring)
  : gostring * gostring * gostring * bool :=
  match kws with
  | [] => (acc, [], rest, true)
  | kw :: kws' =>
      if str_eqb (fst kw) key
      then (acc ++ dash :: fst kw ++ [dash], tl (joinTokens (snd kw)),
            renderKeywords kws' ++ rest, true)
      else if str_gtb (fst kw) key
      then (acc, [], renderKeywords kws ++ rest, true)
      else locateKey key (acc ++ renderKeyword kw) kws' rest
  end.

Fixpoint locate (key acc : gostring) (es : list ext)
  : gostring * gostring * gostring * bool :=
  match es with
  | [] => (acc, [], [], false)
  | ExtOther ty toks :: es' =>
      if byte_ltb "u" ty then (acc, [], renderExts es, false)
      else locate key (acc ++ renderExt (ExtOther ty toks)) es'
  | ExtU attrs kws :: es' =>
      locateKey key (acc ++ dash :: "u"%char :: joinTokens attrs) kws (renderExts es')
  end.

(** The positions that a split of the string stands for. *)
Definition span (r : gostring * gostring * gostring * bool) : Z * Z * bool :=
  let '(x, y, _, hasExt) := r in (len x, len x + len y, hasExt).

(** The blocks after [SetTypeForKey]: the keyword replaced, or put in before
    the first greater key, in a new 'u' block if there was none. *)
Fixpoint setKeyword (kw : keyword) (kws : list keyword) : list keyword :=
  match kws with
  | [] => [kw]
  | kw' :: kws' =>
      if str_eqb (fst kw') (fst kw) then kw :: kws'
      else if str_gtb (fst kw') (fst kw) then kw :: kws
      else kw' :: setKeyword kw kws'
  end.

Fixpoint setKey (kw : keyword) (es : list ext) : list ext :=
  match es with
  | [] => [ExtU [] [kw]]
  | ExtOther ty toks :: es' =>
      if byte_ltb "u" ty then ExtU [] [kw] :: es
      else ExtOther ty toks :: setKey kw es'
  | ExtU attrs kws :: es' => ExtU attrs (setKeyword kw kws) :: es'
  end.

(** ** The steps of the scan *)

(** What may follow a token of the 'u' block: the end of the string, or a
    dash. *)
Definition dashOrEnd (rest : gostring) : Prop :=
  rest = [] \/ exists r, rest = dash :: r.

(** What may follow the 'u' block: the end of the string, or the next
    extension. *)
Definition blockEnd (rest : gostring) : Prop :=
  rest = [] \/ exists c r, rest = dash :: c :: dash :: r.

(** The tail of the body of [scanKeys], from the test that ends the loop. *)
Definition afterToken (fuel : nat) (s key : gostring) (p start : Z) (curKey : gostring)
  : outcome (Z * Z * bool) :=
  stop <- (if p =? len s then Ret true
           else c <- index s (p + 2) ;; Ret (Ascii.eqb c dash)) ;;
  if (stop : bool) then
    if str_eqb curKey key then Ret (start, p, true) else Ret (p, p, true)
  else scanKeys fuel s key p start curKey.

(** The same from the inner loop that runs to the end of the token. *)
Definition afterSkip (fuel : nat) (s key : gostring) (p start : Z) (curKey : gostring)
  : outcome (Z * Z * bool) :=
  let max := if len s <? p + 5 then len s else p + 5 in
  p <- skipToDash (S (Z.to_nat (max - p))) s p max ;;
  afterToken fuel s key p start curKey.

(** The iterations of [scanKeys] that a list of keywords takes. *)
Definition keywordSteps (kws : list keyword) : nat :=
  list_sum (map (fun kw : keyword => length (snd kw)) kws).

(** ** The chain of parents *)

(** The overrides are ranked by [rk] up to [K]: every override leads from a
    region to a region of lower rank, and no overridden region has a rank
    above [K].  [K] bounds the number of overrides that follow one another. *)
Definition parentsRanked (T : IdentifierTables) (rk : Z -> nat) (K : nat) : Prop :=
  forall p r, In p (parents T) -> In r (p_fromRegion p) ->
              (rk (p_toRegion p) < rk r <= K)%nat.

(** ** The remade string *)

(** What [remakeString] returns once [extra] is known. *)
Definition remade (T : IdentifierTables) (t : Tag) (extra : gostring) : Tag :=
  if equalTags t und && hasPrefix extra (lit "x-")
  then mkTag (lang t) (region t) (script t) 0 0 extra
  else if negb (isEmpty extra)
       then mkTag (lang t) (region t) (script t)
                  ((pVariant t + (len (coreString T t) - pVariant t)) mod 256)
                  ((pExt t + (len (coreString T t) - pVariant t)) mod 65536)
                  (coreString T t ++ dash :: extra)
       else mkTag (lang t) (region t) (script t)
                  (len (coreString T t) mod 256) (len (coreString T t) mod 65536)
                  (coreString T t).

(** ** The tables of the regions *)

(** The tables are well formed: every entry of the inclusion table has its
    bits, and every group its containment mask. *)
Definition regionTablesOk (T : IdentifierTables) : Prop :=
  Forall (fun g => 0 <= g < Z.of_nat (length (regionInclusionBits T))) (regionInclusion T) /\
  nRegionGroups T <= Z.of_nat (length (regionContainment T)).

(** ** A small instance of the tables

    Languages [und], [en], [zh], [de]; scripts [Zzzz], [Latn], [Hans], [Hant];
    regions [ZZ], [001], [150], [AT], [US], [HK], [MO].  The parent overrides
    follow CLDR: for English, AT is overridden by 150, and 150, US and HK by
    001; for Chinese in Hant, MO by HK.  Region 001 is group 0, which
    contains group 1, region 150; AT is a leaf of group 1, US and HK are
    leaves of group 0.  The scanner accepts letters, digits and dashes. *)

Definition sampleLang (l : Z) : gostring :=
  if l =? 0 then lit "und" else if l =? 1 then lit "en"
  else if l =? 2 then lit "zh" else lit "de".

Definition sampleScript (s : Z) : gostring :=
  if s =? 0 then lit "Zzzz" else if s =? 1 then lit "Latn"
  else if s =? 2 then lit "Hans" else lit "Hant".

Definition sampleRegion (r : Z) : gostring :=
  if r =? 0 then lit "ZZ" else if r =? 1 then lit "001" else if r =? 2 then lit "150"
  else if r =? 3 then lit "AT" else if r =? 4 then lit "US"
  else if r =? 5 then lit "HK" else lit "MO".

Definition sampleAddTags (t : Tag) : Tag * option error :=
  (mkTag (lang t) (if region t =? 0 then 4 else region t)
         (if script t =? 0 then (if lang t =? 2 then 2 else 1) else script t)
         (pVariant t) (pExt t) (str t), None).

Definition isToken (c : ascii) : bool :=
  let n := N_of_ascii c in
  ((48 <=? n) && (n <=? 57) || (65 <=? n) && (n <=? 90) || (97 <=? n) && (n <=? 122))%N.

Definition sampleScanner (b : gostring) : gostring * option error :=
  if forallb (fun c => isToken c || Ascii.eqb c dash) b then (b, None)
  else (b, Some errSyntax).

Definition sampleTables : IdentifierTables :=
  mkTables sampleLang sampleScript sampleRegion sampleAddTags
    [mkParentRel 1 0 1 1 [2; 4; 5]; mkParentRel 1 0 1 2 [3]; mkParentRel 2 3 3 5 [6]]
    [4; 0; 1; 2; 3; 3] [3; 2] [1; 2; 2; 1; 0] 2
    sampleScanner.

(** The ranks of the regions of the sample tables. *)
Definition sampleRank (r : Z) : nat :=
  if r =? 1 then 0%nat else if (r =? 3) || (r =? 6) then 2%nat else 1%nat.

(** [en-u-co-phonebk], [en-u-co-phonebk-nu-latn], [en-a-xyz-u-co-phonebk] and
    [en-AT-u-co-phonebk] *)
Definition enPhonebk : Tag := mkTag 1 0 0 2 2 (lit "en-u-co-phonebk").
Definition enPhonebkLatn : Tag := mkTag 1 0 0 2 2 (lit "en-u-co-phonebk-nu-latn").
Definition enXyzPhonebk : Tag := mkTag 1 0 0 2 2 (lit "en-a-xyz-u-co-phonebk").
Definition enATPhonebk : Tag := mkTag 1 3 0 5 5 (lit "en-AT-u-co-phonebk").

(** [x-abc], a private use tag *)
Definition privateAbc : Tag := mkTag 0 0 0 0 0 (lit "x-abc").

(** [de-1996-u-co-phonebk], with a variant, and [en-x-abc], with a private
    use block *)
Definition de1996Phonebk : Tag := mkTag 3 0 0 2 7 (lit "de-1996-u-co-phonebk").
Definition enPrivate : Tag := mkTag 1 0 0 2 2 (lit "en-x-abc").

(** Lookups for the codes of the sample tables; the variants [1996] and
    [valencia]; [HK] and [MO] stand for private use regions, [HK] for [XK]. *)
Definition sampleCodes : CodeTables :=
  mkCodes
    (fun b => if str_eqb b (lit "en") then (1, None)
              else if str_eqb b (lit "zh") then (2, None)
              else if str_eqb b (lit "de") then (3, None)
              else (0, Some (errInvalid b)))
    (fun b => if str_eqb b (lit "Latn") then (1, None)
              else if str_eqb b (lit "Hans") then (2, None)
              else if str_eqb b (lit "Hant") then (3, None)
              else (0, Some (errInvalid b)))
    (fun b => if str_eqb b (lit "AT") then (3, None)
              else if str_eqb b (lit "US") then (4, None)
              else (0, Some (errInvalid b)))
    (fun v => if str_eqb v (lit "1996") then Some 0
              else if str_eqb v (lit "valencia") then Some 1 else None)
    errInvalid
    (fun s => s)
    (fun r => (r =? 5) || (r =? 6))
    5.

(** * Proofs *)

(** ** Strings, indices and slices *)

Lemma len_nil : len [] = 0.
Proof. reflexivity. Qed.

Lemma len_cons (c : ascii) (s : gostring) : len (c :: s) = 1 + len s.
Proof. unfold len. cbn [length]. lia. Qed.

Lemma len_app (a b : gostring) : len (a ++ b) = len a + len b.
Proof. unfold len. rewrite length_app. lia. Qed.

Lemma len_nonneg (s : gostring) : 0 <= len s.
Proof. unfold len. lia. Qed.

Lemma len_zero (s : gostring) : len s = 0 -> s = [].
Proof. destruct s; [reflexivity | rewrite len_cons; pose proof (len_nonneg s); lia]. Qed.

Create Rewrite HintDb len.
#[local] Hint Rewrite len_nil len_cons len_app : len.

Ltac lens := autorewrite with len in *.

(** Equal strings up to the bracketing of [++]. *)
Ltac eqapp :=
  repeat (progress (rewrite <- ?app_assoc; cbn [app]));
  try reflexivity.

Lemma index_app_r (pre suf : gostring) (p i : Z) :
  p = len pre -> 0 <= i -> index (pre ++ suf) (p + i) = index suf i.
Proof.
  intros -> Hi. unfold index, len.
  destruct (Z.ltb_spec (Z.of_nat (length pre) + i) 0); [lia |].
  destruct (Z.ltb_spec i 0); [lia |].
  replace (Z.to_nat (Z.of_nat (length pre) + i)) with (length pre + Z.to_nat i)%nat by lia.
  rewrite nth_error_app2 by lia.
  replace (length pre + Z.to_nat i - length pre)%nat with (Z.to_nat i) by lia.
  reflexivity.
Qed.

Lemma index_here (pre suf : gostring) (p : Z) :
  p = len pre -> index (pre ++ suf) p = index suf 0.
Proof.
  intros Hp. replace p with (p + 0) by lia. now apply index_app_r.
Qed.

Lemma index_0 (c0 : ascii) (r : gostring) : index (c0 :: r) 0 = Ret c0.
Proof. reflexivity. Qed.

Lemma index_1 (c0 c1 : ascii) (r : gostring) : index (c0 :: c1 :: r) 1 = Ret c1.
Proof. reflexivity. Qed.

Lemma index_2 (c0 c1 c2 : ascii) (r : gostring) :
  index (c0 :: c1 :: c2 :: r) 2 = Ret c2.
Proof. reflexivity. Qed.

Lemma index_3 (c0 c1 c2 c3 : ascii) (r : gostring) :
  index (c0 :: c1 :: c2 :: c3 :: r) 3 = Ret c3.
Proof. reflexivity. Qed.

Lemma slice_mid (x y z : gostring) (lo hi : Z) :
  lo = len x -> hi = len x + len y -> slice (x ++ y ++ z) lo hi = Ret y.
Proof.
  intros -> ->. unfold slice. lens.
  pose proof (len_nonneg x). pose proof (len_nonneg y). pose proof (len_nonneg z).
  destruct (Z.leb_spec 0 (len x)); [| lia].
  destruct (Z.leb_spec (len x) (len x + len y)); [| lia].
  destruct (Z.leb_spec (len x + len y) (len x + (len y + len z))); [| lia].
  cbn [andb]. f_equal. unfold len.
  replace (Z.to_nat (Z.of_nat (length x))) with (length x + 0)%nat by lia.
  rewrite skipn_app, skipn_all2, Nat.add_0_r by lia.
  replace (length x - length x)%nat with 0%nat by lia. cbn [skipn app].
  replace (Z.to_nat (Z.of_nat (length x) + Z.of_nat (length y) - Z.of_nat (length x)))
    with (length y + 0)%nat by lia.
  rewrite firstn_app_2. cbn [firstn]. apply app_nil_r.
Qed.

Lemma slice_prefix (y z : gostring) (hi : Z) :
  hi = len y -> slice (y ++ z) 0 hi = Ret y.
Proof. intros ->. apply (slice_mid [] y z); [reflexivity | now lens]. Qed.

Lemma sliceTo_app (x z : gostring) (hi : Z) :
  hi = len x -> sliceTo (x ++ z) hi = Ret x.
Proof.
  intros ->. unfold sliceTo. apply (slice_mid [] x z); [reflexivity | now lens].
Qed.

Lemma sliceFrom_app (x z : gostring) (lo : Z) :
  lo = len x -> sliceFrom (x ++ z) lo = Ret z.
Proof.
  intros ->. unfold sliceFrom.
  rewrite <- (app_nil_r z) at 1. apply (slice_mid x z []); [reflexivity | lens; lia].
Qed.

Lemma eqb_dash_false (c : ascii) : c <> dash -> Ascii.eqb c dash = false.
Proof. intros H. now apply Ascii.eqb_neq. Qed.

Lemma str_eqb_eq (a b : gostring) : str_eqb a b = true <-> a = b.
Proof.
  revert b. induction a as [| x a IH]; destruct b as [| y b]; cbn; split;
    try congruence; try reflexivity.
  - intros [Hx Hab]%andb_true_iff. apply Ascii.eqb_eq in Hx. apply IH in Hab. congruence.
  - intros [= -> ->]. rewrite Ascii.eqb_refl. cbn. now apply IH.
Qed.

Lemma str_eqb_refl (a : gostring) : str_eqb a a = true.
Proof. now apply str_eqb_eq. Qed.

Lemma byte_ltb_irrefl (x : ascii) : byte_ltb x x = false.
Proof. unfold byte_ltb. apply N.ltb_irrefl. Qed.

Lemma str_ltb_irrefl (a : gostring) : str_ltb a a = false.
Proof.
  induction a as [| x a IH]; cbn; [reflexivity |]. now rewrite byte_ltb_irrefl.
Qed.

Lemma str_gtb_eq_false (a b : gostring) : str_eqb a b = true -> str_gtb a b = false.
Proof. intros ->%str_eqb_eq. apply str_ltb_irrefl. Qed.

Lemma str_ltb_asym (a b : gostring) : str_ltb a b = true -> str_ltb b a = false.
Proof.
  revert b. induction a as [| x a IH]; destruct b as [| y b]; cbn; try congruence.
  unfold byte_ltb.
  destruct (N.ltb_spec (N_of_ascii x) (N_of_ascii y)),
           (N.ltb_spec (N_of_ascii y) (N_of_ascii x)); try congruence; try lia.
  apply IH.
Qed.

(** ** Tokens *)

Lemma joinTokens_cons (w : gostring) (ws : list gostring) :
  joinTokens (w :: ws) = dash :: w ++ joinTokens ws.
Proof. reflexivity. Qed.

Lemma joinTokens_app (a b : list gostring) :
  joinTokens (a ++ b) = joinTokens a ++ joinTokens b.
Proof. unfold joinTokens. now rewrite map_app, concat_app. Qed.

Lemma renderKeywords_cons (kw : keyword) (kws : list keyword) :
  renderKeywords (kw :: kws) = renderKeyword kw ++ renderKeywords kws.
Proof. reflexivity. Qed.

Lemma renderKeywords_app (a b : list keyword) :
  renderKeywords (a ++ b) = renderKeywords a ++ renderKeywords b.
Proof. unfold renderKeywords. now rewrite map_app, concat_app. Qed.

Lemma renderExts_cons (e : ext) (es : list ext) :
  renderExts (e :: es) = renderExt e ++ renderExts es.
Proof. reflexivity. Qed.

Lemma renderExts_app (a b : list ext) :
  renderExts (a ++ b) = renderExts a ++ renderExts b.
Proof. unfold renderExts. now rewrite map_app, concat_app. Qed.

(** A token of at least three bytes, opened up. *)
Lemma token3_inv (hi : nat) (w : gostring) :
  token 3 hi w ->
  exists a b c w', w = a :: b :: c :: w' /\ a <> dash /\ b <> dash /\ c <> dash /\
                   nodash w' /\ (length w' <= hi - 3)%nat.
Proof.
  intros [Hn Hl]. destruct w as [| a [| b [| c w']]]; cbn in Hl; try lia.
  exists a, b, c, w'. inversion Hn as [| ? ? Ha Hn1]; subst.
  inversion Hn1 as [| ? ? Hb Hn2]; subst. inversion Hn2 as [| ? ? Hc Hn3]; subst.
  repeat split; try assumption. lia.
Qed.

Lemma token2_inv (w : gostring) :
  token 2 2 w -> exists a b, w = [a; b] /\ a <> dash /\ b <> dash.
Proof.
  intros [Hn Hl]. destruct w as [| a [| b [| c w']]]; cbn in Hl; try lia.
  exists a, b. inversion Hn as [| ? ? Ha Hn1]; subst. inversion Hn1; subst. now repeat split.
Qed.

Lemma skipToDash_spec (w : gostring) :
  forall (fuel : nat) (s pre rest : gostring) (p max : Z),
    s = pre ++ w ++ rest -> p = len pre ->
    nodash w -> dashOrEnd rest ->
    p + len w <= max -> max <= len s ->
    (length w < fuel)%nat ->
    skipToDash fuel s p max = Ret (p + len w).
Proof.
  induction w as [| c w IH]; intros fuel s pre rest p max Hs Hp Hn Hr Hlo Hhi Hf.
  - destruct fuel as [| fuel]; [cbn in Hf; lia |]. cbn [skipToDash]. lens.
    cbn [app] in Hs.
    destruct (Z.ltb_spec p max) as [Hlt |]; [| f_equal; lia].
    destruct Hr as [-> | [r ->]].
    + exfalso. rewrite app_nil_r in Hs. subst s. lia.
    + subst s. rewrite index_here by assumption. cbn. f_equal. lia.
  - destruct fuel as [| fuel]; [cbn in Hf; lia |]. cbn [skipToDash].
    inversion Hn as [| ? ? Hc Hn']; subst.
    pose proof (len_nonneg w). lens.
    destruct (Z.ltb_spec (len pre) max) as [Hlt | Hge]; [| lia].
    rewrite index_here by reflexivity.
    cbn [app]. rewrite index_0. cbn [bind].
    rewrite eqb_dash_false by assumption.
    rewrite (IH fuel (pre ++ c :: w ++ rest) (pre ++ [c]) rest (len pre + 1) max).
    + f_equal. lia.
    + now rewrite <- app_assoc.
    + lens. lia.
    + assumption.
    + assumption.
    + lia.
    + lens. lia.
    + cbn in Hf. lia.
Qed.

(** ** The scan of the 'u' block *)

Lemma scanKeys_unfold (fuel : nat) (s key : gostring) (p start : Z) (curKey : gostring) :
  scanKeys (S fuel) s key p start curKey =
  (c <- index s (p + 3) ;;
   if Ascii.eqb c dash then
     if str_eqb curKey key then Ret (start, p, true)
     else
       curKey' <- slice s (p + 1) (p + 3) ;;
       if str_gtb curKey' key then Ret (p, p, true)
       else afterSkip fuel s key (p + 7) (p + 4) curKey'
   else afterSkip fuel s key (p + 4) start curKey).
Proof. reflexivity. Qed.

Lemma afterSkip_spec (fuel : nat) (s key pre w rest : gostring) (p start : Z)
      (curKey : gostring) :
  s = pre ++ w ++ rest -> p = len pre -> nodash w -> (length w <= 5)%nat ->
  dashOrEnd rest ->
  afterSkip fuel s key p start curKey = afterToken fuel s key (p + len w) start curKey.
Proof.
  intros Hs Hp Hn Hl Hr. unfold afterSkip.
  assert (Hlen : len s = p + len w + len rest) by (subst s p; lens; lia).
  pose proof (len_nonneg rest). assert (Hw : len w <= 5) by (unfold len; lia).
  pose proof (len_nonneg w).
  rewrite (skipToDash_spec w _ s pre rest p); try assumption; try reflexivity.
  - destruct (Z.ltb_spec (len s) (p + 5)); lia.
  - destruct (Z.ltb_spec (len s) (p + 5)); lia.
  - destruct (Z.ltb_spec (len s) (p + 5)); unfold len in *; lia.
Qed.

(** An attribute, or a component of a type after the first. *)
Lemma scanKeys_token (fuel : nat) (s key pre tok rest : gostring) (p start : Z)
      (curKey : gostring) :
  s = pre ++ dash :: tok ++ rest -> p = len pre -> token 3 8 tok -> dashOrEnd rest ->
  scanKeys (S fuel) s key p start curKey =
  afterToken fuel s key (p + 1 + len tok) start curKey.
Proof.
  intros Hs Hp Ht Hr. rewrite scanKeys_unfold.
  destruct (token3_inv _ _ Ht) as (a & b & c & w & -> & Ha & Hb & Hc & Hw & Hl).
  subst s. rewrite index_app_r by (assumption || lia).
  cbn [app]. rewrite index_3. cbn [bind].
  rewrite eqb_dash_false by assumption.
  rewrite (afterSkip_spec fuel _ key (pre ++ [dash; a; b; c]) w rest (p + 4)).
  - f_equal. lens. lia.
  - now rewrite <- app_assoc.
  - lens. lia.
  - assumption.
  - cbn in Hl. lia.
  - assumption.
Qed.

(** A key and the first component of its type. *)
Lemma scanKeys_key (fuel : nat) (s key pre k ty rest : gostring) (p start : Z)
      (curKey : gostring) :
  s = pre ++ dash :: k ++ dash :: ty ++ rest -> p = len pre ->
  token 2 2 k -> token 3 8 ty -> dashOrEnd rest ->
  scanKeys (S fuel) s key p start curKey =
  if str_eqb curKey key then Ret (start, p, true)
  else if str_gtb k key then Ret (p, p, true)
  else afterToken fuel s key (p + 4 + len ty) (p + 4) k.
Proof.
  intros Hs Hp Hk Ht Hr. rewrite scanKeys_unfold.
  destruct (token2_inv _ Hk) as (k1 & k2 & -> & Hk1 & Hk2).
  destruct (token3_inv _ _ Ht) as (a & b & c & w & -> & Ha & Hb & Hc & Hw & Hl).
  subst s. rewrite index_app_r by (assumption || lia).
  cbn [app]. rewrite index_3. cbn [bind].
  rewrite Ascii.eqb_refl.
  destruct (str_eqb curKey key); [reflexivity |].
  change (pre ++ dash :: k1 :: k2 :: dash :: a :: b :: c :: w ++ rest)
    with (pre ++ [dash] ++ [k1; k2] ++ (dash :: a :: b :: c :: w ++ rest)).
  rewrite app_assoc.
  rewrite (slice_mid (pre ++ [dash]) [k1; k2]) by (lens; lia).
  cbn [bind]. destruct (str_gtb [k1; k2] key); [reflexivity |].
  rewrite (afterSkip_spec fuel _ key (pre ++ [dash; k1; k2; dash; a; b; c]) w rest (p + 7)).
  - f_equal. lens. lia.
  - rewrite <- !app_assoc. reflexivity.
  - lens. lia.
  - assumption.
  - cbn in Hl. lia.
  - assumption.
Qed.

Lemma afterToken_end (fuel : nat) (s key : gostring) (p start : Z) (curKey : gostring) :
  p = len s ->
  afterToken fuel s key p start curKey =
  if str_eqb curKey key then Ret (start, p, true) else Ret (p, p, true).
Proof.
  intros ->. unfold afterToken. now rewrite Z.eqb_refl.
Qed.

Lemma afterToken_next (fuel : nat) (s key pre : gostring) (x y : ascii) (r : gostring)
      (p start : Z) (curKey : gostring) :
  s = pre ++ dash :: x :: y :: r -> p = len pre ->
  afterToken fuel s key p start curKey =
  if Ascii.eqb y dash
  then (if str_eqb curKey key then Ret (start, p, true) else Ret (p, p, true))
  else scanKeys fuel s key p start curKey.
Proof.
  intros Hs Hp. unfold afterToken.
  assert (Hlen : len s = p + 3 + len r) by (subst s p; lens; lia).
  pose proof (len_nonneg r).
  destruct (Z.eqb_spec p (len s)); [lia |].
  subst s. rewrite index_app_r by (assumption || lia). rewrite index_2. reflexivity.
Qed.

Lemma afterToken_blockEnd (fuel : nat) (s key pre rest : gostring) (p start : Z)
      (curKey : gostring) :
  s = pre ++ rest -> p = len pre -> blockEnd rest ->
  afterToken fuel s key p start curKey =
  if str_eqb curKey key then Ret (start, p, true) else Ret (p, p, true).
Proof.
  intros Hs Hp [-> | (c & r & ->)].
  - apply afterToken_end. subst. rewrite app_nil_r. reflexivity.
  - rewrite (afterToken_next fuel s key pre c dash r) by assumption.
    now rewrite Ascii.eqb_refl.
Qed.

Lemma dashOrEnd_joinTokens (ws : list gostring) (rest : gostring) :
  dashOrEnd rest -> dashOrEnd (joinTokens ws ++ rest).
Proof.
  intros Hr. destruct ws as [| w ws]; [exact Hr |]. right. cbn. eauto.
Qed.

Lemma dashOrEnd_renderKeywords (kws : list keyword) (rest : gostring) :
  dashOrEnd rest -> dashOrEnd (renderKeywords kws ++ rest).
Proof.
  intros Hr. destruct kws as [| kw kws]; [exact Hr |]. right. cbn. eauto.
Qed.

Lemma blockEnd_dashOrEnd (rest : gostring) : blockEnd rest -> dashOrEnd rest.
Proof. intros [-> | (c & r & ->)]; [now left | right; eauto]. Qed.

Lemma keywordSteps_cons (kw : keyword) (kws : list keyword) :
  keywordSteps (kw :: kws) = (length (snd kw) + keywordSteps kws)%nat.
Proof. reflexivity. Qed.

(** The components of a type after the first, or the attributes. *)
Lemma afterToken_types (tys : list gostring) :
  forall (fuel : nat) (s key pre rest : gostring) (p start : Z) (curKey : gostring),
    s = pre ++ joinTokens tys ++ rest -> p = len pre ->
    Forall (token 3 8) tys -> dashOrEnd rest ->
    afterToken (length tys + fuel) s key p start curKey =
    afterToken fuel s key (p + len (joinTokens tys)) start curKey.
Proof.
  induction tys as [| tok tys IH]; intros fuel s key pre rest p start curKey Hs Hp Ht Hr.
  - cbn. f_equal. lia.
  - inversion Ht as [| ? ? Htok Ht']; subst x l.
    rewrite joinTokens_cons in Hs |- *.
    destruct (token3_inv _ _ Htok) as (a & b & c & w & Hw & Ha & Hb & Hc & _).
    rewrite (afterToken_next _ s key pre a b (c :: w ++ joinTokens tys ++ rest))
      by (assumption || (subst; eqapp)).
    rewrite eqb_dash_false by assumption.
    cbn [length Nat.add].
    rewrite (scanKeys_token _ s key pre tok (joinTokens tys ++ rest));
      try assumption.
    + rewrite (IH fuel s key (pre ++ dash :: tok) rest); try assumption.
      * f_equal. lens. lia.
      * subst s. eqapp.
      * lens. lia.
    + subst s. eqapp.
    + now apply dashOrEnd_joinTokens.
Qed.

(** At the end of the type of the requested key. *)
Lemma afterToken_found (kws : list keyword) :
  forall (fuel : nat) (s key pre rest : gostring) (p start : Z) (curKey : gostring),
    s = pre ++ renderKeywords kws ++ rest -> p = len pre ->
    Forall keywordOk kws -> blockEnd rest ->
    str_eqb curKey key = true ->
    afterToken (S fuel) s key p start curKey = Ret (start, p, true).
Proof.
  intros fuel s key pre rest p start curKey Hs Hp Hk Hr Heq.
  destruct kws as [| [k tys] kws].
  - rewrite (afterToken_blockEnd _ s key pre rest) by assumption. now rewrite Heq.
  - inversion Hk as [| ? ? (Hkey & Hne & Htys) Hk']; subst x l. cbn [fst snd] in *.
    destruct tys as [| ty tys]; [congruence |].
    inversion Htys as [| ? ? Hty Htys']; subst x l.
    destruct (token2_inv _ Hkey) as (k1 & k2 & -> & Hk1 & Hk2).
    assert (Hs' : s = pre ++ dash :: [k1; k2] ++ dash :: ty
                      ++ (joinTokens tys ++ renderKeywords kws ++ rest)).
    { subst s. rewrite renderKeywords_cons. unfold renderKeyword. cbn [fst snd].
      rewrite joinTokens_cons. eqapp. }
    rewrite (afterToken_next _ s key pre k1 k2
               (dash :: ty ++ joinTokens tys ++ renderKeywords kws ++ rest))
      by assumption.
    rewrite eqb_dash_false by assumption.
    rewrite (scanKeys_key fuel s key pre [k1; k2] ty
               (joinTokens tys ++ renderKeywords kws ++ rest)); try assumption.
    + now rewrite Heq.
    + apply dashOrEnd_joinTokens, dashOrEnd_renderKeywords, blockEnd_dashOrEnd, Hr.
Qed.

(** The keywords, from a key that is not the requested one. *)
Lemma afterToken_keywords (kws : list keyword) :
  forall (fuel : nat) (s key pre rest : gostring) (p start : Z) (curKey : gostring),
    s = pre ++ renderKeywords kws ++ rest -> p = len pre ->
    Forall keywordOk kws -> blockEnd rest ->
    str_eqb curKey key = false ->
    (keywordSteps kws < fuel)%nat ->
    afterToken fuel s key p start curKey = Ret (span (locateKey key pre kws rest)).
Proof.
  induction kws as [| [k tys] kws IH];
    intros fuel s key pre rest p start curKey Hs Hp Hk Hr Hcur Hfuel.
  - rewrite (afterToken_blockEnd _ s key pre rest) by assumption.
    rewrite Hcur. cbn. do 2 f_equal. f_equal; lia.
  - inversion Hk as [| ? ? (Hkey & Hne & Htys) Hk']; subst x l. cbn [fst snd] in *.
    destruct tys as [| ty tys]; [congruence |].
    inversion Htys as [| ? ? Hty Htys']; subst x l.
    destruct (token2_inv _ Hkey) as (k1 & k2 & -> & Hk1 & Hk2).
    assert (Hs' : s = pre ++ dash :: [k1; k2] ++ dash :: ty
                      ++ (joinTokens tys ++ renderKeywords kws ++ rest)).
    { subst s. rewrite renderKeywords_cons. unfold renderKeyword. cbn [fst snd].
      rewrite joinTokens_cons. eqapp. }
    rewrite keywordSteps_cons in Hfuel. cbn [snd length] in Hfuel.
    destruct fuel as [| fuel]; [lia |].
    rewrite (afterToken_next _ s key pre k1 k2
               (dash :: ty ++ joinTokens tys ++ renderKeywords kws ++ rest))
      by assumption.
    rewrite eqb_dash_false by assumption.
    rewrite (scanKeys_key fuel s key pre [k1; k2] ty
               (joinTokens tys ++ renderKeywords kws ++ rest)); try assumption.
    2: apply dashOrEnd_joinTokens, dashOrEnd_renderKeywords, blockEnd_dashOrEnd, Hr.
    rewrite Hcur. cbn [locateKey fst snd].
    destruct (str_gtb [k1; k2] key) eqn:Hgt.
    { destruct (str_eqb [k1; k2] key) eqn:Heq.
      - apply str_gtb_eq_false in Heq. congruence.
      - cbn. do 2 f_equal. f_equal; lia. }
    replace fuel with (length tys + (fuel - length tys))%nat by lia.
    rewrite (afterToken_types tys _ s key (pre ++ dash :: [k1; k2] ++ dash :: ty)
               (renderKeywords kws ++ rest)); try assumption.
    2: { rewrite Hs'. eqapp. }
    2: { lens. lia. }
    2: { apply dashOrEnd_renderKeywords, blockEnd_dashOrEnd, Hr. }
    destruct (str_eqb [k1; k2] key) eqn:Heq.
    + replace (fuel - length tys)%nat with (S (fuel - length tys - 1)) by lia.
      rewrite (afterToken_found kws _ s key
                 (pre ++ dash :: [k1; k2] ++ dash :: ty ++ joinTokens tys) rest);
        try assumption.
      * cbn [span]. rewrite joinTokens_cons. cbn [tl]. lens. do 2 f_equal.
        f_equal; lia.
      * rewrite Hs'. eqapp.
      * lens. lia.
    + rewrite (IH _ s key (pre ++ renderKeyword ([k1; k2], ty :: tys)) rest);
        try assumption.
      * reflexivity.
      * rewrite Hs'. unfold renderKeyword. cbn [fst snd]. rewrite joinTokens_cons.
        eqapp.
      * unfold renderKeyword. cbn [fst snd]. rewrite joinTokens_cons. lens. lia.
      * lia.
Qed.

Lemma steps_joinTokens (ws : list gostring) :
  (length ws <= length (joinTokens ws))%nat.
Proof.
  induction ws as [| w ws IH]; [cbn; lia |].
  rewrite joinTokens_cons. cbn [length]. rewrite length_app. lia.
Qed.

Lemma steps_renderKeywords (kws : list keyword) :
  (keywordSteps kws <= length (renderKeywords kws))%nat.
Proof.
  induction kws as [| kw kws IH]; [cbn; lia |].
  rewrite keywordSteps_cons, renderKeywords_cons, length_app.
  unfold renderKeyword. cbn [length]. rewrite length_app.
  pose proof (steps_joinTokens (snd kw)). lia.
Qed.

(** The whole 'u' block, from the hyphen that follows the extension name. *)
Lemma scanKeys_block (attrs : list gostring) (kws : list keyword) :
  forall (fuel : nat) (s key pre rest : gostring) (p : Z),
    s = pre ++ renderExt (ExtU attrs kws) ++ rest -> p = len pre + 2 ->
    extOk (ExtU attrs kws) -> blockEnd rest -> len key = 2 ->
    (length attrs + keywordSteps kws < fuel)%nat ->
    scanKeys fuel s key p 0 [] =
    Ret (span (locateKey key (pre ++ dash :: "u"%char :: joinTokens attrs) kws rest)).
Proof.
  intros fuel s key pre rest p Hs Hp (Hattrs & Hkws & Hne) Hr Hkey Hfuel.
  assert (Hcur : str_eqb [] key = false) by (destruct key; [discriminate | reflexivity]).
  assert (Hs' : s = (pre ++ [dash; "u"%char]) ++ joinTokens attrs
                    ++ renderKeywords kws ++ rest).
  { subst s. cbn [renderExt]. eqapp. }
  assert (Hp' : p = len (pre ++ [dash; "u"%char])) by (lens; lia).
  assert (Hstart : scanKeys fuel s key p 0 [] = afterToken fuel s key p 0 []).
  { destruct attrs as [| tok attrs].
    - destruct kws as [| [k tys] kws]; [destruct Hne; congruence |].
      inversion Hkws as [| ? ? (Hk & _) _]; subst x l. cbn [fst] in Hk.
      destruct (token2_inv _ Hk) as (k1 & k2 & -> & Hk1 & Hk2).
      rewrite (afterToken_next _ s key (pre ++ [dash; "u"%char]) k1 k2
                 (joinTokens tys ++ renderKeywords kws ++ rest)).
      + now rewrite eqb_dash_false.
      + rewrite Hs'. rewrite renderKeywords_cons. unfold renderKeyword. cbn [fst snd].
        eqapp.
      + assumption.
    - inversion Hattrs as [| ? ? Htok _]; subst x l.
      destruct (token3_inv _ _ Htok) as (a & b & c & w & -> & Ha & Hb & Hc & _).
      rewrite (afterToken_next _ s key (pre ++ [dash; "u"%char]) a b
                 (c :: w ++ joinTokens attrs ++ renderKeywords kws ++ rest)).
      + now rewrite eqb_dash_false.
      + rewrite Hs'. rewrite joinTokens_cons. eqapp.
      + assumption. }
  rewrite Hstart.
  replace fuel with (length attrs + (fuel - length attrs))%nat by lia.
  rewrite (afterToken_types attrs _ s key (pre ++ [dash; "u"%char])
             (renderKeywords kws ++ rest)); try assumption.
  2: apply dashOrEnd_renderKeywords, blockEnd_dashOrEnd, Hr.
  rewrite (afterToken_keywords kws _ s key
             (pre ++ dash :: "u"%char :: joinTokens attrs) rest); try assumption.
  - reflexivity.
  - rewrite Hs'. eqapp.
  - lens. lia.
  - lia.
Qed.

(** ** From block to block *)

Lemma nextBoundary_skip (c : ascii) (r : gostring) (q : Z) :
  c <> dash -> nextBoundary (c :: r) q = nextBoundary r (q + 1).
Proof.
  intros Hc. cbn [nextBoundary]. now rewrite eqb_dash_false.
Qed.

Lemma nextBoundary_inside (a b : ascii) (r : gostring) (q : Z) :
  b <> dash -> nextBoundary (dash :: a :: b :: r) q = nextBoundary (a :: b :: r) (q + 1).
Proof.
  intros Hb. rewrite (eqb_dash_false b Hb) at 1 || idtac.
  change (nextBoundary (dash :: a :: b :: r) q)
    with (if Ascii.eqb dash dash && Ascii.eqb b dash then q
          else nextBoundary (a :: b :: r) (q + 1)).
  now rewrite (eqb_dash_false b Hb), andb_false_r.
Qed.

Lemma nextBoundary_here (c : ascii) (r : gostring) (q : Z) :
  nextBoundary (dash :: c :: dash :: r) q = q.
Proof.
  change (nextBoundary (dash :: c :: dash :: r) q)
    with (if Ascii.eqb dash dash && Ascii.eqb dash dash then q
          else nextBoundary (c :: dash :: r) (q + 1)).
  now rewrite Ascii.eqb_refl.
Qed.

Lemma nextBoundary_nodash (w : gostring) :
  forall (rest : gostring) (q : Z),
    nodash w -> nextBoundary (w ++ rest) q = nextBoundary rest (q + len w).
Proof.
  induction w as [| c w IH]; intros rest q Hn.
  - cbn. f_equal. lia.
  - inversion Hn as [| ? ? Hc Hn']; subst x l. cbn [app].
    rewrite nextBoundary_skip by assumption.
    rewrite IH by assumption. f_equal. lens. lia.
Qed.

Lemma nextBoundary_tokens (toks : list gostring) :
  forall (rest : gostring) (q : Z),
    Forall (token 2 8) toks -> blockEnd rest ->
    nextBoundary (joinTokens toks ++ rest) q = q + len (joinTokens toks).
Proof.
  induction toks as [| tok toks IH]; intros rest q Ht Hr.
  - cbn [joinTokens map concat app]. lens.
    destruct Hr as [-> | (c & r & ->)].
    + cbn. lia.
    + rewrite nextBoundary_here. lia.
  - inversion Ht as [| ? ? [Hn Hl] Ht']; subst x l.
    destruct tok as [| a [| b w]]; cbn in Hl; try lia.
    inversion Hn as [| ? ? Ha Hn1]; subst x l. inversion Hn1 as [| ? ? Hb Hn2]; subst x l.
    rewrite joinTokens_cons. cbn [app].
    rewrite nextBoundary_inside by assumption.
    rewrite !nextBoundary_skip by assumption.
    rewrite <- app_assoc. rewrite nextBoundary_nodash by assumption.
    rewrite IH by assumption. lens. lia.
Qed.

Lemma skipn_len_app (pre suf : gostring) (p : Z) :
  p = len pre -> skipn (Z.to_nat p) (pre ++ suf) = suf.
Proof.
  intros ->. unfold len. rewrite Nat2Z.id.
  replace (length pre) with (length pre + 0)%nat at 1 by lia.
  rewrite skipn_app, skipn_all2 by lia.
  replace (length pre + 0 - length pre)%nat with 0%nat by lia. reflexivity.
Qed.

Lemma nextExtension_block (s pre rest : gostring) (ty : ascii) (toks : list gostring)
      (p : Z) :
  s = pre ++ renderExt (ExtOther ty toks) ++ rest -> p = len pre + 1 ->
  ty <> dash -> toks <> [] -> Forall (token 2 8) toks -> blockEnd rest ->
  nextExtension s p = len pre + len (renderExt (ExtOther ty toks)).
Proof.
  intros Hs Hp Hty Hne Ht Hr. unfold nextExtension.
  assert (Hlen : len s = len pre + 2 + len (joinTokens toks) + len rest).
  { subst s. cbn [renderExt]. lens. lia. }
  pose proof (len_nonneg rest). pose proof (len_nonneg (joinTokens toks)).
  destruct (Z.leb_spec (len s) p); [lia |].
  replace s with ((pre ++ [dash]) ++ ty :: joinTokens toks ++ rest)
    by (subst s; cbn [renderExt]; eqapp).
  rewrite skipn_len_app by (lens; lia).
  cbn [nextBoundary]. rewrite (eqb_dash_false ty) by assumption. cbn [andb].
  rewrite nextBoundary_tokens by assumption.
  cbn [renderExt]. lens. lia.
Qed.

Lemma extOk_blockEnd (es : list ext) :
  Forall extOk es -> blockEnd (renderExts es).
Proof.
  intros H. destruct es as [| e es]; [now left |].
  inversion H as [| ? ? He _]; subst x l. right.
  destruct e as [attrs kws | ty toks]; cbn [extOk] in He.
  - destruct He as (Ha & Hk & Hne).
    destruct attrs as [| tok attrs].
    + destruct kws as [| [k tys] kws]; [destruct Hne; congruence |].
      exists "u"%char. rewrite renderExts_cons. cbn. eauto.
    + exists "u"%char. rewrite renderExts_cons. cbn. eauto.
  - destruct He as (_ & _ & Hne & _). destruct toks as [| tok toks]; [congruence |].
    exists ty. rewrite renderExts_cons. cbn. eauto.
Qed.

Lemma length_renderExts_steps (es : list ext) :
  (length es <= length (renderExts es))%nat.
Proof.
  induction es as [| e es IH]; [cbn; lia |].
  rewrite renderExts_cons, length_app. destruct e; cbn [renderExt length]; lia.
Qed.

(** The two loops of [findTypeForKey] on a suffix of the canonical layout. *)
Lemma findLoops_spec (es : list ext) :
  forall (fuel : nat) (s key pre : gostring),
    s = pre ++ renderExts es -> es <> [] -> Forall extOk es -> len key = 2 ->
    (length es <= fuel)%nat ->
    (r <- findU fuel s (len pre + 1) ;;
     match r with
     | inr early => Ret early
     | inl p => scanKeys (S (length s)) s key (p + 1) 0 []
     end) = Ret (span (locate key pre es)).
Proof.
  induction es as [| e es IH]; intros fuel s key pre Hs Hne Hok Hkey Hfuel;
    [congruence |].
  inversion Hok as [| ? ? He Hes]; subst x l.
  destruct fuel as [| fuel]; [cbn in Hfuel; lia |].
  pose proof (extOk_blockEnd es Hes) as Hend.
  rewrite renderExts_cons in Hs.
  destruct e as [attrs kws | ty toks].
  - cbn [findU]. subst s. rewrite index_app_r by lia.
    cbn [renderExt app]. rewrite index_1. cbn [bind]. rewrite Ascii.eqb_refl.
    cbn [locate].
    apply (scanKeys_block attrs kws _ _ key pre (renderExts es)); try assumption.
    + cbn [renderExt]. eqapp.
    + lia.
    + pose proof (steps_joinTokens attrs). pose proof (steps_renderKeywords kws).
      rewrite !length_app. cbn [length]. rewrite !length_app. lia.
  - cbn [findU]. destruct He as (Hty & Hnu & Htoks & Hall).
    assert (Hidx : index s (len pre + 1) = Ret ty).
    { subst s. rewrite index_app_r by lia. cbn [renderExt app]. apply index_1. }
    rewrite Hidx. cbn [bind locate].
    rewrite (proj2 (Ascii.eqb_neq ty "u"%char)) by assumption.
    destruct (byte_ltb "u" ty) eqn:Hgt.
    + cbn. do 2 f_equal. f_equal; lia.
    + assert (Hx : Ascii.eqb ty "x" = false).
      { apply Ascii.eqb_neq. intros ->. discriminate Hgt. }
      rewrite Hx in Hall.
      rewrite (nextExtension_block s pre (renderExts es) ty toks) by (assumption || lia).
      assert (Hlen : len s = len pre + len (renderExt (ExtOther ty toks))
                             + len (renderExts es)) by (subst s; lens; lia).
      destruct es as [| e' es'].
      * cbn [renderExts map concat] in Hlen. lens.
        destruct (Z.eqb_spec (len pre + len (renderExt (ExtOther ty toks))) (len s));
          [| lia].
        cbn [locate span bind]. lens. do 2 f_equal. f_equal; lia.
      * assert (0 < len (renderExts (e' :: es'))).
        { pose proof (length_renderExts_steps (e' :: es')). unfold len.
          cbn [length] in *. lia. }
        destruct (Z.eqb_spec (len pre + len (renderExt (ExtOther ty toks))) (len s));
          [lia |].
        replace (len pre + len (renderExt (ExtOther ty toks)) + 1)
          with (len (pre ++ renderExt (ExtOther ty toks)) + 1) by (lens; lia).
        apply IH; try assumption.
        -- subst s. eqapp.
        -- discriminate.
        -- cbn [length] in *. lia.
Qed.

(** ** The fuel is enough

    The loops go forward in the string and stop, with a result or with a
    panic, before its end: on the fuel that their callers give them they do
    not run out of it, whatever the string. *)

Lemma index_fuel (s : gostring) (i : Z) : index s i <> OutOfFuel.
Proof.
  unfold index. destruct (i <? 0); [discriminate |].
  destruct (nth_error s (Z.to_nat i)); discriminate.
Qed.

Lemma slice_fuel (s : gostring) (lo hi : Z) : slice s lo hi <> OutOfFuel.
Proof. unfold slice. destruct (_ && _); discriminate. Qed.

Lemma index_inside (s : gostring) (i : Z) (c : ascii) :
  index s i = Ret c -> 0 <= i < len s.
Proof.
  unfold index. destruct (Z.ltb_spec i 0); [discriminate |].
  destruct (nth_error s (Z.to_nat i)) eqn:Hn; [| discriminate]. intros _.
  assert (nth_error s (Z.to_nat i) <> None) as Hs by congruence.
  apply nth_error_Some in Hs. unfold len. lia.
Qed.

Lemma skipToDash_fuel (s : gostring) (max : Z) :
  forall (fuel : nat) (p : Z),
    (Z.to_nat (max - p) < fuel)%nat ->
    skipToDash fuel s p max <> OutOfFuel /\
    forall q, skipToDash fuel s p max = Ret q -> p <= q.
Proof.
  induction fuel as [| fuel IH]; intros p Hf; [lia |]. cbn [skipToDash].
  destruct (Z.ltb_spec p max).
  - pose proof (index_fuel s p) as Hi.
    destruct (index s p) as [c | |]; cbn [bind]; [| | contradiction].
    + destruct (Ascii.eqb c dash).
      * split; [discriminate |]. intros q [= <-]. lia.
      * destruct (IH (p + 1) ltac:(lia)) as (Hne & Hle). split; [exact Hne |].
        intros q Hq. specialize (Hle q Hq). lia.
    + split; [discriminate |]. intros q Hq. discriminate Hq.
  - split; [discriminate |]. intros q [= <-]. lia.
Qed.

Lemma nextBoundary_range (rem : gostring) :
  forall q, q <= nextBoundary rem q <= q + len rem.
Proof.
  induction rem as [| c rem IH]; intros q; cbn [nextBoundary]; lens; [lia |].
  pose proof (len_nonneg rem).
  destruct (_ && _); [lia |]. specialize (IH (q + 1)). lia.
Qed.

Lemma nextExtension_range (s : gostring) (p : Z) :
  0 <= p <= len s -> p <= nextExtension s p <= len s.
Proof.
  intros Hp. unfold nextExtension. destruct (Z.leb_spec (len s) p); [lia |].
  pose proof (nextBoundary_range (skipn (Z.to_nat p) s) p).
  unfold len in *. rewrite length_skipn in *. lia.
Qed.

Lemma findU_fuel (s : gostring) :
  forall (fuel : nat) (p : Z),
    (Z.to_nat (len s - p) < fuel)%nat -> findU fuel s p <> OutOfFuel.
Proof.
  induction fuel as [| fuel IH]; intros p Hf; [lia |]. cbn [findU].
  pose proof (index_fuel s p) as Hi.
  destruct (index s p) as [c | |] eqn:Hc; cbn [bind]; [| discriminate | contradiction].
  apply index_inside in Hc.
  destruct (Ascii.eqb c "u"); [discriminate |].
  destruct (byte_ltb "u" c); [discriminate |].
  destruct (nextExtension s p =? len s); [discriminate |].
  pose proof (nextExtension_range s p ltac:(lia)). apply IH. lia.
Qed.

Lemma findU_inside (s : gostring) :
  forall (fuel : nat) (p u : Z), findU fuel s p = Ret (inl u) -> 0 <= u < len s.
Proof.
  induction fuel as [| fuel IH]; intros p u; cbn [findU]; [discriminate |].
  destruct (index s p) as [c | |] eqn:Hc; cbn [bind]; try discriminate.
  apply index_inside in Hc.
  destruct (Ascii.eqb c "u"); [intros [= <-]; exact Hc |].
  destruct (byte_ltb "u" c); [discriminate |].
  destruct (nextExtension s p =? len s); [discriminate |]. apply IH.
Qed.

Lemma scanKeys_fuel (s key : gostring) :
  forall (fuel : nat) (p start : Z) (curKey : gostring),
    (Z.to_nat (len s - p) < fuel)%nat ->
    scanKeys fuel s key p start curKey <> OutOfFuel.
Proof.
  induction fuel as [| fuel IH]; intros p start curKey Hf; [lia |].
  rewrite scanKeys_unfold.
  assert (Hskip : forall p' start' curKey',
             p < p' -> afterSkip fuel s key p' start' curKey' <> OutOfFuel).
  { intros p' start' curKey' Hp'. unfold afterSkip.
    set (max := if len s <? p' + 5 then len s else p' + 5).
    destruct (skipToDash_fuel s max (S (Z.to_nat (max - p'))) p' ltac:(lia)) as (Hne & Hle).
    destruct (skipToDash _ s p' max) as [q | |]; cbn [bind];
      [| discriminate | contradiction].
    specialize (Hle q eq_refl). unfold afterToken.
    destruct (q =? len s); cbn [bind].
    - destruct (str_eqb curKey' key); discriminate.
    - pose proof (index_fuel s (q + 2)) as Hi.
      destruct (index s (q + 2)) as [c | |] eqn:Hc; cbn [bind];
        [| discriminate | contradiction].
      apply index_inside in Hc.
      destruct (Ascii.eqb c dash); [destruct (str_eqb curKey' key); discriminate |].
      apply IH. lia. }
  pose proof (index_fuel s (p + 3)) as Hi.
  destruct (index s (p + 3)) as [c | |]; cbn [bind]; [| discriminate | contradiction].
  destruct (Ascii.eqb c dash).
  - destruct (str_eqb curKey key); [discriminate |].
    pose proof (slice_fuel s (p + 1) (p + 3)) as Hsl.
    destruct (slice s (p + 1) (p + 3)) as [k | |]; cbn [bind];
      [| discriminate | contradiction].
    destruct (str_gtb k key); [discriminate |]. apply Hskip. lia.
  - apply Hskip. lia.
Qed.

(** [findTypeForKey] ends on every tag and every key. *)
Lemma findTypeForKey_fuel (t : Tag) (key : gostring) :
  0 <= pExt t -> findTypeForKey t key <> OutOfFuel.
Proof.
  intros Hp. unfold findTypeForKey.
  destruct (_ || _); [discriminate |].
  pose proof (findU_fuel (str t) (S (length (str t))) (pExt t + 1)) as HU.
  pose proof (findU_inside (str t) (S (length (str t))) (pExt t + 1)) as HI.
  destruct (findU _ (str t) (pExt t + 1)) as [[u | early] | |]; cbn [bind];
    try discriminate.
  - apply scanKeys_fuel. specialize (HI u eq_refl). unfold len in *. lia.
  - exfalso. apply HU; [unfold len; lia | reflexivity].
Qed.

(** ** The guard of [findTypeForKey] *)

Lemma findTypeForKey_guarded (t : Tag) (key : gostring) :
  len key <> 2 \/ pExt t = len (str t) \/ pExt t = 0 ->
  findTypeForKey t key = Ret (pExt t, pExt t, false).
Proof.
  intros H. unfold findTypeForKey.
  destruct (Z.eqb_spec (len key) 2), (Z.eqb_spec (pExt t) (len (str t))),
    (Z.eqb_spec (pExt t) 0); cbn [negb orb]; try reflexivity.
  lia.
Qed.

(** ** [findTypeForKey] and [TypeForKey] on the canonical layout *)

Lemma locateKey_app (key : gostring) (kws : list keyword) :
  forall (acc rest : gostring),
    Forall keywordOk kws ->
    let '(x, y, z, _) := locateKey key acc kws rest in
    x ++ y ++ z = acc ++ renderKeywords kws ++ rest.
Proof.
  induction kws as [| kw kws IH]; intros acc rest Hok; cbn [locateKey].
  - reflexivity.
  - inversion Hok as [| ? ? (_ & Hne & _) Hok']; subst x l.
    destruct (str_eqb (fst kw) key).
    + rewrite renderKeywords_cons. unfold renderKeyword.
      destruct (snd kw) as [| ty tys]; [congruence |].
      rewrite joinTokens_cons. cbn [tl]. eqapp.
    + destruct (str_gtb (fst kw) key); [reflexivity |].
      specialize (IH (acc ++ renderKeyword kw) rest Hok').
      destruct (locateKey key (acc ++ renderKeyword kw) kws rest) as [[[x y] z] h].
      rewrite IH, renderKeywords_cons. eqapp.
Qed.

Lemma locate_app (key : gostring) (es : list ext) :
  forall (acc : gostring),
    Forall extOk es ->
    let '(x, y, z, _) := locate key acc es in
    x ++ y ++ z = acc ++ renderExts es.
Proof.
  induction es as [| e es IH]; intros acc Hok; cbn [locate].
  - reflexivity.
  - inversion Hok as [| ? ? He Hok']; subst x l.
    destruct e as [attrs kws | ty toks].
    + destruct He as (_ & Hk & _).
      pose proof (locateKey_app key kws (acc ++ dash :: "u"%char :: joinTokens attrs)
                    (renderExts es) Hk) as H.
      destruct (locateKey key _ kws (renderExts es)) as [[[x y] z] h].
      rewrite H, renderExts_cons. cbn [renderExt]. eqapp.
    + destruct (byte_ltb "u" ty); [reflexivity |].
      specialize (IH (acc ++ renderExt (ExtOther ty toks)) Hok').
      destruct (locate key _ es) as [[[x y] z] h].
      rewrite IH, renderExts_cons. eqapp.
Qed.

(** On a tag whose string is a prefix followed by well-formed extension
    blocks, with [pExt] at the end of the prefix, [findTypeForKey] returns
    the positions of the split that [locate] computes. *)
Lemma findTypeForKey_layout (t : Tag) (key pre : gostring) (es : list ext) :
  str t = pre ++ renderExts es -> pExt t = len pre -> 0 < len pre ->
  Forall extOk es -> len key = 2 ->
  findTypeForKey t key = Ret (span (locate key pre es)).
Proof.
  intros Hs Hp Hpre Hok Hkey. unfold findTypeForKey.
  rewrite Hkey, Hp. cbn [Z.eqb Pos.eqb negb orb].
  destruct (Z.eqb_spec (len pre) 0); [lia |]. rewrite orb_false_r.
  destruct es as [| e es].
  - rewrite Hs. cbn [renderExts map concat]. rewrite app_nil_r, Z.eqb_refl.
    cbn. do 2 f_equal. f_equal; lia.
  - assert (0 < len (renderExts (e :: es))).
    { pose proof (length_renderExts_steps (e :: es)). unfold len. cbn [length] in *. lia. }
    destruct (Z.eqb_spec (len pre) (len (str t))); [rewrite Hs in *; lens; lia |].
    apply findLoops_spec; try assumption; try discriminate.
    pose proof (length_renderExts_steps (e :: es)).
    rewrite Hs, length_app. lia.
Qed.

Lemma TypeForKey_layout (t : Tag) (key pre : gostring) (es : list ext) :
  str t = pre ++ renderExts es -> pExt t = len pre -> 0 < len pre ->
  Forall extOk es -> len key = 2 ->
  TypeForKey t key = Ret (snd (fst (fst (locate key pre es)))).
Proof.
  intros Hs Hp Hpre Hok Hkey. unfold TypeForKey.
  rewrite (findTypeForKey_layout t key pre es) by assumption.
  pose proof (locate_app key es pre Hok) as Happ.
  destruct (locate key pre es) as [[[x y] z] h]. cbn [span bind fst snd].
  pose proof (len_nonneg y).
  destruct (Z.eqb_spec (len x + len y) (len x)) as [Heq | Hne]; cbn [negb].
  - f_equal. symmetry. apply len_zero. lia.
  - rewrite Hs, <- Happ. now apply slice_mid.
Qed.

(** ** The scratch buffer *)

Lemma firstn_len_app (w r : gostring) (n : Z) :
  n = len w -> firstn (Z.to_nat n) (w ++ r) = w.
Proof.
  intros ->. unfold len. rewrite Nat2Z.id.
  replace (length w) with (length w + 0)%nat at 1 by lia.
  rewrite firstn_app_2. cbn [firstn]. apply app_nil_r.
Qed.

Lemma len_repeat (n : nat) : len (repeat zero n) = Z.of_nat n.
Proof. unfold len. now rewrite repeat_length. Qed.

Lemma skipn_repeat (k n : nat) :
  (k <= n)%nat -> skipn k (repeat zero n) = repeat zero (n - k).
Proof.
  revert n. induction k as [| k IH]; intros n Hk.
  - now rewrite Nat.sub_0_r.
  - destruct n as [| n]; [lia |]. cbn [repeat skipn]. rewrite IH by lia. reflexivity.
Qed.

Lemma firstn_len (w : gostring) : firstn (Z.to_nat (len w)) w = w.
Proof. unfold len. rewrite Nat2Z.id. apply firstn_all. Qed.

Lemma skipn_len_plus (w r : gostring) (k : nat) (n : Z) :
  n = len w + Z.of_nat k -> skipn (Z.to_nat n) (w ++ r) = skipn k r.
Proof.
  intros ->. unfold len.
  replace (Z.to_nat (Z.of_nat (length w) + Z.of_nat k)) with (length w + k)%nat by lia.
  rewrite skipn_app, skipn_all2 by lia.
  replace (length w + k - length w)%nat with k by lia. reflexivity.
Qed.

(** A copy into the unused part of the buffer, when there is room. *)
Lemma copyAt_buffer (w src : gostring) (n : nat) (off : Z) :
  off = len w -> (length src <= n)%nat ->
  copyAt (w ++ repeat zero n) off src
  = Ret (len src, (w ++ src) ++ repeat zero (n - length src)).
Proof.
  intros -> Hn. unfold copyAt. rewrite len_app, len_repeat.
  pose proof (len_nonneg w). pose proof (len_nonneg src).
  assert (Hs : len src <= Z.of_nat n) by (unfold len; lia).
  destruct (Z.leb_spec 0 (len w)); [| lia].
  destruct (Z.leb_spec (len w) (len w + Z.of_nat n)); [| lia].
  cbn [andb].
  replace (Z.min (len src) (len w + Z.of_nat n - len w)) with (len src) by lia.
  rewrite firstn_len_app by reflexivity. rewrite firstn_len.
  rewrite (skipn_len_plus w _ (length src)) by reflexivity.
  rewrite skipn_repeat by lia. now rewrite <- app_assoc.
Qed.

Lemma copyAt_fresh (src : gostring) (n : nat) :
  (length src <= n)%nat ->
  copyAt (repeat zero n) 0 src = Ret (len src, src ++ repeat zero (n - length src)).
Proof. intros Hn. exact (copyAt_buffer [] src n 0 eq_refl Hn). Qed.

Lemma storeAt_buffer (w : gostring) (n : nat) (i : Z) (c : ascii) :
  i = len w -> (1 <= n)%nat ->
  storeAt (w ++ repeat zero n) i c = Ret ((w ++ [c]) ++ repeat zero (n - 1)).
Proof.
  intros -> Hn. unfold storeAt. rewrite len_app, len_repeat.
  pose proof (len_nonneg w).
  destruct (Z.leb_spec 0 (len w)); [| lia].
  destruct (Z.ltb_spec (len w) (len w + Z.of_nat n)); [| lia].
  cbn [andb]. rewrite firstn_len_app by reflexivity.
  rewrite (skipn_len_plus w _ 1) by reflexivity.
  rewrite skipn_repeat by lia. now rewrite <- app_assoc.
Qed.

Lemma length_coreString (T : IdentifierTables) (t : Tag) :
  codesOk T -> (2 <= length (coreString T t) <= 12)%nat.
Proof.
  intros (Hl & Hs & Hr). unfold coreString. rewrite !length_app.
  specialize (Hl (lang t)). specialize (Hs (script t)). specialize (Hr (region t)).
  destruct (script t =? 0), (region t =? 0); cbn [length]; lia.
Qed.

Lemma buffer_eq (w1 w2 : gostring) (k1 k2 : nat) :
  w1 = w2 -> k1 = k2 -> w1 ++ repeat zero k1 = w2 ++ repeat zero k2.
Proof. now intros -> ->. Qed.

Ltac buf_side :=
  first [ solve [lens; lia]
        | solve [rewrite ?length_app; cbn [length]; lia]
        | solve [unfold len; rewrite ?length_app; cbn [length]; lia] ].

Ltac copy_step := rewrite copyAt_buffer by buf_side; cbn [bind snd].

Ltac store_step := rewrite storeAt_buffer by buf_side; cbn [bind snd].

Lemma genCoreBytes_buffer (T : IdentifierTables) (t : Tag) (n : nat) :
  codesOk T -> (12 <= n)%nat ->
  genCoreBytes T t (repeat zero n)
  = Ret (len (coreString T t),
         coreString T t ++ repeat zero (n - length (coreString T t))).
Proof.
  intros Hok Hn. pose proof (length_coreString T t Hok) as Hcore.
  destruct Hok as (Hl & Hs & Hr).
  specialize (Hl (lang t)). specialize (Hs (script t)). specialize (Hr (region t)).
  unfold genCoreBytes, coreString in *. rewrite !length_app in Hcore.
  rewrite copyAt_fresh by lia. cbn [bind].
  destruct (script t =? 0), (region t =? 0); cbn [negb bind length] in *;
    repeat copy_step; f_equal; f_equal;
    try (lens; lia);
    try (apply buffer_eq; [eqapp | rewrite ?length_app; cbn [length]; lia]);
    now rewrite ?app_nil_r.
Qed.

Lemma isEmpty_len (s : gostring) : isEmpty s = (len s =? 0).
Proof.
  destruct s; [reflexivity |]. rewrite len_cons. pose proof (len_nonneg s).
  cbn [isEmpty]. symmetry. apply Z.eqb_neq. lia.
Qed.

(** [SetTypeForKey] with a value to set, once the fragment is in the buffer. *)
Lemma SetTypeForKey_build (T : IdentifierTables) (t : Tag) (key value : gostring) :
  codesOk T -> private t = false -> len key = 2 -> 3 <= len value <= 8 ->
  SetTypeForKey T t key value =
  let '(b, err) := parseExtensions T (fragment key value) in
  match err with
  | Some e => Ret (t, Some e)
  | None =>
      if isEmpty (str t) then
        Ret (mkTag (lang t) (region t) (script t)
                   (len (coreString T t) mod 256) (len (coreString T t) mod 65536)
                   ((coreString T t ++ [dash]) ++ b), None)
      else
        r <- findTypeForKey t key ;;
        let '(start, end_, hasExt) := r in
        a <- sliceTo (str t) start ;;
        c <- sliceFrom (str t) end_ ;;
        if start =? end_ then
          b <- (if (hasExt : bool) then sliceFrom b 2 else Ret b) ;;
          Ret (withStr t (a ++ dash :: b ++ c), None)
        else Ret (withStr t (a ++ value ++ c), None)
  end.
Proof.
  intros Hok Hpriv Hkey Hval. unfold SetTypeForKey.
  rewrite Hpriv, Hkey. cbn [Z.eqb Pos.eqb negb].
  rewrite (isEmpty_len value).
  destruct (Z.eqb_spec (len value) 0); [lia |].
  destruct (Z.ltb_spec (len value) 3); [lia |].
  destruct (Z.ltb_spec 8 (len value)); [lia |]. cbn [orb].
  pose proof (length_coreString T t Hok) as Hcore.
  assert (Hk : length key = 2%nat) by (unfold len in Hkey; lia).
  assert (Hv : (length value <= 8)%nat) by (unfold len in Hval; lia).
  unfold newBuf, maxCoreSize, maxSimpleUExtensionSize, fragment.
  change (Z.to_nat (12 + 14)) with 26%nat.
  change (lit "u-") with ["u"%char; dash].
  destruct (isEmpty (str t)).
  - rewrite genCoreBytes_buffer by (assumption || lia). cbn [bind].
    remember (coreString T t) as core eqn:Ecore. clear Ecore.
    store_step. repeat copy_step. store_step. copy_step.
    remember (["u"%char; dash] ++ key ++ dash :: value) as frag eqn:Efrag.
    assert (Hfrag : len frag = 5 + len value) by (subst frag; lens; lia).
    replace ((((((core ++ [dash]) ++ ["u"%char; dash]) ++ key) ++ [dash]) ++ value))
      with ((core ++ [dash]) ++ frag) by (subst frag; eqapp).
    rewrite <- (app_assoc (core ++ [dash]) frag).
    rewrite slice_mid by (lens; lia).
    cbn [bind].
    destruct (parseExtensions T _) as [b [e |]]; [reflexivity |].
    rewrite sliceTo_app by (lens; lia). cbn [bind].
    do 3 f_equal; f_equal; lens; lia.
  - cbn [bind].
    rewrite copyAt_fresh by (cbn; lia). cbn [bind snd].
    copy_step. store_step. copy_step.
    remember (["u"%char; dash] ++ key ++ dash :: value) as frag eqn:Efrag.
    assert (Hfrag : len frag = 5 + len value) by (subst frag; lens; lia).
    replace (((["u"%char; dash] ++ key) ++ [dash]) ++ value)
      with frag by (subst frag; eqapp).
    rewrite slice_prefix by (lens; lia).
    cbn [bind].
    destruct (parseExtensions T _) as [b [e |]]; reflexivity.
Qed.

(** ** Setting a key, on the layout *)

Lemma locateKey_hasExt (key : gostring) (kws : list keyword) :
  forall (acc rest : gostring), snd (locateKey key acc kws rest) = true.
Proof.
  induction kws as [| kw kws IH]; intros acc rest; cbn [locateKey]; [reflexivity |].
  destruct (str_eqb (fst kw) key); [reflexivity |].
  destruct (str_gtb (fst kw) key); [reflexivity | apply IH].
Qed.

Lemma isEmpty_type (tys : list gostring) :
  tys <> [] -> Forall (token 3 8) tys -> isEmpty (tl (joinTokens tys)) = false.
Proof.
  intros Hne Ht. destruct tys as [| ty tys]; [congruence |].
  inversion Ht as [| ? ? Hty _]; subst x l.
  destruct (token3_inv _ _ Hty) as (a & b & c & w & -> & _). reflexivity.
Qed.

Lemma setKeyword_render (key : gostring) (comps : list gostring) (kws : list keyword) :
  forall (acc rest : gostring),
    comps <> [] -> Forall keywordOk kws ->
    let '(x, y, z, _) := locateKey key acc kws rest in
    acc ++ renderKeywords (setKeyword (key, comps) kws) ++ rest
    = if isEmpty y then x ++ renderKeyword (key, comps) ++ z
      else x ++ tl (joinTokens comps) ++ z.
Proof.
  induction kws as [| kw kws IH]; intros acc rest Hc Hok; cbn [locateKey setKeyword fst].
  - cbn [isEmpty]. rewrite renderKeywords_cons. eqapp.
  - inversion Hok as [| ? ? (_ & Hne & Hty) Hok']; subst x l.
    destruct (str_eqb (fst kw) key) eqn:Heq.
    + rewrite isEmpty_type by assumption. apply str_eqb_eq in Heq.
      rewrite renderKeywords_cons. unfold renderKeyword. cbn [fst snd]. rewrite Heq.
      destruct comps as [| c comps]; [congruence |]. rewrite joinTokens_cons.
      cbn [tl]. eqapp.
    + destruct (str_gtb (fst kw) key).
      * cbn [isEmpty]. rewrite !renderKeywords_cons. eqapp.
      * specialize (IH (acc ++ renderKeyword kw) rest Hc Hok').
        destruct (locateKey key (acc ++ renderKeyword kw) kws rest) as [[[x y] z] h].
        rewrite <- IH, renderKeywords_cons. eqapp.
Qed.

Lemma setKeyword_found (key : gostring) (comps : list gostring) (kws : list keyword) :
  forall (acc rest : gostring),
    snd (fst (fst (locateKey key acc (setKeyword (key, comps) kws) rest)))
    = tl (joinTokens comps).
Proof.
  induction kws as [| kw kws IH]; intros acc rest; cbn [setKeyword fst].
  - cbn [locateKey fst snd]. now rewrite str_eqb_refl.
  - destruct (str_eqb (fst kw) key) eqn:Heq.
    + cbn [locateKey fst snd]. now rewrite str_eqb_refl.
    + destruct (str_gtb (fst kw) key) eqn:Hgt.
      * cbn [locateKey fst snd]. now rewrite str_eqb_refl.
      * cbn [locateKey]. rewrite Heq, Hgt. apply IH.
Qed.

Lemma setKeyword_ok (kw : keyword) (kws : list keyword) :
  keywordOk kw -> Forall keywordOk kws -> Forall keywordOk (setKeyword kw kws).
Proof.
  intros Hkw. induction kws as [| kw' kws IH]; intros Hok; cbn [setKeyword].
  - now constructor.
  - inversion Hok; subst.
    destruct (str_eqb (fst kw') (fst kw)); [now constructor |].
    destruct (str_gtb (fst kw') (fst kw)); [now constructor |].
    constructor; auto.
Qed.

Lemma setKeyword_nonempty (kw : keyword) (kws : list keyword) : setKeyword kw kws <> [].
Proof.
  destruct kws as [| kw' kws]; cbn [setKeyword]; [discriminate |].
  destruct (str_eqb (fst kw') (fst kw)); [discriminate |].
  destruct (str_gtb (fst kw') (fst kw)); discriminate.
Qed.

Lemma extOk_single (kw : keyword) : keywordOk kw -> extOk (ExtU [] [kw]).
Proof.
  intros Hkw. cbn [extOk]. repeat split; auto. right. discriminate.
Qed.

Lemma setKey_ok (kw : keyword) (es : list ext) :
  keywordOk kw -> Forall extOk es -> Forall extOk (setKey kw es).
Proof.
  intros Hkw. induction es as [| e es IH]; intros Hok; cbn [setKey].
  - constructor; [now apply extOk_single | constructor].
  - inversion Hok as [| ? ? He Hok']; subst x l.
    destruct e as [attrs kws | ty toks].
    + constructor; [| assumption]. destruct He as (Ha & Hk & _). cbn [extOk].
      repeat split; [assumption | now apply setKeyword_ok |].
      right. apply setKeyword_nonempty.
    + destruct (byte_ltb "u" ty).
      * constructor; [now apply extOk_single | assumption].
      * constructor; auto.
Qed.

Lemma renderExt_single (key value : gostring) (comps : list gostring) :
  joinTokens comps = dash :: value ->
  renderExt (ExtU [] [(key, comps) : keyword]) = dash :: fragment key value.
Proof.
  intros Hj. cbn [renderExt joinTokens map concat app]. rewrite renderKeywords_cons.
  unfold renderKeyword, fragment. cbn [fst snd]. rewrite Hj.
  change (renderKeywords []) with (@nil ascii).
  change (lit "u-") with ["u"%char; dash]. rewrite app_nil_r. eqapp.
Qed.

Lemma setKey_render (key value : gostring) (comps : list gostring) (es : list ext) :
  forall (acc : gostring),
    joinTokens comps = dash :: value -> Forall extOk es ->
    let '(x, y, z, h) := locate key acc es in
    acc ++ renderExts (setKey (key, comps) es)
    = if isEmpty y
      then x ++ dash :: (if (h : bool) then key ++ dash :: value else fragment key value) ++ z
      else x ++ value ++ z.
Proof.
  intros acc Hj. revert acc.
  induction es as [| e es IH]; intros acc Hok; cbn [locate setKey].
  - cbn [isEmpty]. rewrite renderExts_cons, (renderExt_single key value comps Hj). eqapp.
  - inversion Hok as [| ? ? He Hok']; subst x l.
    destruct e as [attrs kws | ty toks].
    + destruct He as (_ & Hk & _).
      assert (Hc : comps <> []) by (intros ->; discriminate Hj).
      pose proof (setKeyword_render key comps kws
                    (acc ++ dash :: "u"%char :: joinTokens attrs) (renderExts es) Hc Hk)
        as H.
      pose proof (locateKey_hasExt key kws
                    (acc ++ dash :: "u"%char :: joinTokens attrs) (renderExts es)) as Hh.
      destruct (locateKey key _ kws (renderExts es)) as [[[x y] z] h].
      cbn [snd] in Hh. subst h.
      rewrite renderExts_cons. cbn [renderExt].
      transitivity ((acc ++ dash :: "u"%char :: joinTokens attrs)
                      ++ renderKeywords (setKeyword (key, comps) kws) ++ renderExts es);
        [eqapp |].
      rewrite H. unfold renderKeyword. cbn [fst snd]. rewrite Hj. cbn [tl].
      destruct (isEmpty y); eqapp.
    + destruct (byte_ltb "u" ty).
      * cbn [isEmpty]. rewrite renderExts_cons, (renderExt_single key value comps Hj).
        eqapp.
      * specialize (IH (acc ++ renderExt (ExtOther ty toks)) Hok').
        destruct (locate key _ es) as [[[x y] z] h].
        rewrite <- IH, renderExts_cons. eqapp.
Qed.

Lemma setKey_found (key : gostring) (comps : list gostring) (es : list ext) :
  forall (acc : gostring),
    snd (fst (fst (locate key acc (setKey (key, comps) es)))) = tl (joinTokens comps).
Proof.
  induction es as [| e es IH]; intros acc; cbn [setKey].
  - cbn [locate locateKey fst snd]. now rewrite str_eqb_refl.
  - destruct e as [attrs kws | ty toks].
    + cbn [locate]. apply setKeyword_found.
    + destruct (byte_ltb "u" ty) eqn:Hgt.
      * cbn [locate locateKey fst snd]. now rewrite str_eqb_refl.
      * cbn [locate]. rewrite Hgt. apply IH.
Qed.

Lemma len_key (key : gostring) : token 2 2 key -> len key = 2.
Proof. intros [_ Hl]. unfold len. lia. Qed.

Lemma SetTypeForKey_layout (T : IdentifierTables) (t : Tag) (key value pre : gostring)
      (comps : list gostring) (es : list ext) :
  codesOk T -> private t = false ->
  str t = pre ++ renderExts es -> str t <> [] -> pExt t = len pre -> 0 < len pre ->
  Forall extOk es ->
  token 2 2 key -> 3 <= len value <= 8 -> joinTokens comps = dash :: value ->
  parseExtensions T (fragment key value) = (fragment key value, None) ->
  SetTypeForKey T t key value
  = Ret (withStr t (pre ++ renderExts (setKey (key, comps) es)), None).
Proof.
  intros Hcodes Hpriv Hs Hne Hp Hpre Hok Hkey Hval Hj Hparse.
  pose proof (len_key key Hkey) as Hlk.
  rewrite SetTypeForKey_build by assumption. rewrite Hparse.
  destruct (str t) as [| c0 s0] eqn:Hstr; [congruence |]. cbn [isEmpty].
  rewrite <- Hstr in *.
  rewrite (findTypeForKey_layout t key pre es) by assumption.
  pose proof (locate_app key es pre Hok) as Happ.
  pose proof (setKey_render key value comps es pre Hj Hok) as Hrender.
  destruct (locate key pre es) as [[[x y] z] h]. cbn [span bind].
  rewrite Hs, <- Happ.
  rewrite sliceTo_app by reflexivity. cbn [bind].
  rewrite app_assoc, sliceFrom_app by (lens; lia). cbn [bind].
  rewrite Hrender, isEmpty_len.
  pose proof (len_nonneg y).
  destruct (Z.eqb_spec (len x) (len x + len y)), (Z.eqb_spec (len y) 0); try lia.
  - destruct h; cbn [bind].
    + unfold fragment. change (lit "u-") with ["u"%char; dash].
      rewrite sliceFrom_app by reflexivity. reflexivity.
    + reflexivity.
  - reflexivity.
Qed.

Lemma SetTypeForKey_fresh (T : IdentifierTables) (t : Tag) (key value : gostring)
      (comps : list gostring) :
  codesOk T -> str t = [] ->
  token 2 2 key -> 3 <= len value <= 8 -> joinTokens comps = dash :: value ->
  parseExtensions T (fragment key value) = (fragment key value, None) ->
  SetTypeForKey T t key value
  = Ret (mkTag (lang t) (region t) (script t)
               (len (coreString T t)) (len (coreString T t))
               (coreString T t ++ renderExts [ExtU [] [(key, comps) : keyword]]), None).
Proof.
  intros Hcodes Hs Hkey Hval Hj Hparse.
  pose proof (len_key key Hkey) as Hlk.
  assert (Hpriv : private t = false) by (unfold private; now rewrite Hs).
  rewrite SetTypeForKey_build by assumption. rewrite Hparse, Hs. cbn [isEmpty].
  pose proof (length_coreString T t Hcodes) as Hcore.
  rewrite !Z.mod_small by (unfold len; lia).
  rewrite renderExts_cons, (renderExt_single key value comps Hj).
  do 3 f_equal. change (renderExts []) with (@nil ascii). rewrite app_nil_r. eqapp.
Qed.

(** What [validTag] says of the suffix, as [findTypeForKey] needs it. *)
Lemma validTag_layout (T : IdentifierTables) (t : Tag) :
  validTag T t -> private t = false -> str t <> [] ->
  exists pre es,
    str t = pre ++ renderExts es /\ pExt t = len pre /\ 0 < len pre /\ Forall extOk es.
Proof.
  intros [Hs _ _ | toks Hs _ _ Hv _
         | variants es (Hs & Hv & He & Hpos & _ & _ & _ & Hok & _ & _)] Hpriv Hne.
  - congruence.
  - unfold private in Hpriv. rewrite Hs, Hv in Hpriv. discriminate.
  - exists (coreString T t ++ joinTokens variants), es.
    repeat split; try assumption.
    + rewrite Hs. eqapp.
    + lens. lia.
    + lens. pose proof (len_nonneg (joinTokens variants)). lia.
Qed.

(** ** The sample tables and tags *)

Lemma codesOk_sample : codesOk sampleTables.
Proof.
  unfold codesOk. split; [| split]; intros x;
    cbn [sampleTables langString scriptString regionString];
    unfold sampleLang, sampleScript, sampleRegion;
    repeat match goal with |- context [if ?c then _ else _] => destruct c end;
    cbn; lia.
Defined.

Lemma scannerInPlace_sample : scannerInPlace sampleTables.
Proof.
  intros b. cbn [sampleTables parseExtensions]. unfold sampleScanner.
  now destruct (forallb _ b).
Defined.

Ltac tokens :=
  repeat match goal with
         | |- Forall _ _ => constructor
         | |- StronglySorted _ _ => constructor
         | |- extOk _ => cbn [extOk]
         | |- extSorted _ => cbn [extSorted]
         | |- keywordOk _ => unfold keywordOk; cbn [fst snd]
         | |- token _ _ _ => split
         | |- nodash _ => unfold nodash
         | |- _ /\ _ => split
         | |- True => exact I
         | |- (_ <= _)%nat => cbn; lia
         | |- _ <> _ => discriminate
         | |- _ \/ _ => first [left; discriminate | right; discriminate]
         | |- _ = true => reflexivity
         | |- context [if Ascii.eqb ?a ?b then _ else _] =>
             let v := eval vm_compute in (Ascii.eqb a b) in
             change (Ascii.eqb a b) with v; cbv iota
         end.

Ltac sample_suffix :=
  unfold hasSuffix;
  split; [reflexivity |]; split; [reflexivity |]; split; [reflexivity |];
  split; [cbn; lia |]; split; [cbn; lia |]; tokens.

Lemma hasSuffix_enPhonebk :
  hasSuffix sampleTables enPhonebk [] [ExtU [] [(lit "co", [lit "phonebk"])]].
Proof. sample_suffix. Defined.

Lemma validTag_enPhonebk : validTag sampleTables enPhonebk.
Proof. exact (validSuffix _ _ _ _ hasSuffix_enPhonebk). Defined.

Lemma validTag_privateAbc : validTag sampleTables privateAbc.
Proof.
  apply (validPrivate sampleTables privateAbc [lit "abc"]); try reflexivity.
  - discriminate.
  - tokens.
Defined.

Lemma typeOk_single (value : gostring) : token 3 8 value -> typeOk value.
Proof.
  intros H. exists [value]. repeat split.
  - discriminate.
  - constructor; [exact H | constructor].
  - cbn. now rewrite app_nil_r.
Defined.

(** * The claims *)

(** ** C1 *)

(** C1, as amended.  For every valid tag that is not a private use tag,
    every key of two bytes other than the dash and every value of three to
    eight bytes that is a type, when the scanner accepts the fragment
    [u-<key>-<value>] and leaves it as it is, [SetTypeForKey] returns a tag
    and no error, and [TypeForKey] of that tag at the key is the value. *)
Theorem TypeForKey_SetTypeForKey (T : IdentifierTables) (t : Tag) (key value : gostring) :
  codesOk T -> validTag T t -> private t = false ->
  token 2 2 key -> 3 <= len value <= 8 -> typeOk value ->
  parseExtensions T (fragment key value) = (fragment key value, None) ->
  exists t', SetTypeForKey T t key value = Ret (t', None) /\
             TypeForKey t' key = Ret value.
Proof.
  intros Hcodes Hvalid Hpriv Hkey Hval (comps & Hne & Hcomps & Hj) Hparse.
  assert (Hkw : keywordOk (key, comps)).
  { unfold keywordOk. cbn [fst snd]. auto. }
  assert (Hv : tl (joinTokens comps) = value) by now rewrite Hj.
  destruct (str t) as [| c0 s0] eqn:Hstr.
  - eexists. split.
    + apply (SetTypeForKey_fresh T t key value comps); assumption.
    + pose proof (length_coreString T t Hcodes) as Hcore.
      erewrite (TypeForKey_layout _ key (coreString T t) (setKey (key, comps) []));
        try reflexivity.
      * now rewrite setKey_found, Hv.
      * unfold len. lia.
      * apply setKey_ok; [assumption | constructor].
      * now apply len_key.
  - destruct (validTag_layout T t Hvalid Hpriv) as (pre & es & Hs & Hp & Hpre & Hok);
      [rewrite Hstr; discriminate |].
    eexists. split.
    + apply (SetTypeForKey_layout T t key value pre comps es); try assumption.
      rewrite Hstr. discriminate.
    + erewrite (TypeForKey_layout _ key pre (setKey (key, comps) es));
        try reflexivity; try assumption.
      * now rewrite setKey_found, Hv.
      * now apply setKey_ok.
      * now apply len_key.
Qed.

Lemma TypeForKey_SetTypeForKey_witness :
  exists t', SetTypeForKey sampleTables enPhonebk (lit "co") (lit "pinyin") = Ret (t', None) /\
             TypeForKey t' (lit "co") = Ret (lit "pinyin").
Proof.
  apply (TypeForKey_SetTypeForKey sampleTables enPhonebk (lit "co") (lit "pinyin")).
  - exact codesOk_sample.
  - exact validTag_enPhonebk.
  - reflexivity.
  - tokens.
  - cbn. lia.
  - apply typeOk_single. tokens.
  - reflexivity.
Defined.

(** C1 as stated fails: a private use tag is a valid tag, [SetTypeForKey]
    returns it as it is with the private use error, and it has no type for
    the key; and a value of three bytes that the scanner rejects is not
    set. *)
Lemma TypeForKey_SetTypeForKey_counterexample :
  (validTag sampleTables privateAbc /\
   SetTypeForKey sampleTables privateAbc (lit "co") (lit "phonebk")
   = Ret (privateAbc, Some errPrivateUse) /\
   TypeForKey privateAbc (lit "co") = Ret [] /\
   TypeForKey privateAbc (lit "co") <> Ret (lit "phonebk")) /\
  (validTag sampleTables enPhonebk /\
   SetTypeForKey sampleTables enPhonebk (lit "nu") (lit "a!c")
   = Ret (enPhonebk, Some errSyntax) /\
   TypeForKey enPhonebk (lit "nu") <> Ret (lit "a!c")).
Proof.
  split; [split; [exact validTag_privateAbc |] | split; [exact validTag_enPhonebk |]];
    repeat split; try reflexivity; discriminate.
Qed.

(** ** C2 *)

Ltac run_inv H :=
  repeat (cbn [bind] in H;
          match type of H with
          | Ret _ = Ret _ => fail 1
          | Panic = _ => discriminate H
          | OutOfFuel = _ => discriminate H
          | context [bind ?m _] => destruct m as [? | |] eqn:?
          | context [let '(_, _) := ?x in _] => destruct x
          | context [if ?c then _ else _] => destruct c eqn:?
          | context [match ?x with Some _ => _ | None => _ end] => destruct x eqn:?
          end).

(** C2.  Whenever [SetTypeForKey] returns an error, the tag that it returns
    is its input, every field unchanged. *)
Theorem SetTypeForKey_error_unchanged (T : IdentifierTables) (t : Tag)
        (key value : gostring) (t' : Tag) (e : error) :
  SetTypeForKey T t key value = Ret (t', Some e) -> t' = t.
Proof.
  intros H. unfold SetTypeForKey in H.
  run_inv H; inversion H; subst; reflexivity.
Qed.

Lemma SetTypeForKey_error_unchanged_witness :
  SetTypeForKey sampleTables enPhonebk (lit "nu") (lit "a!c")
  = Ret (enPhonebk, Some errSyntax) /\ enPhonebk = enPhonebk.
Proof.
  split; [reflexivity |].
  apply (SetTypeForKey_error_unchanged sampleTables enPhonebk (lit "nu") (lit "a!c")
           enPhonebk errSyntax).
  reflexivity.
Defined.

(** ** C7 *)

(** C7, as amended.  [SetTypeForKey] fails with the private use error
    whenever the tag consists solely of a private use tag; on any other tag
    it fails with the invalid arguments error whenever the key is not of two
    bytes, or the value is not empty and its length is outside of 3..8. *)
Theorem SetTypeForKey_argument_errors (T : IdentifierTables) (t : Tag)
        (key value : gostring) :
  (private t = true -> SetTypeForKey T t key value = Ret (t, Some errPrivateUse)) /\
  (private t = false ->
   len key <> 2 \/ (value <> [] /\ (len value < 3 \/ 8 < len value)) ->
   SetTypeForKey T t key value = Ret (t, Some errInvalidArguments)).
Proof.
  split.
  - intros Hp. unfold SetTypeForKey. now rewrite Hp.
  - intros Hp Hbad. unfold SetTypeForKey. rewrite Hp.
    destruct (Z.eqb_spec (len key) 2) as [Hk | Hk]; cbn [negb]; [| reflexivity].
    destruct Hbad as [Hbad | (Hne & Hbad)]; [contradiction |].
    destruct value as [| c value]; [congruence |]. cbn [isEmpty].
    destruct (Z.ltb_spec (len (c :: value)) 3), (Z.ltb_spec 8 (len (c :: value)));
      cbn [orb]; try reflexivity.
    lia.
Qed.

Lemma SetTypeForKey_argument_errors_witness :
  SetTypeForKey sampleTables privateAbc (lit "co") (lit "phonebk")
  = Ret (privateAbc, Some errPrivateUse) /\
  SetTypeForKey sampleTables enPhonebk (lit "c") (lit "phonebk")
  = Ret (enPhonebk, Some errInvalidArguments) /\
  SetTypeForKey sampleTables enPhonebk (lit "co") (lit "ab")
  = Ret (enPhonebk, Some errInvalidArguments).
Proof.
  split; [| split].
  - apply (SetTypeForKey_argument_errors sampleTables privateAbc (lit "co") (lit "phonebk")).
    reflexivity.
  - apply (SetTypeForKey_argument_errors sampleTables enPhonebk (lit "c") (lit "phonebk")).
    + reflexivity.
    + left. cbn. lia.
  - apply (SetTypeForKey_argument_errors sampleTables enPhonebk (lit "co") (lit "ab")).
    + reflexivity.
    + right. split; [discriminate | left; cbn; lia].
Defined.

(** C7 as stated fails: on a private use tag a key of one byte gives the
    private use error, not the invalid arguments error. *)
Lemma SetTypeForKey_argument_errors_counterexample :
  private privateAbc = true /\ len (lit "c") <> 2 /\
  SetTypeForKey sampleTables privateAbc (lit "c") (lit "phonebk")
  = Ret (privateAbc, Some errPrivateUse) /\
  SetTypeForKey sampleTables privateAbc (lit "c") (lit "phonebk")
  <> Ret (privateAbc, Some errInvalidArguments).
Proof.
  repeat split; try reflexivity; discriminate.
Qed.

(** ** C10 *)

(** C10.  For every tag and every key whose length is not 2,
    [findTypeForKey] reports absence at [pExt] without a look at the string,
    and [TypeForKey] returns the empty string; the same holds when the tag
    has no extension ([pExt] at the end of the string, or zero). *)
Theorem TypeForKey_guard (t : Tag) (key : gostring) :
  len key <> 2 \/ pExt t = len (str t) \/ pExt t = 0 ->
  findTypeForKey t key = Ret (pExt t, pExt t, false) /\ TypeForKey t key = Ret [].
Proof.
  intros H. pose proof (findTypeForKey_guarded t key H) as Hf.
  split; [exact Hf |]. unfold TypeForKey. rewrite Hf. cbn [bind].
  now rewrite Z.eqb_refl.
Qed.

Lemma TypeForKey_guard_witness :
  findTypeForKey enPhonebk (lit "col") = Ret (2, 2, false) /\
  TypeForKey enPhonebk (lit "col") = Ret [].
Proof.
  apply (TypeForKey_guard enPhonebk (lit "col")). left. cbn. lia.
Defined.

(** ** C5 *)

(** C5.  For every tag with a suffix, [Parent] returns the tag of the same
    language, script and region with the suffix stripped, except when the
    region is unset, the script and the language are set and the script is
    the default script of the language: then it returns the bare language. *)
Theorem Parent_suffix (T : IdentifierTables) (t : Tag) :
  str t <> [] ->
  let dropsScript :=
    region t = 0 /\ script t <> 0 /\ lang t <> 0 /\
    script (fst (addTags T (langTag (lang t)))) = script t in
  (dropsScript -> Parent T t = langTag (lang t)) /\
  (~ dropsScript -> Parent T t = coreTag (lang t) (script t) (region t)).
Proof.
  intros Hne. cbn zeta. unfold Parent.
  destruct (str t) as [| c s]; [congruence |]. cbn [isEmpty negb Raw].
  cbn [coreTag region script lang].
  destruct (Z.eqb_spec (region t) 0), (Z.eqb_spec (script t) 0),
    (Z.eqb_spec (lang t) 0),
    (Z.eqb_spec (script (fst (addTags T (langTag (lang t))))) (script t));
    cbn [negb andb]; split; intros H; try reflexivity; tauto.
Qed.

(** [zh-Hans-u-co-pinyin] drops its default script, [zh-Hant-u-co-stroke]
    keeps its script. *)
Lemma Parent_suffix_witness :
  Parent sampleTables (mkTag 2 0 2 7 7 (lit "zh-Hans-u-co-pinyin")) = langTag 2 /\
  Parent sampleTables (mkTag 2 0 3 7 7 (lit "zh-Hant-u-co-stroke")) = coreTag 2 3 0.
Proof.
  split.
  - apply (Parent_suffix sampleTables (mkTag 2 0 2 7 7 (lit "zh-Hans-u-co-pinyin"))).
    + discriminate.
    + cbn. repeat split; lia.
  - apply (Parent_suffix sampleTables (mkTag 2 0 3 7 7 (lit "zh-Hant-u-co-stroke"))).
    + discriminate.
    + cbn. intros (_ & _ & _ & H). discriminate H.
Defined.

(** ** C6 *)

(** C6.  [Contains r c] is true when [r = c].  Otherwise, with [g] the
    group index of [r]: when [g] is outside of the containment table the
    result is false; else, with [m] the mask of the group and [b] the
    inclusion bits of [c], of group index [d]: when [c] is a leaf ([d]
    outside of the table) the result is [b & m != 0], and when [c] is a
    group it is [b &^ m == 0]. *)
Theorem Contains_spec (T : IdentifierTables) (r c : Z) :
  Contains T r r = Ret true /\
  (r = c -> Contains T r c = Ret true) /\
  (r <> c ->
   forall g, lookup (regionInclusion T) r = Ret g ->
   (nRegionGroups T <= g -> Contains T r c = Ret false) /\
   (g < nRegionGroups T ->
    forall m d b,
      lookup (regionContainment T) g = Ret m ->
      lookup (regionInclusion T) c = Ret d ->
      lookup (regionInclusionBits T) d = Ret b ->
      (nRegionGroups T <= d -> Contains T r c = Ret (negb (Z.land b m =? 0))) /\
      (d < nRegionGroups T -> Contains T r c = Ret (Z.ldiff b m =? 0)))).
Proof.
  split; [| split].
  - unfold Contains. now rewrite Z.eqb_refl.
  - intros ->. unfold Contains. now rewrite Z.eqb_refl.
  - intros Hne g Hg. unfold Contains.
    destruct (Z.eqb_spec r c); [contradiction |]. rewrite Hg. cbn [bind].
    split.
    + intros Hge. destruct (Z.leb_spec (nRegionGroups T) g); [reflexivity | lia].
    + intros Hlt m d b Hm Hd Hb.
      destruct (Z.leb_spec (nRegionGroups T) g); [lia |].
      rewrite Hm. cbn [bind]. rewrite Hd. cbn [bind]. rewrite Hb. cbn [bind].
      split; intros Hd'; destruct (Z.leb_spec (nRegionGroups T) d); try reflexivity; lia.
Qed.

(** In the sample tables region 1 (001) is group 0, of mask 3, and region 2
    (150) group 1, of mask 2; region 3 (AT) is a leaf of bits 2 and region 4
    (US) a leaf of bits 1. *)
Lemma Contains_spec_witness :
  Contains sampleTables 1 3 = Ret true /\ Contains sampleTables 2 4 = Ret false /\
  Contains sampleTables 1 2 = Ret true /\ Contains sampleTables 2 1 = Ret false /\
  Contains sampleTables 3 1 = Ret false /\ Contains sampleTables 3 3 = Ret true.
Proof.
  split; [| split; [| split; [| split; [| split]]]].
  - destruct (Contains_spec sampleTables 1 3) as (_ & _ & H).
    destruct (H ltac:(lia) 0 eq_refl) as (_ & H').
    destruct (H' ltac:(cbn; lia) 3 2 2 eq_refl eq_refl eq_refl) as (Hleaf & _).
    apply Hleaf. cbn. lia.
  - destruct (Contains_spec sampleTables 2 4) as (_ & _ & H).
    destruct (H ltac:(lia) 1 eq_refl) as (_ & H').
    destruct (H' ltac:(cbn; lia) 2 3 1 eq_refl eq_refl eq_refl) as (Hleaf & _).
    apply Hleaf. cbn. lia.
  - destruct (Contains_spec sampleTables 1 2) as (_ & _ & H).
    destruct (H ltac:(lia) 0 eq_refl) as (_ & H').
    destruct (H' ltac:(cbn; lia) 3 1 2 eq_refl eq_refl eq_refl) as (_ & Hgroup).
    apply Hgroup. cbn. lia.
  - destruct (Contains_spec sampleTables 2 1) as (_ & _ & H).
    destruct (H ltac:(lia) 1 eq_refl) as (_ & H').
    destruct (H' ltac:(cbn; lia) 2 0 1 eq_refl eq_refl eq_refl) as (_ & Hgroup).
    apply Hgroup. cbn. lia.
  - destruct (Contains_spec sampleTables 3 1) as (_ & _ & H).
    destruct (H ltac:(lia) 2 eq_refl) as (Hout & _).
    apply Hout. cbn. lia.
  - destruct (Contains_spec sampleTables 3 3) as (Hrefl & _). exact Hrefl.
Defined.

(** ** C8 *)

Lemma copyAt_total (buf src : gostring) (off : Z) :
  0 <= off <= len buf ->
  exists n buf', copyAt buf off src = Ret (n, buf') /\
                 0 <= n /\ off + n <= len buf /\ len buf' = len buf.
Proof.
  intros Hoff. unfold copyAt.
  destruct (Z.leb_spec 0 off); [| lia]. destruct (Z.leb_spec off (len buf)); [| lia].
  cbn [andb]. pose proof (len_nonneg src).
  eexists _, _. split; [reflexivity |]. repeat split; try lia.
  unfold len in *. rewrite !length_app, !length_firstn, length_skipn. lia.
Qed.

Lemma genCoreBytes_total (T : IdentifierTables) (t : Tag) (buf : gostring) :
  exists n buf', genCoreBytes T t buf = Ret (n, buf') /\
                 0 <= n <= len buf /\ len buf' = len buf.
Proof.
  unfold genCoreBytes. pose proof (len_nonneg buf) as Hlen.
  destruct (copyAt_total buf (langString T (lang t)) 0) as (n0 & b0 & -> & Hn0 & Hn0' & Hb0);
    [lia |].
  cbn [bind].
  assert (Hstep : forall n b (code : gostring),
             0 <= n <= len b -> len b = len buf ->
             exists n' b',
               (r1 <- copyAt b n [dash] ;;
                let '(k1, b1) := r1 in
                r2 <- copyAt b1 (n + k1) code ;;
                let '(k2, b2) := r2 in Ret (n + k1 + k2, b2)) = Ret (n', b') /\
               0 <= n' <= len buf /\ len b' = len buf).
  { intros n b code Hn Hb.
    destruct (copyAt_total b [dash] n) as (k1 & b1 & -> & Hk1 & Hk1' & Hb1); [lia |].
    cbn [bind].
    destruct (copyAt_total b1 code (n + k1)) as (k2 & b2 & -> & Hk2 & Hk2' & Hb2); [lia |].
    cbn [bind]. eexists _, _. split; [reflexivity |]. lia. }
  destruct (script t =? 0); cbn [negb].
  - cbn [bind]. destruct (region t =? 0); cbn [negb].
    + eexists _, _. split; [reflexivity |]. lia.
    + apply Hstep; lia.
  - destruct (Hstep n0 b0 (scriptString T (script t))) as (n1 & b1 & -> & Hn1 & Hb1);
      [lia .. |].
    cbn [bind]. destruct (region t =? 0); cbn [negb].
    + eexists _, _. split; [reflexivity |]. lia.
    + apply Hstep; lia.
Qed.

Lemma synthesized_core (T : IdentifierTables) (t : Tag) :
  exists text,
    (r <- genCoreBytes T t (newBuf maxCoreSize) ;;
     let '(n, buf) := r in sliceTo buf n) = Ret text /\
    len text <= maxCoreSize /\ (codesOk T -> text = coreString T t).
Proof.
  destruct (genCoreBytes_total T t (newBuf maxCoreSize)) as (n & buf & Hgen & Hn & Hb).
  assert (Hbuf : len (newBuf maxCoreSize) = 12) by reflexivity.
  rewrite Hgen. cbn [bind]. unfold sliceTo, slice.
  destruct (Z.leb_spec 0 n); [| lia]. destruct (Z.leb_spec n (len buf)); [| lia].
  cbn [andb Z.leb Z.compare]. eexists. split; [reflexivity |]. split.
  - unfold len, maxCoreSize in *. rewrite length_firstn. cbn [Z.to_nat skipn]. lia.
  - intros Hok. unfold newBuf, maxCoreSize in Hgen.
    rewrite (genCoreBytes_buffer T t _ Hok) in Hgen by (cbn; lia).
    injection Hgen as <- <-. rewrite Z.sub_0_r. cbn [Z.to_nat skipn].
    now rewrite firstn_len_app.
Qed.

(** C8.  [String] and [MarshalText] return the same text, and [MarshalText]
    no error.  The text is [str] when that is not empty; else the language
    code when script and region are both unset; else the synthesized
    [lang[-script][-region]], in at most 12 bytes. *)
Theorem String_MarshalText (T : IdentifierTables) (t : Tag) :
  exists text,
    String T t = Ret text /\ MarshalText T t = Ret (text, None) /\
    (str t <> [] -> text = str t) /\
    (str t = [] -> script t = 0 -> region t = 0 -> text = langString T (lang t)) /\
    (str t = [] -> script t <> 0 \/ region t <> 0 ->
     len text <= maxCoreSize /\ (codesOk T -> text = coreString T t)).
Proof.
  unfold String, MarshalText.
  destruct (str t) as [| c s] eqn:Hstr; cbn [isEmpty negb].
  2: { exists (c :: s). split; [reflexivity |]. split; [reflexivity |].
       split; [reflexivity |]. split; intros; congruence. }
  destruct (synthesized_core T t) as (text & Htext & Hlen & Hcore).
  destruct (Z.eqb_spec (script t) 0) as [Hs | Hs], (Z.eqb_spec (region t) 0) as [Hr | Hr];
    cbn [andb].
  1: { exists (langString T (lang t)). split; [reflexivity |]. split; [reflexivity |].
       split; [congruence |]. split; [reflexivity |].
       intros _ [H | H]; contradiction. }
  all: exists text; rewrite Htext; cbn [bind];
    split; [reflexivity |]; split; [reflexivity |];
    split; [congruence |]; split; [intros; congruence |];
    intros _ _; split; assumption.
Qed.

(** [zh-Hant-HK] *)
Lemma String_MarshalText_witness :
  String sampleTables (coreTag 2 3 5) = Ret (lit "zh-Hant-HK") /\
  MarshalText sampleTables (coreTag 2 3 5) = Ret (lit "zh-Hant-HK", None).
Proof.
  destruct (String_MarshalText sampleTables (coreTag 2 3 5))
    as (text & HS & HM & _ & _ & Hcore).
  destruct (Hcore eq_refl) as (_ & Htext); [left; cbn; lia |].
  rewrite (Htext codesOk_sample) in HS, HM. split; [exact HS | exact HM].
Defined.

(** ** C4 *)

Lemma parentOverride_Some (ps : list parentRel) (t : Tag) (maxScript : Z) (parent : Tag) :
  parentOverride ps t maxScript = Some parent ->
  exists p, In p ps /\ In (region t) (p_fromRegion p) /\
            parent = coreTag (lang t) (p_script p) (p_toRegion p).
Proof.
  induction ps as [| p ps IH]; cbn [parentOverride]; [discriminate |].
  destruct (_ && existsb _ _) eqn:Hhit.
  - intros [= <-]. apply andb_true_iff in Hhit as [_ Hex].
    apply existsb_exists in Hex as (r & Hin & Hr). apply Z.eqb_eq in Hr. subst r.
    exists p. repeat split; [now left | assumption].
  - intros H. destruct (IH H) as (q & Hq & Hrest). exists q. split; [now right | exact Hrest].
Qed.

Lemma Parent_und (T : IdentifierTables) : Parent T und = und.
Proof. reflexivity. Qed.

Lemma iter_Parent_und (T : IdentifierTables) (n : nat) : Nat.iter n (Parent T) und = und.
Proof.
  induction n as [| n IH]; [reflexivity |]. now rewrite Nat.iter_succ, IH.
Qed.

(** Without a suffix and without a region: the root, or the bare language. *)
Lemma Parent_noRegion (T : IdentifierTables) (t : Tag) :
  str t = [] -> region t = 0 -> Parent T t = und \/ Parent T t = langTag (lang t).
Proof.
  intros Hs Hr. unfold Parent. rewrite Hs, Hr. cbn [isEmpty negb Z.eqb].
  destruct (lang t =? 0); cbn [negb]; [now left |].
  destruct (script t =? 0); cbn [negb]; [now left |].
  destruct (script (fst (addTags T (langTag (lang t)))) =? script t); cbn [negb]; auto.
Qed.

Lemma Parent_langTag (T : IdentifierTables) (l : Z) : Parent T (langTag l) = und.
Proof.
  unfold Parent. cbn [langTag str isEmpty negb lang region script Z.eqb].
  now destruct (l =? 0).
Qed.

(** Without a suffix, with a region that no override applies to: the region
    goes, and the next parent is the root. *)
Lemma Parent_dropRegion (T : IdentifierTables) (t : Tag) :
  str t = [] -> lang t <> 0 -> region t <> 0 ->
  parentOverride (parents T) t
    (if script t =? 0 then script (fst (addTags T t)) else script t) = None ->
  Parent T (Parent T t) = und.
Proof.
  intros Hs Hl Hr Hnone. unfold Parent at 2. rewrite Hs. cbn [isEmpty negb].
  destruct (Z.eqb_spec (lang t) 0); [contradiction |].
  destruct (Z.eqb_spec (region t) 0); [contradiction |]. cbn [negb].
  rewrite Hnone.
  set (maxScript := if script t =? 0 then script (fst (addTags T t)) else script t).
  destruct (Z.eqb_spec (script (fst (addTags T (langTag (lang t))))) maxScript) as [He | He];
    cbn [negb]; [apply Parent_langTag |].
  unfold Parent. cbn [coreTag str isEmpty negb lang region script Z.eqb].
  destruct (Z.eqb_spec (lang t) 0); [contradiction |]. cbn [negb].
  destruct (Z.eqb_spec maxScript 0); cbn [negb]; [reflexivity |].
  destruct (Z.eqb_spec (script (fst (addTags T (langTag (lang t))))) maxScript);
    [contradiction | reflexivity].
Qed.

Lemma Parent_cases (T : IdentifierTables) (t : Tag) :
  str t = [] ->
  Nat.iter 2 (Parent T) t = und \/
  exists p, In p (parents T) /\ In (region t) (p_fromRegion p) /\
            Parent T t = coreTag (lang t) (p_script p) (p_toRegion p).
Proof.
  intros Hs. change (Nat.iter 2 (Parent T) t) with (Parent T (Parent T t)).
  destruct (Z.eq_dec (region t) 0) as [Hr | Hr].
  { left. destruct (Parent_noRegion T t Hs Hr) as [-> | ->];
      [apply Parent_und | apply Parent_langTag]. }
  destruct (Z.eq_dec (lang t) 0) as [Hl | Hl].
  { left. assert (Parent T t = und) as -> by (unfold Parent; now rewrite Hs, Hl).
    apply Parent_und. }
  destruct (parentOverride (parents T) t
              (if script t =? 0 then script (fst (addTags T t)) else script t))
    as [parent |] eqn:Hov.
  - right. destruct (parentOverride_Some _ _ _ _ Hov) as (p & Hp & Hin & Hparent).
    exists p. repeat split; try assumption.
    unfold Parent. rewrite Hs. cbn [isEmpty negb].
    destruct (Z.eqb_spec (lang t) 0); [contradiction |].
    destruct (Z.eqb_spec (region t) 0); [contradiction |]. cbn [negb].
    now rewrite Hov.
  - left. now apply Parent_dropRegion.
Qed.

Lemma iter_Parent_ranked (T : IdentifierTables) (rk : Z -> nat) (K : nat) :
  parentsRanked T rk K ->
  forall (n : nat) (t : Tag),
    str t = [] ->
    (forall p, In p (parents T) -> In (region t) (p_fromRegion p) ->
               (rk (region t) <= n)%nat) ->
    Nat.iter (n + 2) (Parent T) t = und.
Proof.
  intros Hrank. induction n as [| n IH]; intros t Hs Hn.
  - destruct (Parent_cases T t Hs) as [H | (p & Hp & Hin & _)]; [exact H |].
    specialize (Hrank p (region t) Hp Hin). specialize (Hn p Hp Hin). lia.
  - destruct (Parent_cases T t Hs) as [H | (p & Hp & Hin & Hparent)].
    + replace (S n + 2)%nat with (S n + 2)%nat by reflexivity.
      rewrite Nat.iter_add, H. apply iter_Parent_und.
    + replace (S n + 2)%nat with (S (n + 2)) by lia.
      rewrite Nat.iter_succ_r, Hparent. apply IH; [reflexivity |].
      intros q Hq Hin'. cbn [coreTag region] in *.
      pose proof (Hrank p (region t) Hp Hin). specialize (Hn p Hp Hin). lia.
Qed.

Lemma Parent_strips (T : IdentifierTables) (t : Tag) : str (Parent T t) = [].
Proof.
  unfold Parent.
  repeat match goal with
         | |- context [if ?c then _ else _] => destruct c
         | |- context [match ?x with Some _ => _ | None => _ end] => destruct x eqn:?
         | |- context [let '(_, _) := ?x in _] => destruct x
         end; try reflexivity.
  all: match goal with H : parentOverride _ _ _ = Some _ |- _ =>
         apply parentOverride_Some in H as (p & _ & _ & ->) end.
  all: reflexivity.
Qed.

(** C4, as amended.  When every override of the parents table leads from a
    region to a region of lower rank, with ranks of at most [K], the
    iteration of [Parent] reaches the root in at most [K + 3] applications,
    from every tag; the root is its own parent, and there is no other
    cycle.  [K + 3] is 4 for a table none of whose overrides follows
    another. *)
Theorem Parent_reaches_root (T : IdentifierTables) (rk : Z -> nat) (K : nat) (t : Tag) :
  parentsRanked T rk K ->
  Nat.iter (K + 3) (Parent T) t = und /\
  Parent T und = und /\
  (forall n, (0 < n)%nat -> Nat.iter n (Parent T) t = t -> t = und).
Proof.
  intros Hrank.
  assert (Hreach : Nat.iter (K + 3) (Parent T) t = und).
  { replace (K + 3)%nat with (S (K + 2)) by lia. rewrite Nat.iter_succ_r.
    apply (iter_Parent_ranked T rk K Hrank K); [apply Parent_strips |].
    intros p Hp Hin. apply (Hrank p _ Hp Hin). }
  split; [exact Hreach |]. split; [reflexivity |].
  intros n Hn Hcycle.
  assert (Hmul : forall m, Nat.iter (m * n) (Parent T) t = t).
  { induction m as [| m IHm]; [reflexivity |].
    cbn [Nat.mul]. rewrite Nat.add_comm, Nat.iter_add, Hcycle. exact IHm. }
  specialize (Hmul (K + 3)%nat).
  replace ((K + 3) * n)%nat with (((K + 3) * n - (K + 3)) + (K + 3))%nat in Hmul by nia.
  rewrite Nat.iter_add, Hreach, iter_Parent_und in Hmul. congruence.
Qed.

Lemma parentsRanked_sample : parentsRanked sampleTables sampleRank 2.
Proof.
  intros p r Hp Hr. cbn in Hp.
  repeat destruct Hp as [<- | Hp]; try contradiction; cbn in Hr;
    repeat destruct Hr as [<- | Hr]; try contradiction; cbn; lia.
Defined.

Lemma Parent_reaches_root_witness :
  Nat.iter 5 (Parent sampleTables) enATPhonebk = und.
Proof.
  apply (Parent_reaches_root sampleTables sampleRank 2 enATPhonebk).
  exact parentsRanked_sample.
Defined.

(** C4 as stated fails where an override follows another, as in CLDR for
    English: the parents of [en-AT-u-co-phonebk] are [en-AT], [en-150],
    [en-001], [en], and the root comes fifth. *)
Lemma Parent_reaches_root_counterexample :
  validTag sampleTables enATPhonebk /\
  Nat.iter 1 (Parent sampleTables) enATPhonebk = coreTag 1 0 3 /\
  Nat.iter 2 (Parent sampleTables) enATPhonebk = coreTag 1 0 2 /\
  Nat.iter 3 (Parent sampleTables) enATPhonebk = coreTag 1 0 1 /\
  Nat.iter 4 (Parent sampleTables) enATPhonebk = langTag 1 /\
  Nat.iter 4 (Parent sampleTables) enATPhonebk <> und.
Proof.
  split.
  - apply (validSuffix sampleTables enATPhonebk []
             [ExtU [] [(lit "co", [lit "phonebk"])]]).
    sample_suffix.
  - repeat split; try reflexivity. discriminate.
Qed.

(** ** C3 *)

Lemma locateKey_split (key : gostring) (tys : list gostring) (P R : list keyword) :
  forall (acc rest : gostring),
    Forall (fun kw : keyword => str_ltb (fst kw) key = true) P ->
    locateKey key acc (P ++ (key, tys) :: R) rest
    = (acc ++ renderKeywords P ++ dash :: key ++ [dash], tl (joinTokens tys),
       renderKeywords R ++ rest, true).
Proof.
  induction P as [| kw P IH]; intros acc rest HP; cbn [app locateKey fst snd].
  - now rewrite str_eqb_refl.
  - inversion HP as [| ? ? Hlt HP']; subst x l.
    destruct (str_eqb (fst kw) key) eqn:Heq.
    { apply str_eqb_eq in Heq. rewrite Heq, str_ltb_irrefl in Hlt. discriminate. }
    unfold str_gtb. rewrite (str_ltb_asym _ _ Hlt).
    rewrite IH by assumption. rewrite renderKeywords_cons. do 3 f_equal. eqapp.
Qed.

Lemma locate_split (key : gostring) (attrs : list gostring) (kws : list keyword)
      (bef aft : list ext) :
  forall (acc : gostring),
    Forall (fun e => byte_ltb (extType e) "u" = true) bef ->
    locate key acc (bef ++ ExtU attrs kws :: aft)
    = locateKey key (acc ++ renderExts bef ++ dash :: "u"%char :: joinTokens attrs) kws
                (renderExts aft).
Proof.
  induction bef as [| e bef IH]; intros acc Hbef; cbn [app locate].
  - reflexivity.
  - inversion Hbef as [| ? ? Hlt Hbef']; subst x l.
    destruct e as [a k | ty toks]; cbn [extType] in Hlt; [discriminate Hlt |].
    assert (Hgt : byte_ltb "u" ty = false).
    { unfold byte_ltb in *. apply N.ltb_lt in Hlt. apply N.ltb_ge. lia. }
    rewrite Hgt, IH by assumption. rewrite renderExts_cons. f_equal. eqapp.
Qed.

Lemma sorted_before {A : Type} (R : A -> A -> Prop) (bef aft : list A) (u : A) :
  StronglySorted R (bef ++ u :: aft) -> Forall (fun e => R e u) bef.
Proof.
  induction bef as [| e bef IH]; cbn [app]; intros H; [constructor |].
  apply StronglySorted_inv in H as [Hs Hall]. constructor.
  - rewrite Forall_forall in Hall. apply Hall, in_elt.
  - now apply IH.
Qed.

Lemma token_tail (lo hi : nat) (w : gostring) :
  (2 <= lo)%nat -> token lo hi w -> exists w' a b, w = w' ++ [a; b] /\ a <> dash.
Proof.
  intros Hlo [Hn Hl].
  destruct (exists_last (l := w)) as (w1 & b & ->); [intros ->; cbn in Hl; lia |].
  rewrite length_app in Hl. cbn [length] in Hl.
  destruct (exists_last (l := w1)) as (w2 & a & ->); [intros ->; cbn in Hl; lia |].
  exists w2, a, b. split; [now rewrite <- app_assoc |].
  unfold nodash in Hn. rewrite !Forall_app in Hn. destruct Hn as ((_ & Ha) & _).
  now inversion Ha.
Qed.

Lemma joinTokens_tail (toks : list gostring) :
  toks <> [] -> Forall (token 3 8) toks ->
  exists w a b, joinTokens toks = w ++ [a; b] /\ a <> dash.
Proof.
  intros Hne Hall.
  destruct (exists_last Hne) as (toks' & tok & ->).
  apply Forall_app in Hall as (_ & Htok). inversion Htok as [| ? ? Ht _]; subst x l.
  destruct (token_tail 3 8 tok ltac:(lia) Ht) as (w' & a & b & -> & Ha).
  exists (joinTokens toks' ++ dash :: w'), a, b. split; [| exact Ha].
  rewrite joinTokens_app, joinTokens_cons. cbn [joinTokens map concat]. rewrite app_nil_r.
  eqapp.
Qed.

Lemma renderKeywords_tail (kws : list keyword) :
  kws <> [] -> Forall keywordOk kws ->
  exists w a b, renderKeywords kws = w ++ [a; b] /\ a <> dash.
Proof.
  intros Hne Hall.
  destruct (exists_last Hne) as (kws' & kw & ->).
  apply Forall_app in Hall as (_ & Hkw). inversion Hkw as [| ? ? (_ & Hn & Ht) _]; subst x l.
  destruct (joinTokens_tail (snd kw) Hn Ht) as (w & a & b & Hj & Ha).
  exists (renderKeywords kws' ++ dash :: fst kw ++ w), a, b. split; [| exact Ha].
  rewrite renderKeywords_app, renderKeywords_cons. unfold renderKeyword. rewrite Hj.
  change (renderKeywords []) with (@nil ascii). rewrite app_nil_r. eqapp.
Qed.

Lemma block_tail (attrs : list gostring) (kws : list keyword) :
  attrs <> [] \/ kws <> [] -> Forall (token 3 8) attrs -> Forall keywordOk kws ->
  exists w a b, joinTokens attrs ++ renderKeywords kws = w ++ [a; b] /\ a <> dash.
Proof.
  intros Hne Ha Hk. destruct kws as [| kw kws].
  - destruct Hne as [Hne | Hne]; [| congruence].
    destruct (joinTokens_tail attrs Hne Ha) as (w & a & b & -> & Hd).
    exists w, a, b. split; [| exact Hd].
    change (renderKeywords []) with (@nil ascii). now rewrite app_nil_r.
  - destruct (renderKeywords_tail (kw :: kws) ltac:(discriminate) Hk)
      as (w & a & b & -> & Hd).
    exists (joinTokens attrs ++ w), a, b. split; [eqapp | exact Hd].
Qed.

(** [SetTypeForKey] with the empty value, from the positions of the type. *)
Lemma SetTypeForKey_remove_code (T : IdentifierTables) (t : Tag) (key : gostring)
      (start end_ : Z) (h : bool) :
  private t = false -> len key = 2 ->
  findTypeForKey t key = Ret (start, end_, h) -> start <> end_ ->
  SetTypeForKey T t key [] =
  (let start := start - 4 in
   last <- (if end_ =? len (str t) then Ret true
            else c <- index (str t) (end_ + 2) ;; Ret (Ascii.eqb c dash)) ;;
   only <- (if (last : bool) then c <- index (str t) (start - 2) ;; Ret (Ascii.eqb c dash)
            else Ret false) ;;
   let start := if (only : bool) then start - 2 else start in
   if (start =? pVariant t) && (end_ =? len (str t)) then
     Ret (mkTag (lang t) (region t) (script t) 0 0 [], None)
   else
     a <- sliceTo (str t) start ;;
     b <- sliceFrom (str t) end_ ;;
     Ret (withStr t (a ++ b), None)).
Proof.
  intros Hp Hk Hf Hne. unfold SetTypeForKey. rewrite Hp, Hk, Hf.
  cbn [Z.eqb Pos.eqb negb isEmpty bind].
  destruct (Z.eqb_spec start end_); [contradiction |]. reflexivity.
Qed.

(** The removal, on the strings around the keyword: [x0] before its dash,
    [y] its type, [z] after it.  [keep] is what stays of [x0]: all of it, or
    all but the [-u] that ends it. *)
Lemma SetTypeForKey_remove_strings (T : IdentifierTables) (t : Tag)
      (key x0 y z keep : gostring) (h : bool) :
  private t = false -> len key = 2 ->
  findTypeForKey t key = Ret (len x0 + 4, len x0 + 4 + len y, h) ->
  str t = x0 ++ (dash :: key ++ [dash]) ++ y ++ z -> y <> [] ->
  (* the keyword is the last of its block, and the only item of it *)
  (blockEnd z /\ keep ++ [dash; "u"%char] = x0) \/
  (* the keyword is the last of its block, which keeps other items *)
  (blockEnd z /\ keep = x0 /\ exists w a b, x0 = w ++ [a; b] /\ a <> dash) \/
  (* another keyword follows *)
  (keep = x0 /\ exists a b c r, z = a :: b :: c :: r /\ c <> dash) ->
  SetTypeForKey T t key [] =
  if (len keep =? pVariant t) && isEmpty z
  then Ret (mkTag (lang t) (region t) (script t) 0 0 [], None)
  else Ret (withStr t (keep ++ z), None).
Proof.
  intros Hp Hk Hf Hs Hy Hcases.
  pose proof (len_nonneg y). pose proof (len_nonneg z). pose proof (len_nonneg x0).
  assert (0 < len y) by (destruct y; [congruence | lens; pose proof (len_nonneg y); lia]).
  rewrite (SetTypeForKey_remove_code T t key _ _ h Hp Hk Hf) by lia.
  cbn zeta.
  assert (Hlen : len (str t) = len x0 + 4 + len y + len z) by (rewrite Hs; lens; lia).
  assert (Hend : (len x0 + 4 + len y =? len (str t)) = isEmpty z).
  { rewrite isEmpty_len, Hlen. destruct (Z.eqb_spec (len z) 0), (Z.eqb_spec (len x0 + 4 + len y) (len x0 + 4 + len y + len z)); lia || reflexivity. }
  assert (Hsz : sliceFrom (str t) (len x0 + 4 + len y) = Ret z).
  { rewrite Hs, !app_assoc. apply sliceFrom_app. lens. lia. }
  assert (Hz2 : forall a b c r, z = a :: b :: c :: r ->
                                index (str t) (len x0 + 4 + len y + 2) = Ret c).
  { intros a b c r ->. rewrite Hs, !app_assoc.
    rewrite index_app_r by (lens; lia). apply index_2. }
  rewrite Hend.
  destruct Hcases as [(Hz & Hx) | [(Hz & -> & w & a & b & Hx & Ha)
                                  | (-> & a & b & c & r & Hz & Hc)]].
  - subst x0.
    assert (Hlast : (if isEmpty z then Ret true
                     else c <- index (str t) (len (keep ++ [dash; "u"%char]) + 4 + len y + 2) ;;
                          Ret (Ascii.eqb c dash)) = Ret true).
    { destruct Hz as [-> | (c & r & ->)]; [reflexivity |]. cbn [isEmpty].
      rewrite (Hz2 dash c dash r eq_refl). cbn [bind]. now rewrite Ascii.eqb_refl. }
    rewrite Hlast. cbn [bind].
    assert (Hidx : index (str t) (len (keep ++ [dash; "u"%char]) + 4 - 4 - 2) = Ret dash).
    { rewrite Hs, <- !app_assoc. rewrite index_here by (lens; lia). apply index_0. }
    rewrite Hidx. cbn [bind]. rewrite Ascii.eqb_refl.
    replace (len (keep ++ [dash; "u"%char]) + 4 - 4 - 2) with (len keep) by (lens; lia).
    destruct ((len keep =? pVariant t) && isEmpty z); [reflexivity |].
    rewrite Hs, <- !app_assoc. rewrite sliceTo_app by reflexivity. cbn [bind].
    rewrite Hs, <- !app_assoc in Hsz. rewrite Hsz. reflexivity.
  - assert (Hlast : (if isEmpty z then Ret true
                     else c <- index (str t) (len x0 + 4 + len y + 2) ;;
                          Ret (Ascii.eqb c dash)) = Ret true).
    { destruct Hz as [-> | (c & r & ->)]; [reflexivity |]. cbn [isEmpty].
      rewrite (Hz2 dash c dash r eq_refl). cbn [bind]. now rewrite Ascii.eqb_refl. }
    rewrite Hlast. cbn [bind].
    assert (Hidx : index (str t) (len x0 + 4 - 4 - 2) = Ret a).
    { rewrite Hs, Hx, <- !app_assoc. rewrite index_here by (lens; lia). apply index_0. }
    rewrite Hidx. cbn [bind]. rewrite (eqb_dash_false a Ha).
    replace (len x0 + 4 - 4) with (len x0) by lia.
    destruct ((len x0 =? pVariant t) && isEmpty z); [reflexivity |].
    rewrite Hs at 1. rewrite sliceTo_app by reflexivity. cbn [bind].
    rewrite Hsz. reflexivity.
  - subst z. cbn [isEmpty]. rewrite (Hz2 a b c r eq_refl). cbn [bind].
    rewrite (eqb_dash_false c Hc). cbn [bind].
    replace (len x0 + 4 - 4) with (len x0) by lia. rewrite !andb_false_r.
    rewrite Hs at 1. rewrite sliceTo_app by reflexivity. cbn [bind].
    rewrite Hsz. reflexivity.
Qed.

Lemma joinTokens_nonempty (ws : list gostring) : ws <> [] -> 0 < len (joinTokens ws).
Proof.
  destruct ws as [| w ws]; [congruence |]. intros _. rewrite joinTokens_cons. lens.
  pose proof (len_nonneg (w ++ joinTokens ws)). lens. lia.
Qed.

Lemma renderExts_nonempty (es : list ext) : es <> [] -> 0 < len (renderExts es).
Proof.
  intros Hne. pose proof (length_renderExts_steps es).
  destruct es; [congruence |]. unfold len. cbn [length] in *. lia.
Qed.

Lemma isEmpty_false (s : gostring) : 0 < len s -> isEmpty s = false.
Proof. destruct s; [cbn; lia | reflexivity]. Qed.

(** C3.  On a valid tag that holds the key [key], with the type [tys], in
    its 'u' block, [SetTypeForKey] with the empty value returns the tag
    without the keyword and without the dash before it; the [-u] goes too
    when the block has no attribute and no other keyword; and when nothing
    is left of the suffix the string is empty and both offsets are zero. *)
Theorem SetTypeForKey_remove (T : IdentifierTables) (t : Tag) (key : gostring)
        (variants tys attrs : list gostring) (P R : list keyword) (bef aft : list ext) :
  hasSuffix T t variants (bef ++ ExtU attrs (P ++ (key, tys) :: R) :: aft) ->
  let core := coreString T t ++ joinTokens variants in
  (attrs <> [] \/ P <> [] \/ R <> [] ->
   SetTypeForKey T t key []
   = Ret (withStr t (core ++ renderExts (bef ++ ExtU attrs (P ++ R) :: aft)), None)) /\
  (attrs = [] -> P = [] -> R = [] -> variants <> [] \/ bef <> [] \/ aft <> [] ->
   SetTypeForKey T t key [] = Ret (withStr t (core ++ renderExts (bef ++ aft)), None)) /\
  (attrs = [] -> P = [] -> R = [] -> variants = [] -> bef = [] -> aft = [] ->
   SetTypeForKey T t key [] = Ret (mkTag (lang t) (region t) (script t) 0 0 [], None)).
Proof.
  intros (Hs & Hv & He & Hpos & _ & _ & _ & Hok & Hkeys & Htypes) core.
  (* what the layout gives *)
  apply Forall_app in Hok as (Hbef & Hok). inversion Hok as [| ? ? Hu Haft]; subst x l.
  destruct Hu as (Hattrs & Hkws & _).
  apply Forall_app in Hkws as (HP & Hkws). inversion Hkws as [| ? ? Hkw HR]; subst x l.
  destruct Hkw as (Hkey & Hne & Htys). cbn [fst snd] in Hkey, Hne, Htys.
  apply Forall_app in Hkeys as (_ & Hkeys). inversion Hkeys as [| ? ? Hsorted _]; subst x l.
  cbn [extSorted] in Hsorted. apply sorted_before in Hsorted. cbn [fst] in Hsorted.
  apply sorted_before in Htypes. cbn [extType] in Htypes.
  pose proof (len_key key Hkey) as Hlk.
  assert (Hpriv : private t = false).
  { unfold private. destruct (Z.eqb_spec (pVariant t) 0); [lia | apply andb_false_r]. }
  destruct tys as [| ty tys]; [congruence |].
  set (y := ty ++ joinTokens tys).
  set (x0 := core ++ renderExts bef ++ dash :: "u"%char :: joinTokens attrs
                  ++ renderKeywords P).
  set (z := renderKeywords R ++ renderExts aft).
  assert (Hy : y <> []).
  { inversion Htys as [| ? ? Hty _]; subst x l.
    destruct (token3_inv _ _ Hty) as (a & b & c & w & Hw & _). subst y. rewrite Hw.
    discriminate. }
  assert (Hstr : str t = x0 ++ (dash :: key ++ [dash]) ++ y ++ z).
  { rewrite Hs. subst x0 y z core.
    rewrite renderExts_app, renderExts_cons. cbn [renderExt].
    rewrite renderKeywords_app, renderKeywords_cons. unfold renderKeyword. cbn [fst snd].
    rewrite joinTokens_cons. eqapp. }
  assert (Hfind : findTypeForKey t key = Ret (len x0 + 4, len x0 + 4 + len y, true)).
  { rewrite (findTypeForKey_layout t key core
               (bef ++ ExtU attrs (P ++ (key, ty :: tys) :: R) :: aft)).
    - rewrite locate_split by assumption. rewrite locateKey_split by assumption.
      cbn [span]. rewrite joinTokens_cons. cbn [tl]. fold y.
      do 2 f_equal. f_equal; subst x0; lens; lia.
    - rewrite Hs. subst core. eqapp.
    - subst core. lens. lia.
    - subst core. lens. pose proof (len_nonneg (joinTokens variants)). lia.
    - apply Forall_app. split; [assumption |]. constructor; [| assumption].
      cbn [extOk]. repeat split; try assumption.
      + apply Forall_app. split; [assumption |]. constructor; [| assumption].
        unfold keywordOk. cbn [fst snd]. auto.
      + right. destruct P; discriminate.
    - assumption. }
  pose proof (extOk_blockEnd aft Haft) as Hend.
  assert (Hcore : pVariant t <= len core).
  { subst core. lens. pose proof (len_nonneg (joinTokens variants)). lia. }
  pose proof (len_nonneg (renderExts bef)) as Hlb.
  pose proof (len_nonneg (joinTokens attrs)) as Hla.
  pose proof (len_nonneg (renderKeywords P)) as HlP.
  split; [| split].
  - intros Hrest.
    assert (Hout : x0 ++ z = core ++ renderExts (bef ++ ExtU attrs (P ++ R) :: aft)).
    { subst x0 z. rewrite renderExts_app, renderExts_cons. cbn [renderExt].
      rewrite renderKeywords_app. eqapp. }
    assert (Hbig : (len x0 =? pVariant t) = false).
    { apply Z.eqb_neq. subst x0. lens. lia. }
    assert (Hcase :
              (blockEnd z /\ x0 ++ [dash; "u"%char] = x0) \/
              (blockEnd z /\ x0 = x0 /\ exists w a b, x0 = w ++ [a; b] /\ a <> dash) \/
              (x0 = x0 /\ exists a b c r, z = a :: b :: c :: r /\ c <> dash)).
    { destruct R as [| [k tk] R'].
      - right. left. split; [subst z; exact Hend |]. split; [reflexivity |].
        assert (Hap : attrs <> [] \/ P <> []) by (destruct Hrest as [? | [? | ?]]; tauto).
        destruct (block_tail attrs P Hap Hattrs HP) as (w & a & b & Hw & Ha).
        exists (core ++ renderExts bef ++ dash :: "u"%char :: w), a, b.
        split; [| exact Ha].
        subst x0. eqapp. now rewrite <- Hw.
      - right. right. split; [reflexivity |].
        inversion HR as [| ? ? (Hk & HneR & HtR) _]; subst. cbn [fst snd] in Hk, HneR, HtR.
        destruct (token2_inv _ Hk) as (k1 & k2 & -> & _ & Hk2).
        exists dash, k1, k2. eexists. split; [| exact Hk2].
        subst z. rewrite renderKeywords_cons. unfold renderKeyword. cbn [fst snd app].
        reflexivity. }
    rewrite (SetTypeForKey_remove_strings T t key x0 y z x0 true
               Hpriv Hlk Hfind Hstr Hy Hcase).
    rewrite Hbig. cbn [andb]. now rewrite Hout.
  - intros -> -> -> Hrest.
    assert (Hx0 : (core ++ renderExts bef) ++ [dash; "u"%char] = x0).
    { subst x0. cbn [joinTokens map concat renderKeywords]. eqapp. }
    assert (Hz : z = renderExts aft) by reflexivity.
    rewrite (SetTypeForKey_remove_strings T t key x0 y z (core ++ renderExts bef) true
               Hpriv Hlk Hfind Hstr Hy (or_introl (conj Hend Hx0))).
    assert (Hcond : (len (core ++ renderExts bef) =? pVariant t) && isEmpty z = false).
    { destruct Hrest as [Hr | [Hr | Hr]].
      - apply andb_false_iff. left. apply Z.eqb_neq.
        pose proof (joinTokens_nonempty variants Hr). subst core. lens. lia.
      - apply andb_false_iff. left. apply Z.eqb_neq.
        pose proof (renderExts_nonempty bef Hr). lens. lia.
      - apply andb_false_iff. right. rewrite Hz.
        apply isEmpty_false, renderExts_nonempty, Hr. }
    rewrite Hcond, Hz, renderExts_app. do 3 f_equal. eqapp.
  - intros -> -> -> -> -> ->.
    assert (Hx0 : (core ++ renderExts []) ++ [dash; "u"%char] = x0).
    { subst x0. cbn [joinTokens map concat renderKeywords]. eqapp. }
    rewrite (SetTypeForKey_remove_strings T t key x0 y z (core ++ renderExts []) true
               Hpriv Hlk Hfind Hstr Hy (or_introl (conj Hend Hx0))).
    assert (Hcond : (len (core ++ renderExts []) =? pVariant t) && isEmpty z = true).
    { apply andb_true_iff. split; [| reflexivity]. apply Z.eqb_eq.
      subst core. cbn [joinTokens renderExts map concat]. lens. lia. }
    now rewrite Hcond.
Qed.

Lemma hasSuffix_enPhonebkLatn :
  hasSuffix sampleTables enPhonebkLatn []
    ([] ++ ExtU [] ([] ++ (lit "co", [lit "phonebk"]) :: [(lit "nu", [lit "latn"])]) :: []).
Proof. sample_suffix. Defined.

Lemma hasSuffix_enXyzPhonebk :
  hasSuffix sampleTables enXyzPhonebk []
    ([ExtOther "a" [lit "xyz"]] ++ ExtU [] ([] ++ (lit "co", [lit "phonebk"]) :: []) :: []).
Proof. sample_suffix. Defined.

(** [en-u-co-phonebk-nu-latn] becomes [en-u-nu-latn], [en-a-xyz-u-co-phonebk]
    becomes [en-a-xyz], and [en-u-co-phonebk] becomes [en]. *)
Lemma SetTypeForKey_remove_witness :
  SetTypeForKey sampleTables enPhonebkLatn (lit "co") []
  = Ret (mkTag 1 0 0 2 2 (lit "en-u-nu-latn"), None) /\
  SetTypeForKey sampleTables enXyzPhonebk (lit "co") []
  = Ret (mkTag 1 0 0 2 2 (lit "en-a-xyz"), None) /\
  SetTypeForKey sampleTables enPhonebk (lit "co") []
  = Ret (mkTag 1 0 0 0 0 [], None).
Proof.
  split; [| split].
  - apply (SetTypeForKey_remove sampleTables enPhonebkLatn (lit "co") [] [lit "phonebk"]
             [] [] [(lit "nu", [lit "latn"])] [] [] hasSuffix_enPhonebkLatn).
    right. right. discriminate.
  - apply (SetTypeForKey_remove sampleTables enXyzPhonebk (lit "co") [] [lit "phonebk"]
             [] [] [] [ExtOther "a" [lit "xyz"]] [] hasSuffix_enXyzPhonebk);
      try reflexivity.
    right. left. discriminate.
  - apply (SetTypeForKey_remove sampleTables enPhonebk (lit "co") [] [lit "phonebk"]
             [] [] [] [] [] hasSuffix_enPhonebk); reflexivity.
Defined.

(** ** C9 *)

Lemma index_total (s : gostring) (i : Z) :
  0 <= i < len s -> exists c, index s i = Ret c.
Proof.
  intros Hi. unfold index. destruct (Z.ltb_spec i 0); [lia |].
  destruct (nth_error s (Z.to_nat i)) as [c |] eqn:Hn; [eauto |].
  apply nth_error_None in Hn. unfold len in Hi. lia.
Qed.

Lemma slice_total (s : gostring) (lo hi : Z) :
  0 <= lo <= hi -> hi <= len s -> exists r, slice s lo hi = Ret r.
Proof.
  intros Hlo Hhi. unfold slice.
  destruct (Z.leb_spec 0 lo); [| lia]. destruct (Z.leb_spec lo hi); [| lia].
  destruct (Z.leb_spec hi (len s)); [| lia]. cbn [andb]. eauto.
Qed.

Lemma slice_nonempty (s r : gostring) (lo hi : Z) :
  slice s lo hi = Ret r -> lo < hi -> exists c, index r 0 = Ret c.
Proof.
  unfold slice. intros H Hlt.
  destruct (Z.leb_spec 0 lo); [| discriminate]. destruct (Z.leb_spec lo hi); [| discriminate].
  destruct (Z.leb_spec hi (len s)); [| discriminate]. cbn [andb] in H.
  injection H as <-. apply index_total. unfold len in *.
  rewrite length_firstn, length_skipn. lia.
Qed.

(** *** The keyword that is found lies inside the string *)

Lemma len_renderKeyword_min (kw : keyword) : keywordOk kw -> 7 <= len (renderKeyword kw).
Proof.
  intros (Hk & Hne & Ht). unfold renderKeyword. destruct (snd kw) as [| ty tys]; [congruence |].
  inversion Ht as [| ? ? Hty _]; subst x l. rewrite joinTokens_cons. lens.
  pose proof (len_key _ Hk). pose proof (len_nonneg (joinTokens tys)).
  destruct Hty as [_ Hl]. unfold len in *. lia.
Qed.

Lemma blockEnd_len (z : gostring) : blockEnd z -> z = [] \/ 3 <= len z.
Proof.
  intros [-> | (c & r & ->)]; [now left | right]. lens. pose proof (len_nonneg r). lia.
Qed.

Lemma locateKey_found_bounds (key : gostring) (kws : list keyword) :
  forall (acc rest : gostring),
    Forall keywordOk kws -> blockEnd rest ->
    let '(x, y, z, _) := locateKey key acc kws rest in
    y <> [] -> len acc + 4 <= len x /\ (z = [] \/ 3 <= len z).
Proof.
  induction kws as [| kw kws IH]; intros acc rest Hok Hr; cbn [locateKey].
  - congruence.
  - inversion Hok as [| ? ? Hkw Hok']; subst x l.
    destruct (str_eqb (fst kw) key).
    + intros _. destruct Hkw as (Hk & _). pose proof (len_key _ Hk). split.
      * lens. lia.
      * destruct kws as [| kw' kws'].
        -- cbn [renderKeywords map concat app]. now apply blockEnd_len.
        -- right. inversion Hok' as [| ? ? Hkw' _]; subst x l.
           pose proof (len_renderKeyword_min kw' Hkw').
           rewrite renderKeywords_cons. lens.
           pose proof (len_nonneg (renderKeywords kws')). pose proof (len_nonneg rest). lia.
    + destruct (str_gtb (fst kw) key); [congruence |].
      specialize (IH (acc ++ renderKeyword kw) rest Hok' Hr).
      destruct (locateKey key (acc ++ renderKeyword kw) kws rest) as [[[x y] z] h].
      intros Hy. destruct (IH Hy) as (Hx & Hz). split; [| exact Hz].
      lens. pose proof (len_nonneg (renderKeyword kw)). lia.
Qed.

Lemma locate_found_bounds (key : gostring) (es : list ext) :
  forall (acc : gostring),
    Forall extOk es ->
    let '(x, y, z, _) := locate key acc es in
    y <> [] -> 6 <= len x /\ (z = [] \/ 3 <= len z).
Proof.
  induction es as [| e es IH]; intros acc Hok; cbn [locate].
  - congruence.
  - inversion Hok as [| ? ? He Hok']; subst x l.
    destruct e as [attrs kws | ty toks].
    + destruct He as (_ & Hk & _).
      pose proof (locateKey_found_bounds key kws
                    (acc ++ dash :: "u"%char :: joinTokens attrs) (renderExts es)
                    Hk (extOk_blockEnd es Hok')) as H.
      destruct (locateKey key _ kws (renderExts es)) as [[[x y] z] h].
      intros Hy. destruct (H Hy) as (Hx & Hz). split; [| exact Hz].
      lens. pose proof (len_nonneg acc). pose proof (len_nonneg (joinTokens attrs)). lia.
    + destruct (byte_ltb "u" ty); [congruence |].
      apply IH. assumption.
Qed.

(** [findTypeForKey] on a valid tag: positions inside the string, and room
    around the type when there is one. *)
Lemma findTypeForKey_valid (T : IdentifierTables) (t : Tag) (key : gostring) :
  validTag T t ->
  exists x y z h,
    findTypeForKey t key = Ret (len x, len x + len y, h) /\
    str t = x ++ y ++ z /\
    (y <> [] -> private t = false /\ len key = 2 /\ 6 <= len x /\ (z = [] \/ 3 <= len z)).
Proof.
  intros Hvalid.
  assert (Hguard : forall pre suf,
             str t = pre ++ suf -> pExt t = len pre ->
             len key <> 2 \/ pExt t = len (str t) \/ pExt t = 0 ->
             exists x y z h,
               findTypeForKey t key = Ret (len x, len x + len y, h) /\
               str t = x ++ y ++ z /\
               (y <> [] -> private t = false /\ len key = 2 /\ 6 <= len x
                           /\ (z = [] \/ 3 <= len z))).
  { intros pre suf Hs Hp Hg. exists pre, [], suf, false.
    rewrite (findTypeForKey_guarded t key Hg). rewrite Hp. lens.
    split; [do 2 f_equal; f_equal; lia |]. split; [exact Hs | congruence]. }
  destruct Hvalid as [Hs Hv Hp | toks Hs _ _ Hv Hp
                     | variants es (Hs & Hv & He & Hpos & _ & _ & _ & Hok & _ & _)].
  - apply (Hguard [] []); [now rewrite Hs | now rewrite Hp | auto].
  - apply (Hguard [] (str t)); [reflexivity | now rewrite Hp | auto].
  - destruct (Z.eq_dec (len key) 2) as [Hk | Hk].
    + pose proof (findTypeForKey_layout t key (coreString T t ++ joinTokens variants) es)
        as Hfind.
      pose proof (locate_app key es (coreString T t ++ joinTokens variants) Hok) as Happ.
      pose proof (locate_found_bounds key es (coreString T t ++ joinTokens variants) Hok)
        as Hbounds.
      destruct (locate key _ es) as [[[x y] z] h]. exists x, y, z, h.
      pose proof (len_nonneg (joinTokens variants)).
      split; [apply Hfind; try assumption; [rewrite Hs; eqapp | lens; lia | lens; lia] |].
      split; [rewrite Hs, Happ; eqapp |].
      intros Hy. destruct (Hbounds Hy) as (Hx & Hz). repeat split; try assumption.
      unfold private. destruct (Z.eqb_spec (pVariant t) 0); [lia | apply andb_false_r].
    + apply (Hguard (coreString T t ++ joinTokens variants) (renderExts es));
        [rewrite Hs; eqapp | lens; lia | auto].
Qed.

Lemma TypeForKey_valid (T : IdentifierTables) (t : Tag) (key : gostring) :
  validTag T t -> exists v, TypeForKey t key = Ret v.
Proof.
  intros Hvalid.
  destruct (findTypeForKey_valid T t key Hvalid) as (x & y & z & h & Hf & Hs & _).
  unfold TypeForKey. rewrite Hf. cbn [bind].
  destruct (negb (len x + len y =? len x)); [| eauto].
  rewrite Hs. rewrite slice_mid by reflexivity. eauto.
Qed.

Lemma SetTypeForKey_valid (T : IdentifierTables) (t : Tag) (key value : gostring) :
  codesOk T -> scannerInPlace T -> validTag T t ->
  exists r, SetTypeForKey T t key value = Ret r.
Proof.
  intros Hcodes Hscan Hvalid.
  destruct (private t) eqn:Hpriv; [unfold SetTypeForKey; rewrite Hpriv; eauto |].
  destruct (Z.eq_dec (len key) 2) as [Hk | Hk].
  2: { unfold SetTypeForKey. rewrite Hpriv.
       destruct (Z.eqb_spec (len key) 2); [contradiction | cbn [negb]; eauto]. }
  destruct (findTypeForKey_valid T t key Hvalid) as (x & y & z & h & Hf & Hs & Hfound).
  assert (Hlen : len (str t) = len x + len y + len z) by (rewrite Hs; lens; lia).
  pose proof (len_nonneg x). pose proof (len_nonneg y). pose proof (len_nonneg z).
  destruct value as [| c value].
  - (* removal *)
    destruct (Z.eq_dec (len x) (len x + len y)) as [He | He].
    { unfold SetTypeForKey. rewrite Hpriv, Hk, Hf. cbn [Z.eqb Pos.eqb negb isEmpty bind].
      destruct (Z.eqb_spec (len x) (len x + len y)); [cbn [negb]; eauto | contradiction]. }
    rewrite (SetTypeForKey_remove_code T t key _ _ h Hpriv Hk Hf He). cbn zeta.
    assert (Hy : y <> []) by (intros ->; cbn in He; lia).
    destruct (Hfound Hy) as (_ & _ & Hx & Hz).
    assert (Hlast : exists last,
               (if len x + len y =? len (str t) then Ret true
                else c <- index (str t) (len x + len y + 2) ;; Ret (Ascii.eqb c dash))
               = Ret last).
    { destruct (Z.eqb_spec (len x + len y) (len (str t))); [eauto |].
      destruct (index_total (str t) (len x + len y + 2)) as (c & ->); [| cbn [bind]; eauto].
      destruct Hz as [-> | Hz]; [cbn in *; lia | lia]. }
    destruct Hlast as (last & ->). cbn [bind].
    assert (Honly : exists only,
               (if last then c <- index (str t) (len x - 4 - 2) ;; Ret (Ascii.eqb c dash)
                else Ret false) = Ret only).
    { destruct last; [| eauto].
      destruct (index_total (str t) (len x - 4 - 2)) as (c & ->); [lia | cbn [bind]; eauto]. }
    destruct Honly as (only & ->). cbn [bind].
    destruct (_ && _); [eauto |].
    destruct (slice_total (str t) 0 (if only then len x - 4 - 2 else len x - 4))
      as (a & Ha); [destruct only; lia | destruct only; lia |].
    unfold sliceTo. rewrite Ha. cbn [bind].
    destruct (slice_total (str t) (len x + len y) (len (str t))) as (b & Hb); [lia .. |].
    unfold sliceFrom. rewrite Hb. cbn [bind]. eauto.
  - (* insertion *)
    destruct (Z_lt_dec (len (c :: value)) 3) as [Hlo | Hlo].
    { unfold SetTypeForKey. rewrite Hpriv, Hk. cbn [Z.eqb Pos.eqb negb isEmpty].
      destruct (Z.ltb_spec (len (c :: value)) 3); [cbn [orb]; eauto | lia]. }
    destruct (Z_lt_dec 8 (len (c :: value))) as [Hhi | Hhi].
    { unfold SetTypeForKey. rewrite Hpriv, Hk. cbn [Z.eqb Pos.eqb negb isEmpty].
      destruct (Z.ltb_spec 8 (len (c :: value))); [rewrite orb_true_r; eauto | lia]. }
    rewrite SetTypeForKey_build by (assumption || lia).
    pose proof (Hscan (fragment key (c :: value))) as Hb.
    destruct (parseExtensions T (fragment key (c :: value))) as [b [e |]]; [eauto |].
    cbn [fst] in Hb.
    destruct (isEmpty (str t)); [eauto |].
    rewrite Hf. cbn [bind].
    assert (Ha : sliceTo (str t) (len x) = Ret x)
      by (rewrite Hs; now apply sliceTo_app).
    assert (Hc : sliceFrom (str t) (len x + len y) = Ret z)
      by (rewrite Hs, app_assoc; apply sliceFrom_app; lens; lia).
    rewrite Ha. cbn [bind]. rewrite Hc. cbn [bind].
    destruct (len x =? len x + len y); [| eauto].
    destruct h; [| cbn [bind]; eauto].
    destruct (slice_total b 2 (len b)) as (b' & Hb'); [| lia |].
    { unfold len. rewrite Hb. unfold fragment. rewrite !length_app. cbn [length]. lia. }
    unfold sliceFrom. rewrite Hb'. cbn [bind]. eauto.
Qed.

(** *** The blocks *)

Lemma nextBoundary_progress (c : ascii) (rem : gostring) (q : Z) :
  c <> dash -> q < nextBoundary (c :: rem) q.
Proof.
  intros Hc. rewrite nextBoundary_skip by assumption.
  pose proof (nextBoundary_range rem (q + 1)). lia.
Qed.

Lemma index_split (s : gostring) (i : Z) (c : ascii) :
  index s i = Ret c -> exists pre r, s = pre ++ c :: r /\ i = len pre.
Proof.
  unfold index. destruct (Z.ltb_spec i 0); [discriminate |].
  destruct (nth_error s (Z.to_nat i)) as [c' |] eqn:Hn; [| discriminate].
  intros [= ->]. apply nth_error_split in Hn as (pre & r & -> & Hl).
  exists pre, r. split; [reflexivity |]. unfold len. lia.
Qed.

Lemma nextExtension_progress (s : gostring) (p : Z) (c : ascii) :
  index s p = Ret c -> c <> dash -> p < nextExtension s p.
Proof.
  intros Hi Hc. destruct (index_split s p c Hi) as (pre & r & -> & ->).
  unfold nextExtension. lens. pose proof (len_nonneg r).
  destruct (Z.leb_spec (len pre + (1 + len r)) (len pre)); [lia |].
  rewrite skipn_len_app by reflexivity. now apply nextBoundary_progress.
Qed.

Lemma getExtension_total (s : gostring) (i : Z) :
  0 <= i < len s - 1 ->
  exists e ext,
    getExtension s i = Ret (e, ext) /\ i < e <= len s /\
    ((forall c, index s i = Ret dash -> index s (i + 1) = Ret c -> c <> dash) ->
     exists c, index ext 0 = Ret c).
Proof.
  intros Hi. unfold getExtension.
  destruct (index_total s i) as (c0 & Hc0); [lia |]. rewrite Hc0. cbn [bind].
  destruct (Ascii.eqb_spec c0 dash) as [-> | Hne].
  - pose proof (nextExtension_range s (i + 1) ltac:(lia)) as Hb.
    destruct (slice_total s (i + 1) (nextExtension s (i + 1))) as (ext & Hext); [lia .. |].
    rewrite Hext. cbn [bind]. exists (nextExtension s (i + 1)), ext.
    split; [reflexivity |]. split; [lia |]. intros Hnd.
    destruct (index_total s (i + 1)) as (c1 & Hc1); [lia |].
    pose proof (nextExtension_progress s (i + 1) c1 Hc1 (Hnd c1 eq_refl Hc1)).
    now apply (slice_nonempty s ext (i + 1) (nextExtension s (i + 1))).
  - pose proof (nextExtension_range s i ltac:(lia)) as Hb.
    pose proof (nextExtension_progress s i c0 Hc0 Hne) as Hp.
    destruct (slice_total s i (nextExtension s i)) as (ext & Hext); [lia .. |].
    rewrite Hext. cbn [bind]. exists (nextExtension s i), ext.
    split; [reflexivity |]. split; [lia |]. intros _.
    now apply (slice_nonempty s ext i (nextExtension s i)).
Qed.

Lemma extensionsLoop_total (s : gostring) :
  forall (fuel : nat) (i : Z) (e : list gostring),
    0 <= i -> (Z.to_nat (len s - i) < fuel)%nat ->
    exists r, extensionsLoop fuel s i e = Ret r.
Proof.
  induction fuel as [| fuel IH]; intros i e Hi Hf; [lia |].
  cbn [extensionsLoop]. destruct (Z.ltb_spec i (len s - 1)); [| eauto].
  destruct (getExtension_total s i ltac:(lia)) as (i' & ext & -> & Hi' & _).
  cbn [bind]. apply IH; lia.
Qed.

Lemma extensionLoop_total (s : gostring) (x : ascii) (i0 : Z) :
  (forall i c, i0 <= i -> index s i = Ret dash -> index s (i + 1) = Ret c -> c <> dash) ->
  forall (fuel : nat) (i : Z),
    0 <= i -> i0 <= i -> (Z.to_nat (len s - i) < fuel)%nat ->
    exists r, extensionLoop fuel s x i = Ret r.
Proof.
  intros Hnd. induction fuel as [| fuel IH]; intros i Hi Hi0 Hf; [lia |].
  cbn [extensionLoop]. destruct (Z.ltb_spec i (len s - 1)); [| eauto].
  destruct (getExtension_total s i ltac:(lia)) as (i' & ext & -> & Hi' & Hext).
  cbn [bind]. destruct (Hext (fun c => Hnd i c Hi0)) as (c & ->). cbn [bind].
  destruct (Ascii.eqb c x); [eauto |]. apply IH; lia.
Qed.

(** The two loops over the blocks end on every tag; [Extensions] returns on
    every tag. *)
Lemma extensionLoop_fuel (s : gostring) (x : ascii) :
  forall (fuel : nat) (i : Z),
    0 <= i -> (Z.to_nat (len s - i) < fuel)%nat -> extensionLoop fuel s x i <> OutOfFuel.
Proof.
  induction fuel as [| fuel IH]; intros i Hi Hf; [lia |].
  cbn [extensionLoop]. destruct (Z.ltb_spec i (len s - 1)); [| discriminate].
  destruct (getExtension_total s i ltac:(lia)) as (i' & ext & -> & Hi' & _).
  cbn [bind]. pose proof (index_fuel ext 0) as Hx.
  destruct (index ext 0) as [c | |]; cbn [bind]; [| discriminate | contradiction].
  destruct (Ascii.eqb c x); [discriminate |]. apply IH; lia.
Qed.

Lemma Extension_fuel (t : Tag) (x : ascii) : 0 <= pExt t -> Extension t x <> OutOfFuel.
Proof.
  intros Hp. unfold Extension. apply extensionLoop_fuel; [exact Hp |]. unfold len. lia.
Qed.

Lemma Extensions_total (t : Tag) : 0 <= pExt t -> exists r, Extensions t = Ret r.
Proof.
  intros Hp. unfold Extensions. apply extensionsLoop_total; [exact Hp |]. unfold len. lia.
Qed.

(** *** No two dashes in a row in the suffix of a valid tag *)

Lemma noDashPair_cons (a b : ascii) (tl : gostring) :
  ~ (a = dash /\ b = dash) -> noDashPair (b :: tl) -> noDashPair (a :: b :: tl).
Proof. intros H1 H2. exact (conj H1 H2). Qed.

Lemma noDashPair_nodash (w r : gostring) :
  nodash w -> noDashPair r -> noDashPair (w ++ r).
Proof.
  induction w as [| a w IH]; intros Hn Hr; [exact Hr |].
  inversion Hn as [| ? ? Ha Hn']; subst x l. specialize (IH Hn' Hr).
  cbn [app]. destruct (w ++ r) eqn:E; [exact I |].
  apply noDashPair_cons; [intros (Hd & _); contradiction | exact IH].
Qed.

Lemma noDashPair_joinTokens (ws : list gostring) (r : gostring) :
  Forall (fun w => nodash w /\ w <> []) ws -> noDashPair r ->
  noDashPair (joinTokens ws ++ r).
Proof.
  induction ws as [| w ws IH]; intros Hall Hr; [exact Hr |].
  inversion Hall as [| ? ? (Hn & Hne) Hall']; subst x l. specialize (IH Hall' Hr).
  rewrite joinTokens_cons. destruct w as [| a w]; [congruence |].
  inversion Hn as [| ? ? Ha Hn']; subst x l.
  replace ((dash :: (a :: w) ++ joinTokens ws) ++ r)
    with (dash :: a :: (w ++ joinTokens ws ++ r)) by eqapp.
  apply noDashPair_cons; [intros (_ & Hd); contradiction |].
  change (a :: w ++ joinTokens ws ++ r) with ((a :: w) ++ joinTokens ws ++ r).
  now apply noDashPair_nodash.
Qed.

Lemma token_nonempty (lo hi : nat) (ws : list gostring) :
  (1 <= lo)%nat -> Forall (token lo hi) ws -> Forall (fun w => nodash w /\ w <> []) ws.
Proof.
  intros Hlo. apply Forall_impl. intros w [Hn Hl]. split; [exact Hn |].
  intros ->. cbn in Hl. lia.
Qed.

Lemma noDashPair_renderKeywords (kws : list keyword) (r : gostring) :
  Forall keywordOk kws -> noDashPair r -> noDashPair (renderKeywords kws ++ r).
Proof.
  induction kws as [| kw kws IH]; intros Hall Hr; [exact Hr |].
  inversion Hall as [| ? ? (Hk & _ & Ht) Hall']; subst x l. specialize (IH Hall' Hr).
  rewrite renderKeywords_cons. unfold renderKeyword.
  change (dash :: fst kw ++ joinTokens (snd kw)) with (joinTokens (fst kw :: snd kw)).
  rewrite <- app_assoc. apply noDashPair_joinTokens; [| exact IH].
  apply (token_nonempty 2 8); [lia |]. constructor.
  - destruct Hk as [Hn Hl]. split; [exact Hn | lia].
  - revert Ht. apply Forall_impl. intros w [Hn Hl]. split; [exact Hn | lia].
Qed.

Lemma noDashPair_renderExts (es : list ext) :
  Forall extOk es -> noDashPair (renderExts es).
Proof.
  induction es as [| e es IH]; intros Hall; [exact I |].
  inversion Hall as [| ? ? He Hall']; subst x l. specialize (IH Hall').
  rewrite renderExts_cons. destruct e as [attrs kws | ty toks]; cbn [renderExt extOk] in *.
  - destruct He as (Ha & Hk & _).
    change (dash :: "u"%char :: joinTokens attrs ++ renderKeywords kws)
      with (joinTokens (["u"%char] :: attrs) ++ renderKeywords kws).
    rewrite <- app_assoc. apply noDashPair_joinTokens.
    + constructor; [split; [repeat constructor |]; discriminate |].
      now apply (token_nonempty 3 8); [lia |].
    + now apply noDashPair_renderKeywords.
  - destruct He as (Hty & _ & _ & Ht).
    change (dash :: ty :: joinTokens toks) with (joinTokens ([ty] :: toks)).
    apply noDashPair_joinTokens; [| exact IH].
    constructor; [split; [now repeat constructor | discriminate] |].
    destruct (Ascii.eqb ty "x"); [now apply (token_nonempty 1 8) |].
    now apply (token_nonempty 2 8); [lia |].
Qed.

Lemma noDashPair_index (suf : gostring) :
  forall (pre s : gostring) (i : Z) (c : ascii),
    s = pre ++ suf -> noDashPair suf -> len pre <= i ->
    index s i = Ret dash -> index s (i + 1) = Ret c -> c <> dash.
Proof.
  induction suf as [| a suf IH]; intros pre s i c Hs Hnd Hi Hd Hc.
  - apply index_split in Hd as (p1 & r1 & Hs1 & ->). subst s.
    apply (f_equal len) in Hs1. lens. pose proof (len_nonneg r1). lia.
  - destruct (Z.eq_dec i (len pre)) as [-> | Hne].
    + subst s. rewrite index_here in Hd by reflexivity. rewrite index_0 in Hd.
      injection Hd as ->.
      destruct suf as [| b suf].
      * apply index_split in Hc as (p1 & r1 & Hs1 & Hl).
        apply (f_equal len) in Hs1. lens. pose proof (len_nonneg r1). lia.
      * rewrite index_app_r in Hc by (reflexivity || lia). rewrite index_1 in Hc.
        injection Hc as ->. destruct Hnd as (Hnd & _). intros ->. now apply Hnd.
    + apply (IH (pre ++ [a]) s i c); try assumption.
      * subst s. eqapp.
      * destruct suf; [exact I | apply Hnd].
      * lens. lia.
Qed.

Lemma noDashPair_valid (T : IdentifierTables) (t : Tag) :
  validTag T t ->
  0 <= pExt t /\
  forall i c, pExt t <= i -> index (str t) i = Ret dash -> index (str t) (i + 1) = Ret c ->
              c <> dash.
Proof.
  intros [Hs _ Hp | toks Hs _ Ht _ Hp
         | variants es (Hs & _ & He & _ & _ & _ & _ & Hok & _ & _)].
  - split; [lia |]. intros i c _ Hd. rewrite Hs in Hd. apply index_split in Hd as (p & r & E & _).
    destruct p; discriminate E.
  - split; [lia |]. intros i c Hi. rewrite Hp in Hi.
    apply (noDashPair_index (str t) []); [reflexivity | | exact Hi].
    rewrite Hs. change ("x"%char :: joinTokens toks) with (["x"%char] ++ joinTokens toks).
    apply noDashPair_nodash; [repeat constructor; discriminate |].
    rewrite <- (app_nil_r (joinTokens toks)).
    apply noDashPair_joinTokens; [| exact I]. now apply (token_nonempty 1 8).
  - pose proof (len_nonneg (coreString T t)). pose proof (len_nonneg (joinTokens variants)).
    split; [lia |]. intros i c Hi.
    apply (noDashPair_index (renderExts es) (coreString T t ++ joinTokens variants)).
    + rewrite Hs. eqapp.
    + now apply noDashPair_renderExts.
    + lens. lia.
Qed.

Lemma Extension_valid (T : IdentifierTables) (t : Tag) (x : ascii) :
  validTag T t -> exists r, Extension t x = Ret r.
Proof.
  intros Hvalid. destruct (noDashPair_valid T t Hvalid) as (Hp & Hnd).
  unfold Extension. apply (extensionLoop_total (str t) x (pExt t) Hnd); try lia.
  unfold len. lia.
Qed.

Lemma Extensions_valid (T : IdentifierTables) (t : Tag) :
  validTag T t -> exists r, Extensions t = Ret r.
Proof.
  intros Hvalid. destruct (noDashPair_valid T t Hvalid) as (Hp & _).
  now apply Extensions_total.
Qed.

(** C9.  On every valid tag, with codes of the sizes of the tables and a
    scanner that works in place, and for every key, value and extension
    type, [findTypeForKey], [TypeForKey], [SetTypeForKey], [Extension] and
    [Extensions] return: no index or slice expression is out of range, and
    the positions that [findTypeForKey] returns lie inside the string. *)
Theorem valid_tag_no_panic (T : IdentifierTables) (t : Tag) (key value : gostring)
        (x : ascii) :
  codesOk T -> scannerInPlace T -> validTag T t ->
  (exists start end_ hasExt,
      findTypeForKey t key = Ret (start, end_, hasExt) /\
      0 <= start <= end_ /\ end_ <= len (str t)) /\
  (exists v, TypeForKey t key = Ret v) /\
  (exists r, SetTypeForKey T t key value = Ret r) /\
  (exists r, Extension t x = Ret r) /\
  (exists r, Extensions t = Ret r).
Proof.
  intros Hcodes Hscan Hvalid. split; [| split; [| split; [| split]]].
  - destruct (findTypeForKey_valid T t key Hvalid) as (a & y & z & h & Hf & Hs & _).
    exists (len a), (len a + len y), h. split; [exact Hf |].
    pose proof (len_nonneg a). pose proof (len_nonneg y). pose proof (len_nonneg z).
    rewrite Hs. lens. lia.
  - exact (TypeForKey_valid T t key Hvalid).
  - exact (SetTypeForKey_valid T t key value Hcodes Hscan Hvalid).
  - exact (Extension_valid T t x Hvalid).
  - exact (Extensions_valid T t Hvalid).
Qed.

Lemma valid_tag_no_panic_witness :
  (exists start end_ hasExt,
      findTypeForKey enXyzPhonebk (lit "co") = Ret (start, end_, hasExt) /\
      0 <= start <= end_ /\ end_ <= len (str enXyzPhonebk)) /\
  (exists v, TypeForKey enXyzPhonebk (lit "co") = Ret v) /\
  (exists r, SetTypeForKey sampleTables enXyzPhonebk (lit "co") (lit "pinyin") = Ret r) /\
  (exists r, Extension enXyzPhonebk "u" = Ret r) /\
  (exists r, Extensions enXyzPhonebk = Ret r).
Proof.
  apply (valid_tag_no_panic sampleTables enXyzPhonebk (lit "co") (lit "pinyin") "u").
  - exact codesOk_sample.
  - exact scannerInPlace_sample.
  - exact (validSuffix _ _ _ _ hasSuffix_enXyzPhonebk).
Defined.

(** * Further properties *)

(** ** The suffix of a valid tag *)

Lemma suffix_dash (variants : list gostring) (es : list ext) :
  variants <> [] \/ es <> [] -> Forall (fun v => nodash v /\ v <> []) variants ->
  exists c extra, joinTokens variants ++ renderExts es = dash :: c :: extra.
Proof.
  intros Hne Hvar. destruct variants as [| w ws].
  - destruct es as [| e es]; [destruct Hne; congruence |].
    rewrite renderExts_cons. destruct e; cbn [renderExt joinTokens map concat app]; eauto.
  - inversion Hvar as [| ? ? (_ & Hw) _]; subst x l.
    destruct w as [| c w]; [congruence |]. rewrite joinTokens_cons. cbn [app]. eauto.
Qed.

Lemma app_cons_nonempty (pre : gostring) (c : ascii) (r : gostring) :
  pre ++ c :: r <> [].
Proof. destruct pre; discriminate. Qed.

(** ** The tokens of the variants *)

Lemma stringsIndex_nodash (w : gostring) : nodash w -> stringsIndex w dash = -1.
Proof.
  induction w as [| c w IH]; intros H; cbn [stringsIndex]; [reflexivity |].
  inversion H as [| ? ? Hc Hw]; subst x l.
  rewrite (eqb_dash_false c Hc), (IH Hw). reflexivity.
Qed.

Lemma stringsIndex_dash (w rest : gostring) :
  nodash w -> stringsIndex (w ++ dash :: rest) dash = len w.
Proof.
  induction w as [| c w IH]; intros H; cbn [app stringsIndex].
  - now rewrite Ascii.eqb_refl.
  - inversion H as [| ? ? Hc Hw]; subst x l.
    rewrite (eqb_dash_false c Hc), (IH Hw). lens. pose proof (len_nonneg w).
    destruct (Z.eqb_spec (len w) (-1)); lia.
Qed.

(** Every string splits at its first dash. *)
Lemma split_at_dash (s : gostring) :
  exists w tail, s = w ++ tail /\ nodash w /\ dashOrEnd tail.
Proof.
  induction s as [| c s (w & tail & -> & Hn & Ht)].
  - exists [], []. repeat split; [constructor | now left].
  - destruct (Ascii.eqb_spec c dash) as [-> | Hc].
    + exists [], (dash :: w ++ tail). repeat split; [constructor | right; eauto].
    + exists (c :: w), tail. repeat split; [now constructor | assumption].
Qed.

Lemma nextToken_split (c : ascii) (w tail : gostring) :
  nodash w -> dashOrEnd tail -> nextToken (c :: w ++ tail) = Ret (w, tail).
Proof.
  intros Hn Ht. unfold nextToken.
  change (c :: w ++ tail) with ([c] ++ w ++ tail).
  rewrite sliceFrom_app by reflexivity. cbn [bind].
  destruct Ht as [-> | (r & ->)].
  - now rewrite app_nil_r, stringsIndex_nodash.
  - rewrite stringsIndex_dash by assumption. pose proof (len_nonneg w).
    destruct (Z.eqb_spec (len w) (-1)); [lia |].
    rewrite (slice_mid [c] w (dash :: r)) by (lens; lia). cbn [bind].
    rewrite app_assoc, sliceFrom_app by (lens; lia). reflexivity.
Qed.

(** [nextToken] panics on the empty string.  On any other string it drops
    the first byte and splits the rest at its first dash: the token holds no
    dash, and the tail is empty or starts with the dash that ended the
    token. *)
Theorem nextToken_spec (c : ascii) (r : gostring) :
  nextToken [] = Panic /\
  exists t tail,
    nextToken (c :: r) = Ret (t, tail) /\ r = t ++ tail /\ nodash t /\
    (tail = [] \/ exists r', tail = dash :: r').
Proof.
  split; [reflexivity |].
  destruct (split_at_dash r) as (w & tail & -> & Hn & Ht).
  exists w, tail. split; [now apply nextToken_split |]. now repeat split.
Qed.

Lemma variantsLoop_tokens (ws : list gostring) :
  forall (fuel : nat) (v : list Variant),
    Forall nodash ws -> (length (joinTokens ws) < fuel)%nat ->
    variantsLoop fuel (joinTokens ws) v = Ret (v ++ map mkVariant ws).
Proof.
  induction ws as [| w ws IH]; intros fuel v Hn Hf;
    (destruct fuel as [| fuel]; [lia |]).
  - cbn. now rewrite app_nil_r.
  - inversion Hn as [| ? ? Hw Hws]; subst x l.
    rewrite joinTokens_cons in *. cbn [variantsLoop isEmpty negb].
    rewrite nextToken_split;
      [| assumption | rewrite <- (app_nil_r (joinTokens ws));
                      apply dashOrEnd_joinTokens; now left].
    cbn [bind]. rewrite IH; [| assumption | cbn [length] in Hf; rewrite length_app in Hf; lia].
    cbn [map]. now rewrite <- app_assoc.
Qed.

Lemma variantsLoop_join :
  forall (fuel : nat) (c : ascii) (r : gostring) (v : list Variant),
    (length (c :: r) < fuel)%nat ->
    exists vs,
      variantsLoop fuel (c :: r) v = Ret (v ++ vs) /\
      joinTokens (map Variant_String vs) = dash :: r /\
      Forall (fun x => nodash (Variant_String x)) vs.
Proof.
  induction fuel as [| fuel IH]; intros c r v Hf; [lia |].
  destruct (split_at_dash r) as (w & tail & -> & Hn & Ht).
  cbn [variantsLoop isEmpty negb]. rewrite nextToken_split by assumption. cbn [bind].
  destruct Ht as [-> | (r' & ->)].
  - exists [mkVariant w]. destruct fuel as [| fuel]; [cbn [length] in Hf; lia |].
    cbn [variantsLoop isEmpty negb]. split; [reflexivity |].
    split; [reflexivity | now repeat constructor].
  - destruct (IH dash r' (v ++ [mkVariant w])) as (vs & -> & Hj & Hall).
    { cbn [length] in *. rewrite length_app in Hf. cbn [length] in Hf. lia. }
    exists (mkVariant w :: vs). split; [now rewrite <- app_assoc |].
    split; [| now constructor].
    cbn [map]. rewrite joinTokens_cons, Hj. reflexivity.
Qed.

Lemma slice_length (s seg : gostring) (lo hi : Z) :
  slice s lo hi = Ret seg -> len seg = hi - lo.
Proof.
  unfold slice. destruct (Z.leb_spec 0 lo); [| discriminate].
  destruct (Z.leb_spec lo hi); [| discriminate].
  destruct (Z.leb_spec hi (len s)); [| discriminate]. cbn [andb].
  intros [= <-]. unfold len in *. rewrite length_firstn, length_skipn. lia.
Qed.

(** On every tag whose offsets lie in the string, [Variants] returns; the
    segment between the offsets, without its first byte, is cut at its
    dashes: no variant holds a dash, and joined by dashes the variants give
    the segment back.  With no room between the offsets there is no
    variant. *)
Theorem Variants_join (t : Tag) :
  (pExt t <= pVariant t -> Variants t = Ret []) /\
  (0 <= pVariant t < pExt t -> pExt t <= len (str t) ->
   exists vs seg,
     Variants t = Ret vs /\ slice (str t) (pVariant t) (pExt t) = Ret seg /\
     joinTokens (map Variant_String vs) = dash :: tl seg /\
     Forall (fun v => nodash (Variant_String v)) vs).
Proof.
  unfold Variants. split.
  - intros H. destruct (Z.ltb_spec (pVariant t) (pExt t)); [lia | reflexivity].
  - intros Hv He. destruct (Z.ltb_spec (pVariant t) (pExt t)); [| lia].
    destruct (slice_total (str t) (pVariant t) (pExt t)) as (seg & Hseg); [lia .. |].
    rewrite Hseg. cbn [bind]. pose proof (slice_length _ _ _ _ Hseg) as Hl.
    destruct seg as [| c r]; [cbn in Hl; lia |].
    destruct (variantsLoop_join (S (length (c :: r))) c r []) as (vs & Hvs & Hj & Hall);
      [lia |].
    exists vs, (c :: r). rewrite Hvs. now repeat split.
Qed.

(** [de-1996-u-co-phonebk] has the variant [1996]. *)
Lemma Variants_join_witness :
  exists vs seg,
    Variants de1996Phonebk = Ret vs /\ slice (str de1996Phonebk) 2 7 = Ret seg /\
    joinTokens (map Variant_String vs) = dash :: tl seg /\
    Forall (fun v => nodash (Variant_String v)) vs.
Proof.
  destruct (Variants_join de1996Phonebk) as (_ & H). apply H; cbn; lia.
Defined.

Lemma Variants_suffix (T : IdentifierTables) (t : Tag) (variants : list gostring)
      (es : list ext) :
  hasSuffix T t variants es -> Variants t = Ret (map mkVariant variants).
Proof.
  intros (Hs & Hv & He & Hpos & _ & _ & Hvar & _).
  unfold Variants. rewrite Hv, He.
  pose proof (len_nonneg (joinTokens variants)) as Hj.
  destruct (Z.ltb_spec (len (coreString T t)) (len (coreString T t) + len (joinTokens variants)))
    as [Hlt | Hge].
  - rewrite Hs, slice_mid by reflexivity. cbn [bind].
    apply (variantsLoop_tokens variants _ []); [| lia].
    revert Hvar. apply Forall_impl. now intros w [Hn _].
  - assert (E : joinTokens variants = []) by (apply len_zero; lia).
    destruct variants as [| w ws]; [reflexivity | discriminate E].
Qed.

(** On a valid tag [Variants] returns the variants of the layout, in their
    order: none for a tag without a suffix, for a private use tag, and for
    a suffix that has extensions only. *)
Theorem Variants_layout (T : IdentifierTables) (t : Tag) :
  validTag T t ->
  exists vs,
    Variants t = Ret vs /\
    (forall variants es, hasSuffix T t variants es -> vs = map mkVariant variants) /\
    (pExt t = pVariant t -> vs = []).
Proof.
  intros Hvalid.
  assert (Hnone : pExt t = pVariant t -> Variants t = Ret []).
  { intros E. unfold Variants. rewrite E. now rewrite Z.ltb_irrefl. }
  destruct Hvalid as [Hs Hv Hp | toks Hs _ _ Hv Hp | variants es Hsuf].
  - exists []. split; [apply Hnone; lia |]. split; [| reflexivity].
    intros variants es (Hs' & _ & _ & _ & _ & Hne & Hvar & _). exfalso.
    destruct (suffix_dash variants es Hne Hvar) as (c & extra & Hd).
    rewrite Hs, Hd in Hs'. symmetry in Hs'. now apply app_cons_nonempty in Hs'.
  - exists []. split; [apply Hnone; lia |]. split; [| reflexivity].
    intros variants es (_ & _ & _ & Hpos & _). lia.
  - exists (map mkVariant variants). split; [exact (Variants_suffix T t _ _ Hsuf) |]. split.
    + intros variants' es' Hsuf'. pose proof (Variants_suffix T t _ _ Hsuf') as H.
      rewrite (Variants_suffix T t _ _ Hsuf) in H. now injection H.
    + intros E. pose proof (Hnone E) as H.
      rewrite (Variants_suffix T t _ _ Hsuf) in H. now injection H.
Qed.

Lemma hasSuffix_de1996Phonebk :
  hasSuffix sampleTables de1996Phonebk [lit "1996"] [ExtU [] [(lit "co", [lit "phonebk"])]].
Proof. sample_suffix. Defined.

Lemma Variants_layout_witness : Variants de1996Phonebk = Ret [mkVariant (lit "1996")].
Proof.
  destruct (Variants_layout sampleTables de1996Phonebk
              (validSuffix _ _ _ _ hasSuffix_de1996Phonebk)) as (vs & Hvs & Hlayout & _).
  now rewrite Hvs, (Hlayout _ _ hasSuffix_de1996Phonebk).
Defined.

(** ** The type and the tokens of an extension *)

Lemma stringsSplit_join (s : gostring) :
  joinTokens (stringsSplit s dash) = dash :: s /\ Forall nodash (stringsSplit s dash).
Proof.
  induction s as [| c s (IHj & IHn)]; cbn [stringsSplit].
  - split; [reflexivity | repeat constructor].
  - destruct (Ascii.eqb_spec c dash) as [-> | Hc].
    + split; [now rewrite joinTokens_cons, IHj | constructor; [constructor | assumption]].
    + destruct (stringsSplit s dash) as [| w ws]; [discriminate IHj |].
      rewrite joinTokens_cons in *. injection IHj as IHj.
      inversion IHn as [| ? ? Hw Hws]; subst x l.
      split; [cbn [app]; now rewrite IHj | constructor; [now constructor | assumption]].
Qed.

Lemma stringsSplit_token (w : gostring) :
  nodash w ->
  stringsSplit w dash = [w] /\
  forall r, stringsSplit (w ++ dash :: r) dash = w :: stringsSplit r dash.
Proof.
  induction w as [| c w IH]; intros Hn.
  - split; [reflexivity |]. intros r. cbn [app stringsSplit]. now rewrite Ascii.eqb_refl.
  - inversion Hn as [| ? ? Hc Hw]; subst x l. destruct (IH Hw) as (IH1 & IH2).
    split; [| intros r]; cbn [app stringsSplit]; rewrite (eqb_dash_false c Hc).
    + now rewrite IH1.
    + now rewrite IH2.
Qed.

Lemma stringsSplit_tokens (ws : list gostring) :
  forall w, Forall nodash (w :: ws) ->
            stringsSplit (tl (joinTokens (w :: ws))) dash = w :: ws.
Proof.
  induction ws as [| w' ws IH]; intros w H; inversion H as [| ? ? Hw Hws]; subst x l;
    rewrite joinTokens_cons; cbn [tl].
  - cbn [joinTokens map concat]. rewrite app_nil_r. now apply stringsSplit_token.
  - rewrite joinTokens_cons. destruct (stringsSplit_token w Hw) as (_ & ->).
    f_equal. apply (IH w' Hws).
Qed.

(** [Tokens] cuts the extension at its dashes: no token holds a dash, and
    joined by dashes the tokens give the string of the extension back.  The
    other way round, tokens without a dash that are joined by dashes are
    the [Tokens] of the result; so the tokens of a block of the layout are
    its type followed by its tokens, and [Type] is the first byte of the
    first token. *)
Theorem Extension_Tokens_join (e : gostring) :
  joinTokens (Extension_Tokens e) = dash :: Extension_String e /\
  Forall nodash (Extension_Tokens e) /\
  (forall w ws, Forall nodash (w :: ws) -> e = tl (joinTokens (w :: ws)) ->
                Extension_Tokens e = w :: ws) /\
  (forall ty toks, Forall nodash toks -> ty <> dash ->
                   e = tl (renderExt (ExtOther ty toks)) ->
                   Extension_Tokens e = [ty] :: toks /\ Extension_Type e = ty).
Proof.
  unfold Extension_Tokens, Extension_String.
  destruct (stringsSplit_join e) as (Hj & Hn).
  split; [exact Hj |]. split; [exact Hn |]. split.
  - intros w ws Hall ->. now apply stringsSplit_tokens.
  - intros ty toks Hall Hty ->. split; [| reflexivity].
    change (renderExt (ExtOther ty toks)) with (joinTokens ([ty] :: toks)).
    apply stringsSplit_tokens. constructor; [| assumption]. now repeat constructor.
Qed.

(** The tokens of [a-xyz] *)
Lemma Extension_Tokens_join_witness :
  Extension_Tokens (lit "a-xyz") = [lit "a"; lit "xyz"] /\
  Extension_Type (lit "a-xyz") = "a"%char.
Proof.
  destruct (Extension_Tokens_join (lit "a-xyz")) as (_ & _ & _ & H).
  apply (H "a"%char [lit "xyz"]).
  - repeat constructor; discriminate.
  - discriminate.
  - reflexivity.
Defined.

Lemma extensionLoop_type (s : gostring) (x : ascii) :
  forall (fuel : nat) (i : Z) (e : gostring) (ok : bool),
    extensionLoop fuel s x i = Ret (e, ok) ->
    if ok then index e 0 = Ret x else e = [].
Proof.
  induction fuel as [| fuel IH]; intros i e ok H; [discriminate H |].
  cbn [extensionLoop] in H. destruct (i <? len s - 1).
  - destruct (getExtension s i) as [[i' ext] | |]; cbn [bind] in H; try discriminate H.
    destruct (index ext 0) as [c | |] eqn:Hc; cbn [bind] in H; try discriminate H.
    destruct (Ascii.eqb_spec c x) as [-> | Hne].
    + now injection H as <- <-.
    + now apply (IH i').
  - now injection H as <- <-.
Qed.

(** Whatever the tag, an extension that [Extension] returns with [ok] is not
    empty and has the type that was asked for; without [ok] it is the empty
    extension, of type 0. *)
Theorem Extension_has_type (t : Tag) (x : ascii) (e : gostring) (ok : bool) :
  Extension t x = Ret (e, ok) ->
  if ok then e <> [] /\ Extension_Type e = x
  else e = [] /\ Extension_Type e = zero.
Proof.
  intros H. apply extensionLoop_type in H. destruct ok.
  - destruct e as [| c e]; [discriminate H |]. injection H as ->.
    split; [discriminate | reflexivity].
  - subst e. now split.
Qed.

Lemma Extension_has_type_witness :
  lit "u-co-phonebk" <> [] /\ Extension_Type (lit "u-co-phonebk") = "u"%char.
Proof.
  apply (Extension_has_type enXyzPhonebk "u" (lit "u-co-phonebk") true). reflexivity.
Defined.

(** The two loops over the blocks go the same way. *)
Lemma extensionLoops_agree (s : gostring) (x : ascii) :
  forall (fuel : nat) (i : Z) (acc r : list gostring),
    extensionsLoop fuel s i acc = Ret r ->
    exists rest,
      r = acc ++ rest /\
      (Forall (fun e => e <> []) rest ->
       extensionLoop fuel s x i
       = Ret (match find (fun e => Ascii.eqb (Extension_Type e) x) rest with
              | Some e => (e, true)
              | None => ([], false)
              end)).
Proof.
  induction fuel as [| fuel IH]; intros i acc r H; [discriminate H |].
  cbn [extensionsLoop extensionLoop] in *. destruct (i <? len s - 1).
  - destruct (getExtension s i) as [[i' ext] | |]; cbn [bind] in *; try discriminate H.
    destruct (IH i' (acc ++ [ext]) r H) as (rest & -> & Hrest).
    exists (ext :: rest). split; [now rewrite <- app_assoc |].
    intros Hall. inversion Hall as [| ? ? Hext Hall']; subst x0 l.
    destruct ext as [| c ext]; [congruence |].
    rewrite index_0. cbn [bind find Extension_Type].
    destruct (Ascii.eqb c x); [reflexivity | now apply Hrest].
  - injection H as <-. exists []. split; [now rewrite app_nil_r | reflexivity].
Qed.

Lemma extensionsLoop_nonempty (s : gostring) (i0 : Z) :
  (forall i c, i0 <= i -> index s i = Ret dash -> index s (i + 1) = Ret c -> c <> dash) ->
  forall (fuel : nat) (i : Z) (acc r : list gostring),
    0 <= i -> i0 <= i -> extensionsLoop fuel s i acc = Ret r ->
    Forall (fun e => e <> []) acc -> Forall (fun e => e <> []) r.
Proof.
  intros Hnd. induction fuel as [| fuel IH]; intros i acc r Hi Hi0 H Hacc; [discriminate H |].
  cbn [extensionsLoop] in H. destruct (Z.ltb_spec i (len s - 1)).
  - destruct (getExtension_total s i ltac:(lia)) as (i' & ext & Hg & Hi' & Hext).
    rewrite Hg in H. cbn [bind] in H.
    apply (IH i' (acc ++ [ext]) r); try lia; [exact H |].
    apply Forall_app. split; [exact Hacc |]. constructor; [| constructor].
    destruct (Hext (fun c => Hnd i c Hi0)) as (c & Hc). intros ->. discriminate Hc.
  - now injection H as <-.
Qed.

(** On a valid tag [Extension] returns the first of the [Extensions] that
    has the type asked for, and the empty extension without [ok] when there
    is none. *)
Theorem Extension_Extensions (T : IdentifierTables) (t : Tag) (x : ascii) :
  validTag T t ->
  exists es,
    Extensions t = Ret es /\
    Extension t x
    = Ret (match find (fun e => Ascii.eqb (Extension_Type e) x) es with
           | Some e => (e, true)
           | None => ([], false)
           end).
Proof.
  intros Hvalid. destruct (noDashPair_valid T t Hvalid) as (Hp & Hnd).
  destruct (Extensions_total t Hp) as (es & Hes). exists es. split; [exact Hes |].
  unfold Extensions, Extension in *.
  destruct (extensionLoops_agree (str t) x _ _ _ _ Hes) as (rest & Hr & Hagree).
  cbn [app] in Hr. subst rest. apply Hagree.
  apply (extensionsLoop_nonempty (str t) (pExt t) Hnd _ _ [] es Hp (Z.le_refl _) Hes).
  constructor.
Qed.

Lemma Extension_Extensions_witness :
  exists es,
    Extensions enXyzPhonebk = Ret es /\
    Extension enXyzPhonebk "u"
    = Ret (match find (fun e => Ascii.eqb (Extension_Type e) "u") es with
           | Some e => (e, true)
           | None => ([], false)
           end).
Proof.
  apply (Extension_Extensions sampleTables enXyzPhonebk "u").
  exact (validSuffix _ _ _ _ hasSuffix_enXyzPhonebk).
Defined.

(** ** Remaking the string *)

Lemma core_in_buffer (T : IdentifierTables) (t : Tag) :
  codesOk T ->
  (r <- genCoreBytes T t (newBuf max99thPercentileSize) ;;
   let '(n, buf) := r in sliceTo buf n) = Ret (coreString T t).
Proof.
  intros Hok. unfold newBuf, max99thPercentileSize. change (Z.to_nat 32) with 32%nat.
  rewrite genCoreBytes_buffer by (assumption || lia). cbn [bind].
  now apply sliceTo_app.
Qed.

Lemma remakeString_extra (T : IdentifierTables) (t : Tag) (extra : gostring) :
  codesOk T -> str t <> [] ->
  (extra <- sliceFrom (str t) (pVariant t) ;;
   if 0 <? pVariant t then sliceFrom extra 1 else Ret extra) = Ret extra ->
  remakeString T t = Ret (remade T t extra).
Proof.
  intros Hok Hne Hextra. unfold remakeString, remade.
  destruct (str t) as [| c0 s0] eqn:Hs; [congruence |]. cbn [isEmpty]. rewrite <- Hs in *.
  destruct (sliceFrom (str t) (pVariant t)) as [e0 | |]; cbn [bind] in *;
    try discriminate Hextra.
  rewrite Hextra. cbn [bind].
  destruct (equalTags t und && hasPrefix extra (lit "x-")); [reflexivity |].
  pose proof (core_in_buffer T t Hok) as Hcore.
  destruct (genCoreBytes T t (newBuf max99thPercentileSize)) as [[n buf] | |];
    cbn [bind] in *; try discriminate Hcore.
  rewrite Hcore. cbn [bind]. now destruct (isEmpty extra).
Qed.

Lemma extra_after (t : Tag) (pre extra : gostring) (c : ascii) :
  str t = pre ++ c :: extra -> pVariant t = len pre -> 0 < len pre ->
  (extra <- sliceFrom (str t) (pVariant t) ;;
   if 0 <? pVariant t then sliceFrom extra 1 else Ret extra) = Ret extra.
Proof.
  intros Hs Hv Hpos. rewrite Hs, Hv, sliceFrom_app by reflexivity. cbn [bind].
  destruct (Z.ltb_spec 0 (len pre)); [| lia].
  now apply (sliceFrom_app [c] extra).
Qed.

Lemma extra_whole (t : Tag) :
  pVariant t = 0 ->
  (extra <- sliceFrom (str t) (pVariant t) ;;
   if 0 <? pVariant t then sliceFrom extra 1 else Ret extra) = Ret (str t).
Proof.
  intros Hv. rewrite Hv. rewrite (sliceFrom_app [] (str t)) by reflexivity. reflexivity.
Qed.

(** [remakeString] returns on a tag without string, which it leaves as it
    is, and on a tag whose [pVariant] lies inside the string.  On every
    other tag it panics: with [pVariant] past the end of the string in the
    slice [t.str[t.pVariant:]], with [pVariant] at the end in the slice
    [extra[1:]] of the empty string. *)
Theorem remakeString_returns (T : IdentifierTables) (t : Tag) :
  0 <= pVariant t ->
  (str t = [] -> remakeString T t = Ret t) /\
  ((exists t', remakeString T t = Ret t') <-> (str t = [] \/ pVariant t < len (str t))) /\
  (str t <> [] -> len (str t) <= pVariant t -> remakeString T t = Panic).
Proof.
  intros Hv.
  assert (Hempty : str t = [] -> remakeString T t = Ret t).
  { intros Hs. unfold remakeString. now rewrite Hs. }
  assert (Hpanic : str t <> [] -> len (str t) <= pVariant t -> remakeString T t = Panic).
  { intros Hne Hge. unfold remakeString.
    destruct (str t) as [| c0 s0] eqn:Hs; [congruence |]. cbn [isEmpty]. rewrite <- Hs in *.
    unfold sliceFrom at 1. unfold slice at 1.
    destruct (Z.leb_spec 0 (pVariant t)); [| lia].
    destruct (Z.leb_spec (pVariant t) (len (str t))); [| reflexivity].
    rewrite Z.leb_refl. cbn [andb bind].
    assert (E : pVariant t = len (str t)) by lia. rewrite E.
    replace (len (str t) - len (str t)) with 0 by lia. cbn [Z.to_nat firstn].
    destruct (Z.ltb_spec 0 (len (str t))); [reflexivity |].
    rewrite Hs in *. lens. pose proof (len_nonneg s0). lia. }
  split; [exact Hempty |]. split; [| exact Hpanic]. split.
  - intros (t' & Ht').
    destruct (Z_lt_le_dec (pVariant t) (len (str t))) as [Hlt | Hge]; [now right | left].
    destruct (str t) as [| c0 s0] eqn:Hs; [reflexivity | exfalso].
    rewrite Hpanic in Ht'; [discriminate Ht' | discriminate | exact Hge].
  - intros [Hs | Hlt]; [eauto |].
    unfold remakeString. destruct (isEmpty (str t)); [eauto |].
    destruct (slice_total (str t) (pVariant t) (len (str t))) as (e0 & He0); [lia .. |].
    unfold sliceFrom at 1. rewrite He0. cbn [bind].
    pose proof (slice_length _ _ _ _ He0) as Hl0.
    assert (Hextra : exists extra,
               (if 0 <? pVariant t then sliceFrom e0 1 else Ret e0) = Ret extra).
    { destruct (0 <? pVariant t); [| eauto]. apply slice_total; lia. }
    destruct Hextra as (extra & ->). cbn [bind].
    destruct (equalTags t und && hasPrefix extra (lit "x-")); [eauto |].
    destruct (genCoreBytes_total T t (newBuf max99thPercentileSize))
      as (n & buf & -> & Hn & Hb).
    cbn [bind]. destruct (slice_total buf 0 n) as (b & Hb'); [lia .. |].
    unfold sliceTo. rewrite Hb'. cbn [bind]. destruct (isEmpty extra); cbn [negb]; eauto.
Qed.

(** [en] with the offsets 2 and 2: the string ends at [pVariant]. *)
Lemma remakeString_returns_witness :
  (exists t', remakeString sampleTables enPhonebk = Ret t') /\
  remakeString sampleTables (mkTag 1 0 0 2 2 (lit "en")) = Panic.
Proof.
  split.
  - apply (remakeString_returns sampleTables enPhonebk); [cbn; lia |]. right. cbn. lia.
  - apply (remakeString_returns sampleTables (mkTag 1 0 0 2 2 (lit "en")));
      [cbn; lia | discriminate | cbn; lia].
Defined.

(** After a change of language, script or region of a valid tag with a
    suffix, to a core other than [und], [remakeString] returns the tag of the
    new core with the same variants and extensions, the offsets moved to
    the end of the new core. *)
Theorem remakeString_suffix (T : IdentifierTables) (t0 : Tag) (variants : list gostring)
        (es : list ext) (l s r : Z) :
  codesOk T -> hasSuffix T t0 variants es -> pExt t0 + 10 < 65536 ->
  l <> 0 \/ s <> 0 \/ r <> 0 ->
  exists t',
    remakeString T (mkTag l r s (pVariant t0) (pExt t0) (str t0)) = Ret t' /\
    lang t' = l /\ script t' = s /\ region t' = r /\ hasSuffix T t' variants es.
Proof.
  intros Hok (Hs & Hv & He & Hpos & Hmax & Hne & Hvar & Hrest) Hroom Hcore.
  set (t := mkTag l r s (pVariant t0) (pExt t0) (str t0)).
  destruct (suffix_dash variants es Hne Hvar) as (e0 & extra & Hsuf).
  pose proof (length_coreString T t0 Hok) as Hc0.
  pose proof (length_coreString T t Hok) as Hc.
  assert (Hextra : (extra <- sliceFrom (str t) (pVariant t) ;;
                    if 0 <? pVariant t then sliceFrom extra 1 else Ret extra)
                   = Ret (e0 :: extra)).
  { apply (extra_after t (coreString T t0) (e0 :: extra) dash); cbn [t str pVariant].
    - now rewrite Hs, Hsuf.
    - exact Hv.
    - unfold len. lia. }
  rewrite (remakeString_extra T t (e0 :: extra) Hok) by
    (assumption || (cbn [t str]; rewrite Hs, Hsuf; apply app_cons_nonempty)).
  assert (Hund : equalTags t und = false).
  { unfold equalTags. cbn [t und lang script region].
    destruct (Z.eqb_spec l 0), (Z.eqb_spec s 0), (Z.eqb_spec r 0); try reflexivity.
    destruct Hcore as [? | [? | ?]]; contradiction. }
  unfold remade. rewrite Hund. cbn [andb isEmpty negb t pVariant pExt lang script region str].
  pose proof (len_nonneg (joinTokens variants)) as Hj.
  eexists. split; [reflexivity |]. cbn [lang script region].
  split; [reflexivity |]. split; [reflexivity |]. split; [reflexivity |].
  unfold hasSuffix. cbn [str pVariant pExt].
  change (coreString T (mkTag l r s _ _ _)) with (coreString T t).
  assert (Hpv : (pVariant t0 + (len (coreString T t) - pVariant t0)) mod 256
                = len (coreString T t)).
  { replace (pVariant t0 + (len (coreString T t) - pVariant t0))
      with (len (coreString T t)) by lia.
    apply Z.mod_small. unfold len. lia. }
  assert (Hpe : (pExt t0 + (len (coreString T t) - pVariant t0)) mod 65536
                = len (coreString T t) + len (joinTokens variants)).
  { rewrite He, Hv.
    replace (len (coreString T t0) + len (joinTokens variants)
             + (len (coreString T t) - len (coreString T t0)))
      with (len (coreString T t) + len (joinTokens variants)) by lia.
    apply Z.mod_small. unfold len in *. lia. }
  rewrite Hpv, Hpe, <- Hsuf.
  split; [reflexivity |]. split; [reflexivity |]. split; [reflexivity |].
  split; [unfold len; lia |]. split; [unfold len in *; lia |].
  split; [exact Hne |]. split; [exact Hvar | exact Hrest].
Qed.

Lemma remakeString_suffix_witness :
  exists t',
    remakeString sampleTables (mkTag 3 3 0 2 2 (lit "en-u-co-phonebk")) = Ret t' /\
    lang t' = 3 /\ script t' = 0 /\ region t' = 3 /\
    hasSuffix sampleTables t' [] [ExtU [] [(lit "co", [lit "phonebk"])]].
Proof.
  apply (remakeString_suffix sampleTables enPhonebk [] _ 3 0 3).
  - exact codesOk_sample.
  - exact hasSuffix_enPhonebk.
  - cbn. lia.
  - left. lia.
Defined.

Lemma hasSuffix_enPrivate : hasSuffix sampleTables enPrivate [] [ExtOther "x" [lit "abc"]].
Proof. sample_suffix. Defined.

(** When the core of a tag whose suffix is a private use block becomes
    [und], [remakeString] returns the private use tag: the string is the
    block, from its [x], and both offsets are zero. *)
Theorem remakeString_private (T : IdentifierTables) (t0 : Tag) (toks : list gostring) :
  hasSuffix T t0 [] [ExtOther "x" toks] ->
  let t' := mkTag 0 0 0 0 0 ("x"%char :: joinTokens toks) in
  remakeString T (mkTag 0 0 0 (pVariant t0) (pExt t0) (str t0)) = Ret t' /\
  validTag T t' /\ private t' = true.
Proof.
  intros (Hs & Hv & He & Hpos & Hmax & Hne & Hvar & Hok & _) t'.
  inversion Hok as [| ? ? Hx _]; subst x l. cbn [extOk] in Hx.
  destruct Hx as (_ & _ & Htoks & Hall).
  change (Ascii.eqb "x" "x") with true in Hall. cbv iota in Hall.
  cbn [joinTokens renderExts renderExt map concat app] in Hs. rewrite app_nil_r in Hs.
  split; [| split].
  - unfold remakeString. cbn [str pVariant].
    rewrite Hs. rewrite isEmpty_false by (lens; pose proof (len_nonneg (coreString T t0));
        pose proof (len_nonneg (joinTokens toks)); lia).
    rewrite Hv, sliceFrom_app by reflexivity. cbn [bind].
    destruct (Z.ltb_spec 0 (len (coreString T t0))); [| lia].
    rewrite (sliceFrom_app [dash] ("x"%char :: joinTokens toks)) by reflexivity. cbn [bind].
    destruct toks as [| w ws]; [congruence |]. rewrite joinTokens_cons.
    reflexivity.
  - apply (validPrivate T t' toks); try reflexivity; assumption.
  - unfold private, t'. cbn [str pVariant isEmpty negb Z.eqb andb]. reflexivity.
Qed.

Lemma remakeString_private_witness :
  remakeString sampleTables (mkTag 0 0 0 2 2 (lit "en-x-abc"))
  = Ret (mkTag 0 0 0 0 0 (lit "x-abc")).
Proof.
  exact (proj1 (remakeString_private sampleTables enPrivate [lit "abc"] hasSuffix_enPrivate)).
Defined.

Lemma split_at (s : gostring) (p : Z) :
  0 <= p < len s -> exists pre c r, s = pre ++ c :: r /\ p = len pre.
Proof.
  intros Hp. destruct (index_total s p Hp) as (c & Hc).
  destruct (index_split s p c Hc) as (pre & r & Hs & Hl). eauto.
Qed.

Lemma remade_again (T : IdentifierTables) (t : Tag) (extra : gostring) :
  codesOk T -> extra <> [] -> remakeString T (remade T t extra) = Ret (remade T t extra).
Proof.
  intros Hok Hne. pose proof (length_coreString T t Hok) as Hc.
  assert (Hext : isEmpty extra = false) by (destruct extra; [congruence | reflexivity]).
  unfold remade. rewrite Hext. cbn [negb].
  destruct (equalTags t und && hasPrefix extra (lit "x-")) eqn:Hcase.
  - set (t' := mkTag (lang t) (region t) (script t) 0 0 extra).
    rewrite (remakeString_extra T t' extra Hok Hne (extra_whole t' eq_refl)).
    unfold remade.
    change (equalTags t' und) with (equalTags t und). now rewrite Hcase.
  - set (pv := (pVariant t + (len (coreString T t) - pVariant t)) mod 256).
    set (pe := (pExt t + (len (coreString T t) - pVariant t)) mod 65536).
    set (t' := mkTag (lang t) (region t) (script t) pv pe (coreString T t ++ dash :: extra)).
    assert (Hpv : pv = len (coreString T t)).
    { unfold pv. replace (pVariant t + (len (coreString T t) - pVariant t))
        with (len (coreString T t)) by lia.
      apply Z.mod_small. unfold len. lia. }
    rewrite (remakeString_extra T t' extra Hok).
    + unfold remade. change (equalTags t' und) with (equalTags t und).
      rewrite Hcase, Hext. cbn [negb t' lang region script pVariant pExt].
      assert (Hcs : forall a b c,
                 coreString T (mkTag (lang t) (region t) (script t) a b c) = coreString T t)
        by reflexivity.
      unfold t'. rewrite !Hcs. f_equal. f_equal.
      * rewrite Hpv. replace (len (coreString T t) + (len (coreString T t) - len (coreString T t)))
          with (len (coreString T t)) by lia.
        apply Z.mod_small. unfold len. lia.
      * rewrite Hpv. replace (pe + (len (coreString T t) - len (coreString T t))) with pe by lia.
        unfold pe. apply Z.mod_mod. lia.
    + apply app_cons_nonempty.
    + apply (extra_after t' (coreString T t) extra dash); cbn [t' str pVariant];
        [reflexivity | exact Hpv | unfold len; lia].
Qed.

(** A second [remakeString] changes nothing: on every tag whose string is
    empty, or goes on after [pVariant] and the dash there, the tag that
    [remakeString] returns is returned as it is by a second call. *)
Theorem remakeString_idempotent (T : IdentifierTables) (t t' : Tag) :
  codesOk T -> 0 <= pVariant t ->
  str t = [] \/ pVariant t = 0 \/ pVariant t + 1 < len (str t) ->
  remakeString T t = Ret t' -> remakeString T t' = Ret t'.
Proof.
  intros Hok Hv Hcase H.
  destruct (str t) as [| c0 s0] eqn:Hs.
  { unfold remakeString in H. rewrite Hs in H. cbn [isEmpty] in H. injection H as <-.
    unfold remakeString. now rewrite Hs. }
  assert (Hextra : exists extra,
             extra <> [] /\ remakeString T t = Ret (remade T t extra)).
  { destruct (Z.eq_dec (pVariant t) 0) as [Hz | Hnz].
    - exists (str t). split; [rewrite Hs; discriminate |].
      apply remakeString_extra; [assumption | rewrite Hs; discriminate | now apply extra_whole].
    - destruct Hcase as [Hc | [Hc | Hc]]; [discriminate Hc | contradiction |].
      rewrite <- Hs in Hc.
      destruct (split_at (str t) (pVariant t) ltac:(lia)) as (pre & c & extra & Hsplit & Hp).
      exists extra. split.
      + intros ->. rewrite Hsplit in Hc. lens. lia.
      + apply remakeString_extra; [assumption | rewrite Hs; discriminate |].
        apply (extra_after t pre extra c); [assumption | assumption | lia]. }
  destruct Hextra as (extra & Hne & Hr). rewrite Hr in H. injection H as <-.
  now apply remade_again.
Qed.

(** [en-u-co-phonebk] with the core changed to [de-AT] *)
Lemma remakeString_idempotent_witness :
  remakeString sampleTables (mkTag 3 3 0 5 5 (lit "de-AT-u-co-phonebk"))
  = Ret (mkTag 3 3 0 5 5 (lit "de-AT-u-co-phonebk")).
Proof.
  apply (remakeString_idempotent sampleTables (mkTag 3 3 0 2 2 (lit "en-u-co-phonebk"))).
  - exact codesOk_sample.
  - cbn. lia.
  - right. right. cbn. lia.
  - reflexivity.
Defined.

(** ** The root and the parents *)

(** Among the valid tags the root is the only one that [IsRoot] accepts: a
    tag that has a suffix, or that is a private use tag, is not the root
    even when its language, script and region are unset. *)
Theorem IsRoot_valid (T : IdentifierTables) (t : Tag) :
  validTag T t -> (IsRoot t = true <-> t = und).
Proof.
  intros Hvalid.
  assert (Hund : IsRoot und = true) by reflexivity.
  split; [| now intros ->].
  unfold IsRoot.
  destruct Hvalid as [Hs Hv Hp | toks Hs _ _ Hv Hp
                     | variants es (Hs & Hv & He & Hpos & _ & Hne & Hvar & _)].
  - rewrite Hs, Hv. cbn [len length Z.of_nat Z.ltb Z.compare].
    unfold equalTags. cbn [und lang script region]. intros H.
    apply andb_true_iff in H as (H & Hr). apply andb_true_iff in H as (Hl & Hsc).
    apply Z.eqb_eq in Hl, Hsc, Hr. destruct t; cbn in *. now subst.
  - rewrite Hs, Hv. lens. pose proof (len_nonneg (joinTokens toks)).
    destruct (Z.ltb_spec 0 (1 + len (joinTokens toks))); [discriminate | lia].
  - destruct (suffix_dash variants es Hne Hvar) as (c & extra & Hsuf).
    rewrite Hs, Hv, Hsuf. lens. pose proof (len_nonneg extra).
    destruct (Z.ltb_spec (len (coreString T t)) (len (coreString T t) + (1 + (1 + len extra))));
      [discriminate | lia].
Qed.

Lemma IsRoot_valid_witness : IsRoot und = true /\ IsRoot privateAbc <> true.
Proof.
  split.
  - apply (IsRoot_valid sampleTables und); [now apply validCore | reflexivity].
  - intros H. apply (IsRoot_valid sampleTables privateAbc validTag_privateAbc) in H.
    discriminate H.
Defined.

(** Whatever the tables, the parent of a tag has no variants and no
    extensions: its string is empty and its offsets are zero, so it is a
    valid tag; and it is the root or has the language of the tag. *)
Theorem Parent_core (T : IdentifierTables) (t : Tag) :
  str (Parent T t) = [] /\ pVariant (Parent T t) = 0 /\ pExt (Parent T t) = 0 /\
  validTag T (Parent T t) /\
  (Parent T t = und \/ lang (Parent T t) = lang t).
Proof.
  assert (H : str (Parent T t) = [] /\ pVariant (Parent T t) = 0 /\ pExt (Parent T t) = 0 /\
              (Parent T t = und \/ lang (Parent T t) = lang t)).
  { unfold Parent.
    repeat match goal with
           | |- context [if ?c then _ else _] => destruct c
           | |- context [match ?x with Some _ => _ | None => _ end] => destruct x eqn:?
           | |- context [let '(_, _) := ?x in _] => destruct x eqn:?
           end;
      try match goal with H : parentOverride _ _ _ = Some _ |- _ =>
            apply parentOverride_Some in H as (p & _ & _ & ->) end;
      try match goal with H : Raw _ = _ |- _ => unfold Raw in H; injection H as <- <- <- end;
      cbn [coreTag langTag und str pVariant pExt lang]; auto. }
  destruct H as (Hs & Hv & Hp & Hl).
  split; [exact Hs |]. split; [exact Hv |]. split; [exact Hp |].
  split; [now apply validCore | exact Hl].
Qed.

(** ** Regions *)

Lemma lookup_total (table : list Z) (i : Z) :
  0 <= i < Z.of_nat (length table) -> exists v, lookup table i = Ret v /\ In v table.
Proof.
  intros Hi. unfold lookup. destruct (Z.ltb_spec i 0); [lia |].
  destruct (nth_error table (Z.to_nat i)) as [v |] eqn:Hn.
  - exists v. split; [reflexivity |]. now apply nth_error_In in Hn.
  - apply nth_error_None in Hn. lia.
Qed.

(** With well-formed tables [Contains] returns, without a panic, for every
    two regions of the inclusion table. *)
Theorem Contains_total (T : IdentifierTables) (r c : Z) :
  regionTablesOk T ->
  0 <= r < Z.of_nat (length (regionInclusion T)) ->
  0 <= c < Z.of_nat (length (regionInclusion T)) ->
  exists b, Contains T r c = Ret b.
Proof.
  intros (Hincl & Hgroups) Hr Hc. unfold Contains.
  destruct (r =? c); [eauto |]. rewrite Forall_forall in Hincl.
  destruct (lookup_total _ r Hr) as (g & -> & Hg). cbn [bind].
  destruct (Z.leb_spec (nRegionGroups T) g); [eauto |].
  destruct (lookup_total (regionContainment T) g) as (m & -> & _);
    [specialize (Hincl g Hg); lia |].
  cbn [bind]. destruct (lookup_total _ c Hc) as (d & -> & Hd). cbn [bind].
  destruct (lookup_total (regionInclusionBits T) d (Hincl d Hd)) as (b & -> & _).
  cbn [bind]. destruct (nRegionGroups T <=? d); eauto.
Qed.

Lemma regionTablesOk_sample : regionTablesOk sampleTables.
Proof.
  split; [| cbn; lia]. cbn [sampleTables regionInclusion regionInclusionBits length].
  repeat constructor; cbn; lia.
Defined.

Lemma Contains_total_witness : exists b, Contains sampleTables 1 3 = Ret b.
Proof.
  apply (Contains_total sampleTables 1 3 regionTablesOk_sample); cbn; lia.
Defined.

(** When every group has its containment mask and no mask is left over, a
    region that is not a group contains itself only. *)
Theorem IsGroup_Contains (T : IdentifierTables) (r c : Z) :
  nRegionGroups T = Z.of_nat (length (regionContainment T)) ->
  r <> 0 -> IsGroup T r = Ret false ->
  Contains T r c = Ret (r =? c).
Proof.
  intros Hn Hr H. unfold IsGroup in H. unfold Contains.
  destruct (Z.eqb_spec r 0); [contradiction |].
  destruct (r =? c); [reflexivity |].
  destruct (lookup (regionInclusion T) r) as [g | |]; cbn [bind] in *; try discriminate H.
  injection H as H. apply Z.ltb_ge in H.
  destruct (Z.leb_spec (nRegionGroups T) g); [reflexivity | lia].
Qed.

(** [AT] is not a group: it contains itself and not [US]. *)
Lemma IsGroup_Contains_witness :
  Contains sampleTables 3 3 = Ret true /\ Contains sampleTables 3 4 = Ret false.
Proof.
  split.
  - apply (IsGroup_Contains sampleTables 3 3); [reflexivity | lia | reflexivity].
  - apply (IsGroup_Contains sampleTables 3 4); [reflexivity | lia | reflexivity].
Defined.

(** A country is never the zero region nor a group, and a private use
    region is a country only when it is [XK]. *)
Theorem IsCountry_IsGroup (T : IdentifierTables) (C : CodeTables) (r : Z) :
  IsCountry T C r = Ret true ->
  r <> 0 /\ IsGroup T r = Ret false /\ (IsPrivateUse C r = true -> r = _XK C).
Proof.
  unfold IsCountry. destruct (Z.eqb_spec r 0); [discriminate |].
  destruct (IsGroup T r) as [[|] | |]; cbn [bind]; try discriminate.
  destruct (IsPrivateUse C r); cbn [andb].
  - destruct (Z.eqb_spec r (_XK C)); cbn [negb]; [| discriminate].
    intros _. now repeat split.
  - intros _. repeat split; [assumption | discriminate].
Qed.

Lemma IsCountry_IsGroup_witness :
  3 <> 0 /\ IsGroup sampleTables 3 = Ret false /\
  (IsPrivateUse sampleCodes 3 = true -> 3 = _XK sampleCodes).
Proof.
  apply (IsCountry_IsGroup sampleTables sampleCodes 3). reflexivity.
Defined.

(** ** Parsing identifiers *)

Lemma copy_through (s : gostring) (n : nat) :
  (length s <= n)%nat ->
  (r <- copyAt (newBuf (Z.of_nat n)) 0 s ;;
   let '(k, buf) := r in sliceTo buf k) = Ret s.
Proof.
  intros Hn. unfold newBuf. rewrite Nat2Z.id, copyAt_fresh by assumption. cbn [bind].
  now apply sliceTo_app.
Qed.

(** [ParseBase] and [ParseRegion] reject every string that is not of 2 or 3
    bytes, and [ParseScript] every string that is not of 4 bytes, with a
    syntax error and the identifier 0, without a lookup; every other string
    goes through the scratch buffer to the lookup as it is. *)
Theorem Parse_lengths (C : CodeTables) (s : gostring) :
  (len s < 2 \/ 3 < len s ->
   ParseBase C s = Ret (0, Some errSyntax) /\ ParseRegion C s = Ret (0, Some errSyntax)) /\
  (len s <> 4 -> ParseScript C s = Ret (0, Some errSyntax)) /\
  (2 <= len s <= 3 ->
   ParseBase C s = Ret (getLangID C s) /\ ParseRegion C s = Ret (getRegionID C s)) /\
  (len s = 4 -> ParseScript C s = Ret (getScriptID C s)).
Proof.
  unfold ParseBase, ParseScript, ParseRegion. split; [| split; [| split]].
  - intros H. destruct (Z.ltb_spec (len s) 2), (Z.ltb_spec 3 (len s)); cbn [orb];
      try lia; now split.
  - intros H. destruct (Z.eqb_spec (len s) 4); [contradiction | reflexivity].
  - intros H. destruct (Z.ltb_spec (len s) 2), (Z.ltb_spec 3 (len s)); cbn [orb]; try lia.
    pose proof (copy_through s 3 ltac:(unfold len in H; lia)) as Hc.
    change (Z.of_nat 3) with 3 in Hc.
    destruct (copyAt (newBuf 3) 0 s) as [[k buf] | |]; cbn [bind] in *; try discriminate Hc.
    rewrite Hc. cbn [bind]. now split.
  - intros H. rewrite H. cbn [Z.eqb Pos.eqb negb].
    pose proof (copy_through s 4 ltac:(unfold len in H; lia)) as Hc.
    change (Z.of_nat 4) with 4 in Hc.
    destruct (copyAt (newBuf 4) 0 s) as [[k buf] | |]; cbn [bind] in *; try discriminate Hc.
    now rewrite Hc.
Qed.

Lemma Parse_lengths_witness :
  ParseBase sampleCodes (lit "de") = Ret (3, None) /\
  ParseScript sampleCodes (lit "Latn") = Ret (1, None) /\
  ParseBase sampleCodes (lit "d") = Ret (0, Some errSyntax).
Proof.
  destruct (Parse_lengths sampleCodes (lit "de")) as (_ & _ & H2 & _).
  destruct (Parse_lengths sampleCodes (lit "Latn")) as (_ & _ & _ & H4).
  destruct (Parse_lengths sampleCodes (lit "d")) as (H1 & _).
  split; [| split].
  - apply H2. cbn. lia.
  - apply H4. reflexivity.
  - apply H1. left. cbn. lia.
Defined.

Lemma lower_ascii (c : ascii) :
  (N_of_ascii c < 128)%N ->
  let c' := if isUpper c then ascii_of_N (N_of_ascii c + 32) else c in
  (N_of_ascii c' < 128)%N /\ isUpper c' = false.
Proof.
  intros Hc. cbn zeta. destruct (isUpper c) eqn:E.
  - unfold isUpper in *. apply andb_true_iff in E as (Hlo & Hhi).
    apply N.leb_le in Hlo, Hhi. rewrite N_ascii_embedding by lia.
    split; [lia |]. apply andb_false_iff. right. apply N.leb_gt. lia.
  - now split.
Qed.

Lemma stringsToLower_again (C : CodeTables) (s : gostring) :
  isASCII s = true -> stringsToLower C (stringsToLower C s) = stringsToLower C s.
Proof.
  intros Hs. unfold stringsToLower at 2. rewrite Hs.
  assert (H : isASCII (map (fun c => if isUpper c then ascii_of_N (N_of_ascii c + 32) else c) s)
              = true /\
              map (fun c => if isUpper c then ascii_of_N (N_of_ascii c + 32) else c)
                  (map (fun c => if isUpper c then ascii_of_N (N_of_ascii c + 32) else c) s)
              = map (fun c => if isUpper c then ascii_of_N (N_of_ascii c + 32) else c) s).
  { induction s as [| c s IH]; [now split |].
    cbn [isASCII forallb] in Hs. apply andb_true_iff in Hs as (Hc & Hs).
    apply N.ltb_lt in Hc. destruct (IH Hs) as (IH1 & IH2).
    destruct (lower_ascii c Hc) as (Hlt & Hup). cbn zeta in Hlt, Hup.
    cbn [map isASCII forallb]. split.
    - apply andb_true_iff. split; [now apply N.ltb_lt | exact IH1].
    - rewrite IH2. f_equal. now rewrite Hup. }
  destruct H as (H1 & H2). unfold stringsToLower. now rewrite H1, H2, Hs.
Qed.

(** A variant that [ParseVariant] returns without an error is in the index
    of the variants, and its string parses to the same variant again: on an
    ASCII string the result does not depend on the case of the input. *)
Theorem ParseVariant_String (C : CodeTables) (s : gostring) (v : Variant) :
  isASCII s = true -> ParseVariant C s = (v, None) ->
  variantIndex C (Variant_String v) <> None /\
  Variant_String v = stringsToLower C s /\
  ParseVariant C (Variant_String v) = (v, None).
Proof.
  intros Hs H. unfold ParseVariant in H.
  destruct (variantIndex C (stringsToLower C s)) as [i |] eqn:Hi; [| discriminate H].
  injection H as <-. unfold Variant_String. cbn [variant].
  split; [now rewrite Hi |]. split; [reflexivity |].
  unfold ParseVariant. now rewrite (stringsToLower_again C s Hs), Hi.
Qed.

Lemma ParseVariant_String_witness :
  ParseVariant sampleCodes (lit "valencia") = (mkVariant (lit "valencia"), None).
Proof.
  apply (ParseVariant_String sampleCodes (lit "VALENCIA") (mkVariant (lit "valencia")));
    reflexivity.
Defined.

(** ** The order of the keys *)

Lemma byte_ltb_trans (x y z : ascii) :
  byte_ltb x y = true -> byte_ltb y z = true -> byte_ltb x z = true.
Proof. unfold byte_ltb. rewrite !N.ltb_lt. lia. Qed.

Lemma byte_order (x y : ascii) :
  byte_ltb x y = false -> byte_ltb y x = false -> x = y.
Proof.
  unfold byte_ltb. rewrite !N.ltb_ge. intros H1 H2.
  rewrite <- (ascii_N_embedding x), <- (ascii_N_embedding y). f_equal. lia.
Qed.

Lemma str_ltb_trans (a b c : gostring) :
  str_ltb a b = true -> str_ltb b c = true -> str_ltb a c = true.
Proof.
  revert b c. induction a as [| x a IH]; intros [| y b] [| z c]; cbn [str_ltb];
    try congruence.
  destruct (byte_ltb x y) eqn:Hxy.
  - intros _. destruct (byte_ltb y z) eqn:Hyz.
    + intros _. now rewrite (byte_ltb_trans x y z).
    + destruct (byte_ltb z y) eqn:Hzy; [discriminate |]. intros _.
      now rewrite <- (byte_order y z Hyz Hzy), Hxy.
  - destruct (byte_ltb y x) eqn:Hyx; [discriminate |].
    rewrite <- (byte_order x y Hxy Hyx). intros Hab.
    destruct (byte_ltb x z); [reflexivity |].
    destruct (byte_ltb z x); [discriminate |]. now apply IH.
Qed.

Lemma str_order (a b : gostring) :
  str_eqb a b = false -> str_ltb b a = false -> str_ltb a b = true.
Proof.
  revert b. induction a as [| x a IH]; intros [| y b]; cbn [str_eqb str_ltb];
    try congruence.
  intros He Hl. destruct (byte_ltb x y) eqn:Hxy; [reflexivity |].
  destruct (byte_ltb y x) eqn:Hyx; [discriminate |].
  rewrite (byte_order x y Hxy Hyx), Ascii.eqb_refl in He. cbn [andb] in He.
  now apply IH.
Qed.

Lemma setKeyword_Forall (P : keyword -> Prop) (kw : keyword) (kws : list keyword) :
  P kw -> Forall P kws -> Forall P (setKeyword kw kws).
Proof.
  intros Hkw. induction kws as [| kw' kws IH]; intros Hall; cbn [setKeyword].
  - now constructor.
  - inversion Hall; subst.
    destruct (str_eqb (fst kw') (fst kw)); [now constructor |].
    destruct (str_gtb (fst kw') (fst kw)); [now constructor |].
    constructor; auto.
Qed.

Lemma setKeyword_sorted (kw : keyword) (kws : list keyword) :
  StronglySorted (fun a b : keyword => str_ltb (fst a) (fst b) = true) kws ->
  StronglySorted (fun a b : keyword => str_ltb (fst a) (fst b) = true) (setKeyword kw kws).
Proof.
  induction kws as [| kw' kws IH]; intros Hs; cbn [setKeyword].
  - repeat constructor.
  - apply StronglySorted_inv in Hs as (Hs & Hall).
    destruct (str_eqb (fst kw') (fst kw)) eqn:Heq.
    + apply str_eqb_eq in Heq. constructor; [assumption |].
      revert Hall. apply Forall_impl. intros a. now rewrite Heq.
    + destruct (str_gtb (fst kw') (fst kw)) eqn:Hgt.
      * unfold str_gtb in Hgt. constructor; [now constructor |].
        constructor; [exact Hgt |].
        revert Hall. apply Forall_impl. intros a. now apply str_ltb_trans.
      * constructor; [now apply IH |].
        apply setKeyword_Forall; [| exact Hall]. now apply str_order.
Qed.

Lemma setKey_Forall (P : ascii -> Prop) (kw : keyword) (es : list ext) :
  P "u"%char -> Forall (fun e => P (extType e)) es ->
  Forall (fun e => P (extType e)) (setKey kw es).
Proof.
  intros Hu. induction es as [| e es IH]; intros Hall; cbn [setKey].
  - now repeat constructor.
  - inversion Hall as [| ? ? He Hall']; subst x l. destruct e as [attrs kws | ty toks].
    + now constructor.
    + destruct (byte_ltb "u" ty); constructor; auto.
Qed.

Lemma setKey_sorted (kw : keyword) (es : list ext) :
  Forall extOk es -> Forall extSorted es ->
  StronglySorted (fun a b => byte_ltb (extType a) (extType b) = true) es ->
  Forall extSorted (setKey kw es) /\
  StronglySorted (fun a b => byte_ltb (extType a) (extType b) = true) (setKey kw es).
Proof.
  induction es as [| e es IH]; intros Hok Hkeys Htypes; cbn [setKey].
  - split; repeat constructor.
  - inversion Hok as [| ? ? He Hok']; subst x l.
    inversion Hkeys as [| ? ? Hk Hkeys']; subst x l.
    apply StronglySorted_inv in Htypes as (Htypes & Hall).
    destruct e as [attrs kws | ty toks].
    + split.
      * constructor; [| assumption]. cbn [extSorted] in *. now apply setKeyword_sorted.
      * constructor; assumption.
    + destruct (byte_ltb "u" ty) eqn:Hgt.
      * split.
        -- constructor; [cbn [extSorted]; repeat constructor |]. now constructor.
        -- constructor; [now constructor |].
           constructor; [exact Hgt |]. cbn [extType] in *.
           revert Hall. apply Forall_impl. intros a. now apply byte_ltb_trans.
      * destruct (IH Hok' Hkeys' Htypes) as (IH1 & IH2). split.
        -- now constructor.
        -- constructor; [exact IH2 |]. cbn [extType] in *.
           apply (setKey_Forall (fun c => byte_ltb ty c = true)); [| exact Hall].
           destruct (byte_ltb ty "u") eqn:Hlt; [reflexivity |].
           cbn [extOk] in He. destruct He as (_ & Hu & _).
           now pose proof (byte_order _ _ Hlt Hgt).
Qed.

Lemma setKey_nonempty (kw : keyword) (es : list ext) : setKey kw es <> [].
Proof.
  destruct es as [| [attrs kws | ty toks] es]; cbn [setKey]; try discriminate.
  destruct (byte_ltb "u" ty); discriminate.
Qed.

(** ** Setting a key keeps the tag valid *)

(** The tag after a key was set, on the layout. *)
Lemma SetTypeForKey_suffix (T : IdentifierTables) (t : Tag) (key value : gostring)
      (comps variants : list gostring) (es : list ext) :
  codesOk T -> hasSuffix T t variants es ->
  token 2 2 key -> 3 <= len value <= 8 ->
  comps <> [] -> Forall (token 3 8) comps -> joinTokens comps = dash :: value ->
  parseExtensions T (fragment key value) = (fragment key value, None) ->
  exists t',
    SetTypeForKey T t key value = Ret (t', None) /\
    hasSuffix T t' variants (setKey (key, comps) es) /\
    lang t' = lang t /\ script t' = script t /\ region t' = region t.
Proof.
  intros Hcodes (Hs & Hv & He & Hpos & Hmax & Hne & Hvar & Hok & Hkeys & Htypes)
         Hkey Hval Hc Hcomps Hj Hparse.
  assert (Hkw : keywordOk (key, comps)) by (unfold keywordOk; cbn [fst snd]; auto).
  assert (Hpriv : private t = false).
  { unfold private. destruct (Z.eqb_spec (pVariant t) 0); [lia | apply andb_false_r]. }
  pose proof (len_nonneg (joinTokens variants)) as Hlj.
  eexists. split.
  - apply (SetTypeForKey_layout T t key value (coreString T t ++ joinTokens variants)
             comps es); try assumption.
    + rewrite Hs. eqapp.
    + rewrite Hs. destruct (suffix_dash variants es Hne Hvar) as (c & extra & ->).
      apply app_cons_nonempty.
    + lens. lia.
    + lens. lia.
  - destruct (setKey_sorted (key, comps) es Hok Hkeys Htypes) as (Hk' & Ht').
    split; [| now repeat split].
    unfold hasSuffix, withStr. cbn [str pVariant pExt].
    change (coreString T (mkTag (lang t) (region t) (script t) _ _ _)) with (coreString T t).
    split; [eqapp |]. split; [exact Hv |]. split; [exact He |].
    split; [exact Hpos |]. split; [exact Hmax |].
    split; [right; apply setKey_nonempty |]. split; [exact Hvar |].
    split; [now apply setKey_ok |]. split; assumption.
Qed.

Lemma SetTypeForKey_core (T : IdentifierTables) (t : Tag) (key value : gostring)
      (comps : list gostring) :
  codesOk T -> str t = [] ->
  token 2 2 key -> 3 <= len value <= 8 ->
  comps <> [] -> Forall (token 3 8) comps -> joinTokens comps = dash :: value ->
  parseExtensions T (fragment key value) = (fragment key value, None) ->
  exists t',
    SetTypeForKey T t key value = Ret (t', None) /\
    hasSuffix T t' [] (setKey (key, comps) []) /\
    lang t' = lang t /\ script t' = script t /\ region t' = region t.
Proof.
  intros Hcodes Hs Hkey Hval Hc Hcomps Hj Hparse.
  assert (Hkw : keywordOk (key, comps)) by (unfold keywordOk; cbn [fst snd]; auto).
  pose proof (length_coreString T t Hcodes) as Hcore.
  eexists. split; [now apply (SetTypeForKey_fresh T t key value comps) |].
  split; [| now repeat split].
  unfold hasSuffix. cbn [str pVariant pExt setKey joinTokens map concat app].
  change (coreString T (mkTag (lang t) (region t) (script t) _ _ _)) with (coreString T t).
  split; [reflexivity |]. split; [reflexivity |]. split; [lens; lia |].
  split; [unfold len; lia |]. split; [unfold len; lia |].
  split; [right; discriminate |]. split; [constructor |].
  split; [constructor; [now apply extOk_single | constructor] |].
  split; repeat constructor.
Qed.

(** [SetTypeForKey] keeps the invariants of the data model: on a valid tag
    that is not a private use tag, with a key and a type that the scanner
    accepts, the tag it returns is valid again, with the same language,
    script, region and variants, and with the keys of its 'u' block in
    ascending order. *)
Theorem SetTypeForKey_keeps_valid (T : IdentifierTables) (t : Tag) (key value : gostring) :
  codesOk T -> validTag T t -> private t = false ->
  token 2 2 key -> 3 <= len value <= 8 -> typeOk value ->
  parseExtensions T (fragment key value) = (fragment key value, None) ->
  exists t',
    SetTypeForKey T t key value = Ret (t', None) /\ validTag T t' /\
    lang t' = lang t /\ script t' = script t /\ region t' = region t /\
    (forall variants es, hasSuffix T t variants es ->
                         exists es', hasSuffix T t' variants es').
Proof.
  intros Hcodes Hvalid Hpriv Hkey Hval (comps & Hc & Hcomps & Hj) Hparse.
  destruct Hvalid as [Hs Hv Hp | toks Hs _ _ Hv Hp | variants es Hsuf].
  - destruct (SetTypeForKey_core T t key value comps) as (t' & Hset & Hsuf' & Hl & Hsc & Hr);
      try assumption.
    exists t'. split; [exact Hset |]. split; [exact (validSuffix _ _ _ _ Hsuf') |].
    split; [exact Hl |]. split; [exact Hsc |]. split; [exact Hr |].
    intros variants es (Hs' & _ & _ & _ & _ & Hne & Hvar & _). exfalso.
    destruct (suffix_dash variants es Hne Hvar) as (c & extra & Hd).
    rewrite Hs, Hd in Hs'. symmetry in Hs'. now apply app_cons_nonempty in Hs'.
  - unfold private in Hpriv. rewrite Hs, Hv in Hpriv. discriminate Hpriv.
  - destruct (SetTypeForKey_suffix T t key value comps variants es)
      as (t' & Hset & Hsuf' & Hl & Hsc & Hr); try assumption.
    exists t'. split; [exact Hset |]. split; [exact (validSuffix _ _ _ _ Hsuf') |].
    split; [exact Hl |]. split; [exact Hsc |]. split; [exact Hr |].
    intros variants' es' Hsuf0.
    destruct (SetTypeForKey_suffix T t key value comps variants' es')
      as (t'' & Hset' & Hsuf'' & _); try assumption.
    rewrite Hset in Hset'. injection Hset' as <-. eauto.
Qed.

Lemma SetTypeForKey_keeps_valid_witness :
  exists t',
    SetTypeForKey sampleTables enPhonebk (lit "nu") (lit "latn") = Ret (t', None) /\
    validTag sampleTables t'.
Proof.
  destruct (SetTypeForKey_keeps_valid sampleTables enPhonebk (lit "nu") (lit "latn"))
    as (t' & Hset & Hvalid & _).
  - exact codesOk_sample.
  - exact validTag_enPhonebk.
  - reflexivity.
  - tokens.
  - cbn. lia.
  - apply typeOk_single. tokens.
  - reflexivity.
  - exists t'. split; [exact Hset | exact Hvalid].
Defined.

(** ** The other keys *)

(** The type that [locateKey] finds does not depend on what comes before
    and after the keywords. *)
Lemma locateKey_type (key : gostring) (kws : list keyword) :
  forall (acc acc' rest rest' : gostring),
    snd (fst (fst (locateKey key acc kws rest)))
    = snd (fst (fst (locateKey key acc' kws rest'))).
Proof.
  induction kws as [| kw kws IH]; intros acc acc' rest rest'; cbn [locateKey].
  - reflexivity.
  - destruct (str_eqb (fst kw) key); [reflexivity |].
    destruct (str_gtb (fst kw) key); [reflexivity | apply IH].
Qed.

Lemma str_eqb_neq (a b : gostring) : a <> b -> str_eqb a b = false.
Proof.
  intros H. destruct (str_eqb a b) eqn:E; [| reflexivity].
  apply str_eqb_eq in E. contradiction.
Qed.

Lemma locateKey_other (key key' : gostring) (comps : list gostring) (kws : list keyword) :
  key' <> key ->
  forall (acc acc' rest rest' : gostring),
    snd (fst (fst (locateKey key' acc (setKeyword (key, comps) kws) rest)))
    = snd (fst (fst (locateKey key' acc' kws rest'))).
Proof.
  intros Hne.
  assert (Hkk : str_eqb key key' = false) by (apply str_eqb_neq; congruence).
  induction kws as [| kw kws IH]; intros acc acc' rest rest'; cbn [setKeyword fst].
  - cbn [locateKey fst snd]. rewrite Hkk. now destruct (str_gtb key key').
  - destruct (str_eqb (fst kw) key) eqn:Heq.
    + apply str_eqb_eq in Heq. cbn [locateKey fst snd]. rewrite Heq, Hkk.
      destruct (str_gtb key key'); [reflexivity | apply locateKey_type].
    + destruct (str_gtb (fst kw) key) eqn:Hgt.
      * cbn [locateKey fst snd]. rewrite Hkk.
        destruct (str_gtb key key') eqn:Hgt'.
        -- unfold str_gtb in *. pose proof (str_ltb_trans _ _ _ Hgt' Hgt) as Hlt.
           rewrite Hlt. destruct (str_eqb (fst kw) key') eqn:He; [| reflexivity].
           apply str_eqb_eq in He. rewrite He, str_ltb_irrefl in Hlt. discriminate Hlt.
        -- destruct (str_eqb (fst kw) key'); [reflexivity |].
           destruct (str_gtb (fst kw) key'); [reflexivity | apply locateKey_type].
      * cbn [locateKey]. destruct (str_eqb (fst kw) key'); [reflexivity |].
        destruct (str_gtb (fst kw) key'); [reflexivity | apply IH].
Qed.

Lemma locate_other (key key' : gostring) (comps : list gostring) (es : list ext) :
  key' <> key ->
  forall (acc acc' : gostring),
    snd (fst (fst (locate key' acc (setKey (key, comps) es))))
    = snd (fst (fst (locate key' acc' es))).
Proof.
  intros Hne. induction es as [| e es IH]; intros acc acc'; cbn [setKey].
  - cbn [locate]. apply (locateKey_other key key' comps [] Hne).
  - destruct e as [attrs kws | ty toks].
    + cbn [locate]. now apply locateKey_other.
    + destruct (byte_ltb "u" ty) eqn:Hgt.
      * cbn [locate]. rewrite Hgt. cbn [fst snd].
        apply (locateKey_other key key' comps [] Hne _ acc' _ []).
      * cbn [locate]. rewrite Hgt. apply IH.
Qed.

Lemma TypeForKey_core (t : Tag) (key : gostring) : pExt t = 0 -> TypeForKey t key = Ret [].
Proof.
  intros Hp. unfold TypeForKey. rewrite findTypeForKey_guarded by auto.
  cbn [bind]. now rewrite Z.eqb_refl.
Qed.



(** ** The last value stays *)





(** ** The order of the calls *)

(** Evaluates [setKeyword] on the comparisons that the context holds. *)
Ltac keys :=
  repeat first
    [ progress cbn [setKeyword fst]
    | progress unfold str_gtb
    | rewrite str_eqb_refl
    | match goal with
      | H : ?b = _ |- context [if ?b then _ else _] => rewrite H
      end ].

(** The order of two strings that differ, both ways. *)
Ltac order a b :=
  let L := fresh "L" in
  let L' := fresh "L" in
  destruct (str_ltb a b) eqn:L;
  [ pose proof (str_ltb_asym _ _ L) as L'
  | assert (L' : str_ltb b a = true)
      by (apply str_order; [apply str_eqb_neq; congruence | exact L]) ].

Ltac chains :=
  repeat match goal with
         | H1 : str_ltb ?a ?b = true, H2 : str_ltb ?b ?c = true |- _ =>
             lazymatch goal with
             | _ : str_ltb a c = true |- _ => fail
             | _ => pose proof (str_ltb_trans a b c H1 H2)
             end
         end.

Lemma setKeyword_comm (k1 k2 : gostring) (c1 c2 : list gostring) (kws : list keyword) :
  k1 <> k2 ->
  setKeyword (k2, c2) (setKeyword (k1, c1) kws) = setKeyword (k1, c1) (setKeyword (k2, c2) kws).
Proof.
  intros Hne.
  assert (H12 : str_eqb k1 k2 = false) by now apply str_eqb_neq.
  assert (H21 : str_eqb k2 k1 = false) by (apply str_eqb_neq; congruence).
  induction kws as [| kw kws IH].
  - order k1 k2; keys; reflexivity.
  - destruct (str_eqb (fst kw) k1) eqn:E1, (str_eqb (fst kw) k2) eqn:E2.
    + apply str_eqb_eq in E1, E2. congruence.
    + apply str_eqb_eq in E1. subst k1. order k2 (fst kw); keys; reflexivity.
    + apply str_eqb_eq in E2. subst k2. order k1 (fst kw); keys; reflexivity.
    + assert (fst kw <> k1) by (intros E; rewrite E, str_eqb_refl in E1; discriminate E1).
      assert (fst kw <> k2) by (intros E; rewrite E, str_eqb_refl in E2; discriminate E2).
      order k1 k2; order k1 (fst kw); order k2 (fst kw); chains; try congruence;
        keys; try reflexivity; now rewrite IH.
Qed.

Lemma setKey_comm (k1 k2 : gostring) (c1 c2 : list gostring) (es : list ext) :
  k1 <> k2 ->
  setKey (k2, c2) (setKey (k1, c1) es) = setKey (k1, c1) (setKey (k2, c2) es).
Proof.
  intros Hne. pose proof (setKeyword_comm k1 k2 c1 c2 [] Hne) as Hnew.
  change (setKeyword (k2, c2) [(k1, c1)] = setKeyword (k1, c1) [(k2, c2)]) in Hnew.
  induction es as [| e es IH]; cbn [setKey].
  - exact (f_equal (fun kws => [ExtU [] kws]) Hnew).
  - destruct e as [attrs kws | ty toks].
    + cbn [setKey]. do 2 f_equal. now apply setKeyword_comm.
    + destruct (byte_ltb "u" ty) eqn:Hgt; cbn [setKey]; rewrite ?Hgt.
      * exact (f_equal (fun kws => ExtU [] kws :: ExtOther ty toks :: es) Hnew).
      * now rewrite IH.
Qed.

(** The tag after a key was set, from the blocks of the tag; a tag without
    a suffix has no blocks. *)
Lemma SetTypeForKey_blocks (T : IdentifierTables) (t : Tag) (key value : gostring)
      (comps : list gostring) :
  codesOk T -> validTag T t -> private t = false ->
  token 2 2 key -> 3 <= len value <= 8 ->
  comps <> [] -> Forall (token 3 8) comps -> joinTokens comps = dash :: value ->
  exists pre es pv,
    Forall extOk es /\ 0 < len pre /\ pv <> 0 /\
    forall key' value' comps',
      token 2 2 key' -> 3 <= len value' <= 8 ->
      comps' <> [] -> Forall (token 3 8) comps' -> joinTokens comps' = dash :: value' ->
      parseExtensions T (fragment key' value') = (fragment key' value', None) ->
      SetTypeForKey T t key' value'
      = Ret (mkTag (lang t) (region t) (script t) pv (len pre)
                   (pre ++ renderExts (setKey (key', comps') es)), None).
Proof.
  intros Hcodes Hvalid Hpriv Hkey Hval Hne Hcomps Hj.
  pose proof (length_coreString T t Hcodes) as Hcore.
  destruct (str t) as [| c0 s0] eqn:Hstr.
  - exists (coreString T t), [], (len (coreString T t)).
    split; [constructor |]. split; [unfold len; lia |]. split; [unfold len; lia |].
    intros key' value' comps' Hkey' Hval' Hne' Hcomps' Hj' Hparse'.
    now apply (SetTypeForKey_fresh T t key' value' comps').
  - destruct (validTag_layout T t Hvalid Hpriv) as (pre & es & Hs & Hp & Hpre & Hok);
      [rewrite Hstr; discriminate |].
    exists pre, es, (pVariant t).
    split; [exact Hok |]. split; [exact Hpre |]. split.
    { unfold private in Hpriv. rewrite Hstr in Hpriv. cbn [isEmpty negb andb] in Hpriv.
      now apply Z.eqb_neq. }
    intros key' value' comps' Hkey' Hval' Hne' Hcomps' Hj' Hparse'.
    rewrite <- Hp. apply (SetTypeForKey_layout T t key' value' pre comps' es); try assumption.
    rewrite Hstr. discriminate.
Qed.

(** Two keys can be set in either order: the tag after both calls is the
    same. *)
Theorem SetTypeForKey_commute (T : IdentifierTables) (t : Tag) (k1 v1 k2 v2 : gostring) :
  codesOk T -> validTag T t -> private t = false -> k1 <> k2 ->
  token 2 2 k1 -> 3 <= len v1 <= 8 -> typeOk v1 ->
  parseExtensions T (fragment k1 v1) = (fragment k1 v1, None) ->
  token 2 2 k2 -> 3 <= len v2 <= 8 -> typeOk v2 ->
  parseExtensions T (fragment k2 v2) = (fragment k2 v2, None) ->
  exists t1 t2 t',
    SetTypeForKey T t k1 v1 = Ret (t1, None) /\ SetTypeForKey T t1 k2 v2 = Ret (t', None) /\
    SetTypeForKey T t k2 v2 = Ret (t2, None) /\ SetTypeForKey T t2 k1 v1 = Ret (t', None).
Proof.
  intros Hcodes Hvalid Hpriv Hne Hk1 Hv1 (c1 & Hn1 & Hc1 & Hj1) Hp1
         Hk2 Hv2 (c2 & Hn2 & Hc2 & Hj2) Hp2.
  destruct (SetTypeForKey_blocks T t k1 v1 c1) as (pre & es & pv & Hok & Hpre & Hpv & Hset);
    try assumption.
  assert (Hkw1 : keywordOk (k1, c1)) by (unfold keywordOk; cbn [fst snd]; auto).
  assert (Hkw2 : keywordOk (k2, c2)) by (unfold keywordOk; cbn [fst snd]; auto).
  assert (Hnext : forall k c k' v' c',
             keywordOk (k, c) ->
             token 2 2 k' -> 3 <= len v' <= 8 ->
             c' <> [] -> Forall (token 3 8) c' -> joinTokens c' = dash :: v' ->
             parseExtensions T (fragment k' v') = (fragment k' v', None) ->
             SetTypeForKey T (mkTag (lang t) (region t) (script t) pv (len pre)
                                    (pre ++ renderExts (setKey (k, c) es))) k' v'
             = Ret (mkTag (lang t) (region t) (script t) pv (len pre)
                          (pre ++ renderExts (setKey (k', c') (setKey (k, c) es))), None)).
  { intros k c k' v' c' Hkw Hk' Hv' Hn' Hc' Hj' Hp'.
    rewrite (SetTypeForKey_layout T _ k' v' pre c' (setKey (k, c) es)); try assumption;
      try reflexivity.
    - unfold private. cbn [pVariant]. destruct (Z.eqb_spec pv 0); [contradiction |].
      apply andb_false_r.
    - cbn [str]. intros E. apply (f_equal len) in E. lens.
      pose proof (len_nonneg (renderExts (setKey (k, c) es))). lia.
    - now apply setKey_ok. }
  do 3 eexists. split; [| split; [| split]].
  - now apply (Hset k1 v1 c1).
  - now apply (Hnext k1 c1 k2 v2 c2).
  - now apply (Hset k2 v2 c2).
  - rewrite (Hnext k2 c2 k1 v1 c1) by assumption.
    now rewrite (setKey_comm k1 k2 c1 c2 es Hne).
Qed.

(** [nu] and [ca] go into [en-u-co-phonebk] in either order. *)
Lemma SetTypeForKey_commute_witness :
  exists t1 t2 t',
    SetTypeForKey sampleTables enPhonebk (lit "nu") (lit "latn") = Ret (t1, None) /\
    SetTypeForKey sampleTables t1 (lit "ca") (lit "buddhist") = Ret (t', None) /\
    SetTypeForKey sampleTables enPhonebk (lit "ca") (lit "buddhist") = Ret (t2, None) /\
    SetTypeForKey sampleTables t2 (lit "nu") (lit "latn") = Ret (t', None).
Proof.
  apply (SetTypeForKey_commute sampleTables enPhonebk (lit "nu") (lit "latn")
           (lit "ca") (lit "buddhist")).
  - exact codesOk_sample.
  - exact validTag_enPhonebk.
  - reflexivity.
  - discriminate.
  - tokens.
  - cbn. lia.
  - apply typeOk_single. tokens.
  - reflexivity.
  - tokens.
  - cbn. lia.
  - apply typeOk_single. tokens.
  - reflexivity.
Defined.

(** ** A key that is not set *)

(** Removing a key that has no type returns the tag as it is, with no
    error, whatever the tag. *)
Theorem SetTypeForKey_remove_absent (T : IdentifierTables) (t : Tag) (key : gostring) :
  private t = false -> len key = 2 -> TypeForKey t key = Ret [] ->
  SetTypeForKey T t key [] = Ret (t, None).
Proof.
  intros Hpriv Hkey H. unfold TypeForKey in H. unfold SetTypeForKey.
  rewrite Hpriv, Hkey. cbn [Z.eqb Pos.eqb negb isEmpty].
  destruct (findTypeForKey t key) as [[[s e] h] | |]; cbn [bind] in *; try discriminate H.
  destruct (Z.eqb_spec e s) as [-> | Hne]; cbn [negb] in H.
  - now rewrite Z.eqb_refl.
  - apply slice_length in H. cbn in H.
    destruct (Z.eqb_spec s e); [lia |]. lia.
Qed.

Lemma SetTypeForKey_remove_absent_witness :
  SetTypeForKey sampleTables enPhonebk (lit "nu") [] = Ret (enPhonebk, None).
Proof.
  apply (SetTypeForKey_remove_absent sampleTables enPhonebk (lit "nu")); reflexivity.
Defined.

(** ** Looking a key up *)

Lemma locateKey_absent (key : gostring) (kws : list keyword) :
  ~ In key (map fst kws) ->
  forall (acc rest : gostring), snd (fst (fst (locateKey key acc kws rest))) = [].
Proof.
  induction kws as [| kw kws IH]; intros Hin acc rest; cbn [locateKey]; [reflexivity |].
  destruct (str_eqb (fst kw) key) eqn:Heq.
  - apply str_eqb_eq in Heq. exfalso. apply Hin. now left.
  - destruct (str_gtb (fst kw) key); [reflexivity |].
    apply IH. intros H. apply Hin. now right.
Qed.

Lemma locate_absent (key : gostring) (es : list ext) :
  (forall attrs kws, In (ExtU attrs kws) es -> ~ In key (map fst kws)) ->
  forall (acc : gostring), snd (fst (fst (locate key acc es))) = [].
Proof.
  induction es as [| e es IH]; intros Hin acc; cbn [locate]; [reflexivity |].
  destruct e as [attrs kws | ty toks].
  - apply locateKey_absent. apply (Hin attrs). now left.
  - destruct (byte_ltb "u" ty); [reflexivity |].
    apply IH. intros attrs kws H. apply (Hin attrs). now right.
Qed.

(** On a valid tag with a suffix, [TypeForKey] returns the type that the
    'u' block holds for the key, its components joined by dashes, and the
    empty string when no 'u' block holds the key. *)
Theorem TypeForKey_lookup (T : IdentifierTables) (t : Tag) (key : gostring)
        (variants : list gostring) (es : list ext) :
  hasSuffix T t variants es -> len key = 2 ->
  (forall attrs tys P R bef aft,
      es = bef ++ ExtU attrs (P ++ (key, tys) :: R) :: aft ->
      TypeForKey t key = Ret (tl (joinTokens tys))) /\
  ((forall attrs kws, In (ExtU attrs kws) es -> ~ In key (map fst kws)) ->
   TypeForKey t key = Ret []).
Proof.
  intros (Hs & Hv & He & Hpos & _ & _ & _ & Hok & Hkeys & Htypes) Hkey.
  pose proof (len_nonneg (joinTokens variants)) as Hlj.
  assert (Hlayout : TypeForKey t key
                    = Ret (snd (fst (fst (locate key (coreString T t ++ joinTokens variants)
                                                 es))))).
  { apply TypeForKey_layout; try assumption; [rewrite Hs; eqapp | lens; lia | lens; lia]. }
  rewrite Hlayout. split.
  - intros attrs tys P R bef aft ->.
    apply Forall_app in Hkeys as (_ & Hkeys).
    inversion Hkeys as [| ? ? Hsorted _]; subst x l.
    cbn [extSorted] in Hsorted. apply sorted_before in Hsorted. cbn [fst] in Hsorted.
    apply sorted_before in Htypes. cbn [extType] in Htypes.
    rewrite locate_split by assumption. now rewrite locateKey_split.
  - intros Habsent. f_equal. now apply locate_absent.
Qed.

(** In [en-u-co-phonebk-nu-latn] the type of [nu] is [latn], and [ca] has
    none. *)
Lemma TypeForKey_lookup_witness :
  TypeForKey enPhonebkLatn (lit "nu") = Ret (lit "latn") /\
  TypeForKey enPhonebkLatn (lit "ca") = Ret [].
Proof.
  split.
  - destruct (TypeForKey_lookup sampleTables enPhonebkLatn (lit "nu") _ _
                hasSuffix_enPhonebkLatn eq_refl) as (H & _).
    apply (H [] [lit "latn"] [(lit "co", [lit "phonebk"])] [] [] []). reflexivity.
  - destruct (TypeForKey_lookup sampleTables enPhonebkLatn (lit "ca") _ _
                hasSuffix_enPhonebkLatn eq_refl) as (_ & H).
    apply H. intros attrs kws [E | []]. injection E as <- <-.
    cbn. intros [E | [E | []]]; discriminate E.
Defined.

(** ** The positions of the type, on every tag *)

Lemma scanKeys_bounds (s key : gostring) :
  forall (fuel : nat) (p start : Z) (curKey : gostring) (st e : Z) (h : bool),
    0 <= p -> (str_eqb curKey key = true -> 0 <= start <= p) ->
    scanKeys fuel s key p start curKey = Ret (st, e, h) ->
    h = true /\ (st = e \/ (0 <= st < e /\ e <= len s)).
Proof.
  induction fuel as [| fuel IH]; intros p start curKey st e h Hp Hinv H; [discriminate H |].
  rewrite scanKeys_unfold in H.
  assert (Hskip : forall p' start' curKey',
             p <= p' -> (str_eqb curKey' key = true -> 0 <= start' <= p') ->
             afterSkip fuel s key p' start' curKey' = Ret (st, e, h) ->
             h = true /\ (st = e \/ (0 <= st < e /\ e <= len s))).
  { intros p' start' curKey' Hp' Hinv' H'. unfold afterSkip in H'.
    set (max := if len s <? p' + 5 then len s else p' + 5) in H'.
    destruct (skipToDash_fuel s max (S (Z.to_nat (max - p'))) p' ltac:(lia)) as (_ & Hle).
    destruct (skipToDash _ s p' max) as [q | |]; cbn [bind] in H'; try discriminate H'.
    specialize (Hle q eq_refl). unfold afterToken in H'.
    assert (Hstop : q <= len s ->
                    (if str_eqb curKey' key then Ret (start', q, true) else Ret (q, q, true))
                    = Ret (st, e, h) ->
                    h = true /\ (st = e \/ (0 <= st < e /\ e <= len s))).
    { intros Hq Hr. destruct (str_eqb curKey' key); injection Hr as <- <- <-.
      - specialize (Hinv' eq_refl). split; [reflexivity | lia].
      - split; [reflexivity | now left]. }
    destruct (Z.eqb_spec q (len s)); cbn [bind] in H'.
    - apply Hstop; [lia | exact H'].
    - destruct (index s (q + 2)) as [c | |] eqn:Hc; cbn [bind] in H'; try discriminate H'.
      apply index_inside in Hc.
      destruct (Ascii.eqb c dash); [apply Hstop; [lia | exact H'] |].
      apply (IH q start' curKey'); [lia | | exact H'].
      intros E. specialize (Hinv' E). lia. }
  destruct (index s (p + 3)) as [c | |] eqn:Hc; cbn [bind] in H; try discriminate H.
  apply index_inside in Hc.
  destruct (Ascii.eqb c dash).
  - destruct (str_eqb curKey key) eqn:Hcur.
    + injection H as <- <- <-. specialize (Hinv eq_refl). split; [reflexivity | lia].
    + destruct (slice s (p + 1) (p + 3)) as [k | |]; cbn [bind] in H; try discriminate H.
      destruct (str_gtb k key).
      * injection H as <- <- <-. split; [reflexivity | now left].
      * apply (Hskip (p + 7) (p + 4) k); [lia | intros _; lia | exact H].
  - apply (Hskip (p + 4) start curKey); [lia | | exact H].
    intros E. specialize (Hinv E). lia.
Qed.

Lemma findU_early (s : gostring) :
  forall (fuel : nat) (p a b : Z) (h : bool),
    findU fuel s p = Ret (inr (a, b, h)) -> a = b /\ h = false.
Proof.
  induction fuel as [| fuel IH]; intros p a b h; cbn [findU]; [discriminate |].
  destruct (index s p) as [c | |]; cbn [bind]; try discriminate.
  destruct (Ascii.eqb c "u"); [discriminate |].
  destruct (byte_ltb "u" c); [intros [= <- <- <-]; now split |].
  destruct (nextExtension s p =? len s); [intros [= <- <- <-]; now split | apply IH].
Qed.

(** Whatever the tag and the key, well formed or not, the loops of
    [findTypeForKey] end; the positions that it returns are equal when it
    reports no 'u' extension; and when they differ the first lies before the
    second, both inside the string, so that the slice of [TypeForKey] is in
    range: [TypeForKey] returns whenever [findTypeForKey] does. *)
Theorem findTypeForKey_bounds (t : Tag) (key : gostring) :
  0 <= pExt t ->
  findTypeForKey t key <> OutOfFuel /\
  forall start end_ hasExt,
    findTypeForKey t key = Ret (start, end_, hasExt) ->
    (hasExt = false -> start = end_) /\
    (start <> end_ -> 0 <= start < end_ /\ end_ <= len (str t)) /\
    exists v, TypeForKey t key = Ret v.
Proof.
  intros Hp. split; [now apply findTypeForKey_fuel |].
  intros start end_ hasExt H.
  assert (Hb : (hasExt = false -> start = end_) /\
               (start <> end_ -> 0 <= start < end_ /\ end_ <= len (str t))).
  { unfold findTypeForKey in H.
    destruct (negb (len key =? 2) || (pExt t =? len (str t)) || (pExt t =? 0)) eqn:Hg.
    - injection H as <- <- <-. split; [reflexivity | congruence].
    - pose proof (findU_inside (str t) (S (length (str t))) (pExt t + 1)) as HI.
      pose proof (findU_early (str t) (S (length (str t))) (pExt t + 1)) as HE.
      destruct (findU _ (str t) (pExt t + 1)) as [[u | [[a b] h]] | |]; cbn [bind] in H;
        try discriminate H.
      + specialize (HI u eq_refl).
        apply scanKeys_bounds in H as (-> & Hse);
          [| lia | intros E; destruct key; [discriminate Hg | discriminate E]].
        split; [discriminate | intros Hne; destruct Hse; [contradiction | assumption]].
      + injection H as <- <- <-. destruct (HE a b h eq_refl) as (-> & ->).
        split; [reflexivity | congruence]. }
  destruct Hb as (H1 & H2). split; [exact H1 |]. split; [exact H2 |].
  unfold TypeForKey. rewrite H. cbn [bind].
  destruct (Z.eqb_spec end_ start) as [-> | Hne]; cbn [negb]; [eauto |].
  apply slice_total; destruct (H2 (not_eq_sym Hne)); lia.
Qed.

(** In [en-a-xyz-u-co-phonebk] the type of [co] lies at 14 to 21. *)
Lemma findTypeForKey_bounds_witness :
  (14 <> 21 -> 0 <= 14 < 21 /\ 21 <= len (str enXyzPhonebk)) /\
  exists v, TypeForKey enXyzPhonebk (lit "co") = Ret v.
Proof.
  destruct (findTypeForKey_bounds enXyzPhonebk (lit "co")) as (_ & H); [cbn; lia |].
  destruct (H 14 21 true eq_refl) as (_ & Hin & Hv). split; [exact Hin | exact Hv].
Defined.

(** ** Setting a key and removing it again *)

Lemma renderKeyword_tail (kw : keyword) :
  keywordOk kw -> exists w a b, renderKeyword kw = w ++ [a; b] /\ a <> dash.
Proof.
  intros Hkw.
  destruct (renderKeywords_tail [kw] ltac:(discriminate) ltac:(now constructor))
    as (w & a & b & Hw & Ha).
  rewrite renderKeywords_cons in Hw. change (renderKeywords []) with (@nil ascii) in Hw.
  rewrite app_nil_r in Hw. eauto.
Qed.

(** Where a key that is not set goes in: what [locateKey] returns once the
    key is set, and what lies around the place. *)
Lemma locateKey_insert (key : gostring) (comps : list gostring) (kws : list keyword) :
  forall (acc rest : gostring),
    Forall keywordOk kws -> blockEnd rest ->
    (kws <> [] \/ exists w a b, acc = w ++ [a; b] /\ a <> dash) ->
    let '(x, y, z, _) := locateKey key acc kws rest in
    y = [] ->
    locateKey key acc (setKeyword (key, comps) kws) rest
    = (x ++ dash :: key ++ [dash], tl (joinTokens comps), z, true) /\
    ((blockEnd z /\ exists w a b, x = w ++ [a; b] /\ a <> dash) \/
     (exists a b c r, z = a :: b :: c :: r /\ c <> dash)).
Proof.
  induction kws as [| kw kws IH]; intros acc rest Hok Hrest Hacc;
    cbn [locateKey setKeyword fst].
  - intros _. cbn [locateKey fst snd]. rewrite str_eqb_refl. split; [reflexivity |].
    left. split; [exact Hrest |]. destruct Hacc as [Hacc | Hacc]; [congruence | exact Hacc].
  - inversion Hok as [| ? ? Hkw Hok']; subst x l.
    destruct (str_eqb (fst kw) key) eqn:Heq.
    + intros Hy. exfalso. destruct Hkw as (_ & Hne & Hty).
      pose proof (isEmpty_type (snd kw) Hne Hty) as He. now rewrite Hy in He.
    + destruct (str_gtb (fst kw) key) eqn:Hgt.
      * intros _. cbn [locateKey fst snd]. rewrite str_eqb_refl. split; [reflexivity |].
        right. destruct Hkw as (Hk & _).
        destruct (token2_inv _ Hk) as (k1 & k2 & Hkk & _ & Hk2).
        rewrite renderKeywords_cons. unfold renderKeyword. rewrite Hkk. cbn [app].
        exists dash, k1, k2. eexists. split; [reflexivity | exact Hk2].
      * cbn [locateKey]. rewrite Heq, Hgt.
        apply IH; try assumption. right.
        destruct (renderKeyword_tail kw Hkw) as (w & a & b & -> & Ha).
        exists (acc ++ w), a, b. split; [now rewrite app_assoc | exact Ha].
Qed.

Lemma locate_insert (key : gostring) (comps : list gostring) (es : list ext) :
  forall (acc : gostring),
    Forall extOk es ->
    let '(x, y, z, h) := locate key acc es in
    y = [] ->
    locate key acc (setKey (key, comps) es)
    = (x ++ (if (h : bool) then [] else [dash; "u"%char]) ++ dash :: key ++ [dash],
       tl (joinTokens comps), z, true) /\
    (if h
     then (blockEnd z /\ exists w a b, x = w ++ [a; b] /\ a <> dash) \/
          (exists a b c r, z = a :: b :: c :: r /\ c <> dash)
     else blockEnd z).
Proof.
  induction es as [| e es IH]; intros acc Hok; cbn [locate setKey].
  - intros _. cbn [locate locateKey fst snd joinTokens map concat renderExts].
    rewrite str_eqb_refl. split; [| now left]. f_equal. f_equal. f_equal. eqapp.
  - inversion Hok as [| ? ? He Hok']; subst x l.
    destruct e as [attrs kws | ty toks].
    + cbn [locate]. cbn [extOk] in He. destruct He as (Hattrs & Hkws & Hne).
      pose proof (locateKey_hasExt key kws (acc ++ dash :: "u"%char :: joinTokens attrs)
                    (renderExts es)) as Hh.
      assert (Hacc : kws <> [] \/
                     exists w a b, acc ++ dash :: "u"%char :: joinTokens attrs = w ++ [a; b]
                                   /\ a <> dash).
      { destruct kws as [| kw kws]; [right | left; discriminate].
        destruct Hne as [Hne | Hne]; [| congruence].
        destruct (joinTokens_tail attrs Hne Hattrs) as (w & a & b & -> & Ha).
        exists (acc ++ dash :: "u"%char :: w), a, b. split; [eqapp | exact Ha]. }
      pose proof (locateKey_insert key comps kws
                    (acc ++ dash :: "u"%char :: joinTokens attrs) (renderExts es)
                    Hkws (extOk_blockEnd es Hok') Hacc) as Hins.
      destruct (locateKey key _ kws (renderExts es)) as [[[x y] z] h].
      cbn [snd] in Hh. subst h. rewrite app_nil_l. exact Hins.
    + destruct (byte_ltb "u" ty) eqn:Hgt.
      * intros _. cbn [locate locateKey fst snd joinTokens map concat].
        rewrite str_eqb_refl. split; [| now apply extOk_blockEnd].
        f_equal. f_equal. f_equal. eqapp.
      * cbn [locate]. rewrite Hgt. apply IH. assumption.
Qed.

(** Removing a key from a tag that holds it: the string is the one around
    the place where the keyword went in. *)
Lemma remove_inserted (T : IdentifierTables) (t1 : Tag) (key : gostring)
      (comps : list gostring) (pre : gostring) (es : list ext) (x z : gostring) (h : bool) :
  private t1 = false -> token 2 2 key -> comps <> [] -> Forall (token 3 8) comps ->
  Forall extOk es ->
  str t1 = pre ++ renderExts (setKey (key, comps) es) -> pExt t1 = len pre -> 0 < len pre ->
  locate key pre es = (x, [], z, h) ->
  SetTypeForKey T t1 key [] =
  if (len x =? pVariant t1) && isEmpty z
  then Ret (mkTag (lang t1) (region t1) (script t1) 0 0 [], None)
  else Ret (withStr t1 (x ++ z), None).
Proof.
  intros Hp1 Hkey Hne Hcomps Hok Hs1 Hpe Hpos Hlocate.
  assert (Hkw : keywordOk (key, comps)) by (unfold keywordOk; cbn [fst snd]; auto).
  pose proof (len_key key Hkey) as Hlk.
  set (value := tl (joinTokens comps)).
  assert (Hj : joinTokens comps = dash :: value).
  { unfold value. destruct comps as [| c comps]; [congruence | reflexivity]. }
  assert (Hvalue : value <> []).
  { intros E. pose proof (isEmpty_type comps Hne Hcomps) as He. fold value in He.
    now rewrite E in He. }
  pose proof (locate_insert key comps es pre Hok) as Hins.
  pose proof (setKey_render key value comps es pre Hj Hok) as Hrender.
  rewrite Hlocate in Hins, Hrender. cbn [isEmpty] in Hrender.
  destruct (Hins eq_refl) as (Hloc & Hplace). clear Hins.
  assert (Hfind : findTypeForKey t1 key
                  = Ret (len (x ++ (if h then [] else [dash; "u"%char])) + 4,
                         len (x ++ (if h then [] else [dash; "u"%char])) + 4 + len value,
                         true)).
  { rewrite (findTypeForKey_layout t1 key pre (setKey (key, comps) es));
      try assumption; [| now apply setKey_ok].
    rewrite Hloc. cbn [span]. fold value. do 2 f_equal. f_equal; lens; lia. }
  assert (Hstr1 : str t1 = (x ++ (if h then [] else [dash; "u"%char]))
                           ++ (dash :: key ++ [dash]) ++ value ++ z).
  { rewrite Hs1, Hrender. unfold fragment.
    change (lit "u-") with ["u"%char; dash]. destruct h; eqapp. }
  assert (Hcase :
            (blockEnd z /\ x ++ [dash; "u"%char] = x ++ (if h then [] else [dash; "u"%char]))
            \/ (blockEnd z /\ x = x ++ (if h then [] else [dash; "u"%char]) /\
                exists w a b, x ++ (if h then [] else [dash; "u"%char]) = w ++ [a; b]
                              /\ a <> dash)
            \/ (x = x ++ (if h then [] else [dash; "u"%char]) /\
                exists a b c r, z = a :: b :: c :: r /\ c <> dash)).
  { destruct h.
    - rewrite app_nil_r. destruct Hplace as [(Hz & Hx) | Hz].
      + right. left. now repeat split.
      + right. right. now split.
    - left. now split. }
  exact (SetTypeForKey_remove_strings T t1 key _ value z x true
           Hp1 Hlk Hfind Hstr1 Hvalue Hcase).
Qed.



(** ** Removing a key *)

Lemma sorted_map {A B : Type} (f : A -> B) (S : B -> B -> Prop) (l : list A) :
  StronglySorted (fun a b => S (f a) (f b)) l <-> StronglySorted S (map f l).
Proof.
  induction l as [| a l IH]; cbn [map].
  - split; constructor.
  - split; intros H; apply StronglySorted_inv in H as (H1 & H2); constructor.
    + now apply IH.
    + now apply Forall_map.
    + now apply IH.
    + rewrite Forall_map in H2. exact H2.
Qed.

Lemma sorted_remove {A : Type} (R : A -> A -> Prop) (a b : list A) (x : A) :
  StronglySorted R (a ++ x :: b) -> StronglySorted R (a ++ b).
Proof.
  induction a as [| y a IH]; cbn [app]; intros H;
    apply StronglySorted_inv in H as (H1 & H2).
  - exact H1.
  - constructor; [now apply IH |].
    apply Forall_app in H2 as (Ha & Hb). apply Forall_app. split; [exact Ha |].
    now inversion Hb.
Qed.

Lemma sorted_after {A : Type} (R : A -> A -> Prop) (bef aft : list A) (u : A) :
  StronglySorted R (bef ++ u :: aft) -> Forall (R u) aft.
Proof.
  induction bef as [| e bef IH]; cbn [app]; intros H;
    apply StronglySorted_inv in H as (H1 & H2); [exact H2 | now apply IH].
Qed.

Lemma byte_ltb_asym (x y : ascii) : byte_ltb x y = true -> byte_ltb y x = false.
Proof. unfold byte_ltb. rewrite N.ltb_lt, N.ltb_ge. lia. Qed.

Lemma str_ltb_neq (a b : gostring) : str_ltb a b = true -> str_eqb a b = false.
Proof.
  intros H. apply str_eqb_neq. intros ->. rewrite str_ltb_irrefl in H. discriminate H.
Qed.

Lemma setKeyword_restores (key : gostring) (tys : list gostring) (P R : list keyword) :
  StronglySorted (fun a b : keyword => str_ltb (fst a) (fst b) = true)
                 (P ++ (key, tys) :: R) ->
  setKeyword (key, tys) (P ++ R) = P ++ (key, tys) :: R.
Proof.
  induction P as [| p P IH]; cbn [app]; intros H;
    apply StronglySorted_inv in H as (Hs & Hall).
  - destruct R as [| r R]; [reflexivity |].
    inversion Hall as [| ? ? Hr _]; subst x l. cbn [fst] in Hr. cbn [setKeyword fst].
    unfold str_gtb. rewrite Hr.
    destruct (str_eqb (fst r) key) eqn:E; [| reflexivity].
    apply str_eqb_eq in E. rewrite E, str_ltb_irrefl in Hr. discriminate Hr.
  - apply Forall_app in Hall as (_ & Hall). inversion Hall as [| ? ? Hp _]; subst x l.
    cbn [fst] in Hp. cbn [setKeyword fst]. unfold str_gtb.
    rewrite (str_ltb_neq _ _ Hp), (str_ltb_asym _ _ Hp). f_equal. now apply IH.
Qed.

Lemma setKey_block (kw : keyword) (attrs : list gostring) (kws : list keyword)
      (bef aft : list ext) :
  Forall (fun e => byte_ltb (extType e) "u" = true) bef ->
  setKey kw (bef ++ ExtU attrs kws :: aft) = bef ++ ExtU attrs (setKeyword kw kws) :: aft.
Proof.
  induction bef as [| e bef IH]; cbn [app]; intros H; [reflexivity |].
  inversion H as [| ? ? He Hbef]; subst x l.
  destruct e as [a k | ty toks]; cbn [extType] in He; [discriminate He |].
  cbn [setKey]. rewrite (byte_ltb_asym _ _ He). f_equal. now apply IH.
Qed.

Lemma setKey_new (kw : keyword) (bef aft : list ext) :
  Forall (fun e => byte_ltb (extType e) "u" = true) bef ->
  Forall (fun e => byte_ltb "u" (extType e) = true) aft ->
  setKey kw (bef ++ aft) = bef ++ ExtU [] [kw] :: aft.
Proof.
  induction bef as [| e bef IH]; cbn [app]; intros Hbef Haft.
  - destruct aft as [| e aft]; [reflexivity |].
    inversion Haft as [| ? ? He _]; subst x l.
    destruct e as [a k | ty toks]; cbn [extType] in He; [discriminate He |].
    cbn [setKey]. now rewrite He.
  - inversion Hbef as [| ? ? He Hbef']; subst x l.
    destruct e as [a k | ty toks]; cbn [extType] in He; [discriminate He |].
    cbn [setKey]. rewrite (byte_ltb_asym _ _ He). f_equal. now apply IH.
Qed.

Lemma no_block (attrs kws : _) (l : list ext) (c : ascii -> Prop) :
  ~ c "u"%char -> Forall (fun e => c (extType e)) l -> ~ In (ExtU attrs kws) l.
Proof.
  intros Hc Hall Hin. rewrite Forall_forall in Hall. now specialize (Hall _ Hin).
Qed.

(** The blocks without a keyword that they hold: setting the keyword gives
    the blocks back, and the key is in none of them.  First when the block
    of the keyword holds something else as well. *)
Lemma removed_kept (key : gostring) (tys attrs : list gostring) (P R : list keyword)
      (bef aft : list ext) :
  attrs <> [] \/ P ++ R <> [] ->
  Forall extOk (bef ++ ExtU attrs (P ++ (key, tys) :: R) :: aft) ->
  Forall extSorted (bef ++ ExtU attrs (P ++ (key, tys) :: R) :: aft) ->
  StronglySorted (fun a b => byte_ltb (extType a) (extType b) = true)
                 (bef ++ ExtU attrs (P ++ (key, tys) :: R) :: aft) ->
  exists es0,
    setKey (key, tys) es0 = bef ++ ExtU attrs (P ++ (key, tys) :: R) :: aft /\
    Forall extOk es0 /\ Forall extSorted es0 /\
    StronglySorted (fun a b => byte_ltb (extType a) (extType b) = true) es0 /\
    (forall attrs' kws', In (ExtU attrs' kws') es0 -> ~ In key (map fst kws')).
Proof.
  intros Hne Hok Hkeys Htypes.
  pose proof (sorted_before _ _ _ _ Htypes) as Hbef.
  pose proof (sorted_after _ _ _ _ Htypes) as Haft. cbn [extType] in Hbef, Haft.
  apply Forall_app in Hok as (Hokb & Hok). inversion Hok as [| ? ? Hu Hoka]; subst x l.
  apply Forall_app in Hkeys as (Hkb & Hkeys).
  inversion Hkeys as [| ? ? Hsorted Hka]; subst x l.
  cbn [extOk] in Hu. destruct Hu as (Hattrs & Hkws & _). cbn [extSorted] in Hsorted.
  apply Forall_app in Hkws as (HP & Hkws). inversion Hkws as [| ? ? Hkw HR]; subst x l.
  exists (bef ++ ExtU attrs (P ++ R) :: aft). split; [| split; [| split; [| split]]].
  - rewrite setKey_block by assumption. now rewrite setKeyword_restores.
  - apply Forall_app. split; [assumption |]. constructor; [| assumption].
    cbn [extOk]. split; [assumption |]. split; [apply Forall_app; now split | exact Hne].
  - apply Forall_app. split; [assumption |]. constructor; [| assumption].
    cbn [extSorted]. now apply sorted_remove in Hsorted.
  - apply (sorted_map extType (fun a b => byte_ltb a b = true)).
    apply (sorted_map extType (fun a b => byte_ltb a b = true)) in Htypes.
    rewrite map_app in *. exact Htypes.
  - intros attrs' kws' Hin. apply in_app_or in Hin as [Hin | [E | Hin]].
    + exfalso. revert Hin. apply (no_block _ _ bef (fun a => byte_ltb a "u" = true));
        [now rewrite byte_ltb_irrefl | exact Hbef].
    + injection E as <- <-. rewrite map_app. intros Hin.
      apply in_app_or in Hin as [Hin | Hin]; apply in_map_iff in Hin as (kw & Hk & Hin).
      * apply sorted_before in Hsorted. rewrite Forall_forall in Hsorted.
        specialize (Hsorted _ Hin). cbn [fst] in Hsorted.
        rewrite Hk, str_ltb_irrefl in Hsorted. discriminate Hsorted.
      * apply sorted_after in Hsorted. rewrite Forall_forall in Hsorted.
        specialize (Hsorted _ Hin). cbn [fst] in Hsorted.
        rewrite Hk, str_ltb_irrefl in Hsorted. discriminate Hsorted.
    + exfalso. revert Hin. apply (no_block _ _ aft (fun a => byte_ltb "u" a = true));
        [now rewrite byte_ltb_irrefl | exact Haft].
Qed.

(** Then in general: when the keyword is all that the block holds, the
    block goes. *)
Lemma removed_blocks (key : gostring) (tys attrs : list gostring) (P R : list keyword)
      (bef aft : list ext) :
  Forall extOk (bef ++ ExtU attrs (P ++ (key, tys) :: R) :: aft) ->
  Forall extSorted (bef ++ ExtU attrs (P ++ (key, tys) :: R) :: aft) ->
  StronglySorted (fun a b => byte_ltb (extType a) (extType b) = true)
                 (bef ++ ExtU attrs (P ++ (key, tys) :: R) :: aft) ->
  exists es0,
    setKey (key, tys) es0 = bef ++ ExtU attrs (P ++ (key, tys) :: R) :: aft /\
    Forall extOk es0 /\ Forall extSorted es0 /\
    StronglySorted (fun a b => byte_ltb (extType a) (extType b) = true) es0 /\
    (forall attrs' kws', In (ExtU attrs' kws') es0 -> ~ In key (map fst kws')).
Proof.
  intros Hok Hkeys Htypes.
  destruct attrs as [| a attrs];
    [| apply removed_kept; try assumption; left; discriminate].
  destruct P as [| p P];
    [| apply removed_kept; try assumption; right; discriminate].
  destruct R as [| r R];
    [| apply removed_kept; try assumption; right; discriminate].
  pose proof (sorted_before _ _ _ _ Htypes) as Hbef.
  pose proof (sorted_after _ _ _ _ Htypes) as Haft. cbn [extType] in Hbef, Haft.
  apply Forall_app in Hok as (Hokb & Hok). inversion Hok as [| ? ? _ Hoka]; subst x l.
  apply Forall_app in Hkeys as (Hkb & Hkeys). inversion Hkeys as [| ? ? _ Hka]; subst x l.
  exists (bef ++ aft). split; [now apply setKey_new |].
  split; [apply Forall_app; now split |]. split; [apply Forall_app; now split |].
  split; [now apply sorted_remove in Htypes |].
  intros attrs' kws' Hin. exfalso. apply in_app_or in Hin as [Hin | Hin]; revert Hin.
  - apply (no_block _ _ bef (fun a => byte_ltb a "u" = true));
      [now rewrite byte_ltb_irrefl | exact Hbef].
  - apply (no_block _ _ aft (fun a => byte_ltb "u" a = true));
      [now rewrite byte_ltb_irrefl | exact Haft].
Qed.

Lemma locateKey_found_split (key : gostring) (kws : list keyword) :
  forall (acc rest : gostring),
    snd (fst (fst (locateKey key acc kws rest))) <> [] ->
    exists P tys R, kws = P ++ (key, tys) :: R.
Proof.
  induction kws as [| kw kws IH]; intros acc rest; cbn [locateKey]; [cbn; congruence |].
  destruct (str_eqb (fst kw) key) eqn:Heq.
  - intros _. apply str_eqb_eq in Heq. exists [], (snd kw), kws.
    destruct kw as [k tys]. cbn [fst snd] in *. now subst.
  - destruct (str_gtb (fst kw) key); [cbn; congruence |].
    intros H. destruct (IH _ _ H) as (P & tys & R & ->). now exists (kw :: P), tys, R.
Qed.

Lemma locate_found_split (key : gostring) (es : list ext) :
  forall (acc : gostring),
    snd (fst (fst (locate key acc es))) <> [] ->
    exists bef attrs P tys R aft, es = bef ++ ExtU attrs (P ++ (key, tys) :: R) :: aft.
Proof.
  induction es as [| e es IH]; intros acc; cbn [locate]; [cbn; congruence |].
  destruct e as [attrs kws | ty toks].
  - intros H. destruct (locateKey_found_split _ _ _ _ H) as (P & tys & R & ->).
    now exists [], attrs, P, tys, R, es.
  - destruct (byte_ltb "u" ty); [cbn; congruence |].
    intros H. destruct (IH _ H) as (bef & attrs & P & tys & R & aft & ->).
    now exists (ExtOther ty toks :: bef), attrs, P, tys, R, aft.
Qed.

(** Removing a key from a valid tag that is not a private use tag returns
    a valid tag and no error; in that tag the key has no type, and every
    other key has the type that it had. *)
Theorem SetTypeForKey_remove_spec (T : IdentifierTables) (t : Tag) (key : gostring) :
  validTag T t -> private t = false -> len key = 2 ->
  exists t',
    SetTypeForKey T t key [] = Ret (t', None) /\ validTag T t' /\
    TypeForKey t' key = Ret [] /\
    (forall key', len key' = 2 -> key' <> key -> TypeForKey t' key' = TypeForKey t key').
Proof.
  intros Hvalid Hpriv Hkey.
  destruct (TypeForKey_valid T t key Hvalid) as (v & Hv).
  destruct v as [| c v].
  { (* the key has no type: nothing changes *)
    exists t. split; [| now repeat split].
    unfold TypeForKey in Hv. unfold SetTypeForKey.
    rewrite Hpriv, Hkey. cbn [Z.eqb Pos.eqb negb isEmpty].
    destruct (findTypeForKey t key) as [[[s e] h] | |]; cbn [bind] in *;
      try discriminate Hv.
    destruct (Z.eqb_spec e s) as [-> | Hne]; cbn [negb] in Hv;
      [now rewrite Z.eqb_refl |].
    apply slice_length in Hv. cbn in Hv. destruct (Z.eqb_spec s e); lia. }
  destruct Hvalid as [Hs Hpv Hpe | toks Hs _ _ Hpv Hpe
                     | variants es (Hs & Hpv & Hpe & Hpos & Hmax & Hn & Hvar & Hok & Hkeys
                                    & Htypes)].
  1, 2: rewrite (TypeForKey_core t key Hpe) in Hv; discriminate Hv.
  set (pre := coreString T t ++ joinTokens variants).
  pose proof (len_nonneg (joinTokens variants)) as Hlj.
  assert (Hstr : str t = pre ++ renderExts es) by (rewrite Hs; unfold pre; eqapp).
  assert (Hpre : pExt t = len pre) by (unfold pre; lens; lia).
  assert (Hpos' : 0 < len pre) by (unfold pre; lens; lia).
  pose proof (TypeForKey_layout t key pre es Hstr Hpre Hpos' Hok Hkey) as Hty.
  rewrite Hv in Hty. injection Hty as Hty.
  destruct (locate_found_split key es pre) as (bef & attrs & P & tys & R & aft & Hes);
    [rewrite <- Hty; discriminate |].
  subst es.
  destruct (removed_blocks key tys attrs P R bef aft Hok Hkeys Htypes)
    as (es0 & Hset & Hok0 & Hkeys0 & Htypes0 & Habsent).
  assert (Hkw : keywordOk (key, tys)).
  { apply Forall_app in Hok as (_ & Hok). inversion Hok as [| ? ? Hu _]; subst x l.
    destruct Hu as (_ & Hkws & _). apply Forall_app in Hkws as (_ & Hkws).
    now inversion Hkws. }
  destruct Hkw as (Hk & Hne & Htys). cbn [fst snd] in Hk, Hne, Htys.
  pose proof (locate_absent key es0 Habsent pre) as Hy0.
  pose proof (locate_app key es0 pre Hok0) as Happ.
  destruct (locate key pre es0) as [[[x y] z] h] eqn:Hlocate. cbn [fst snd] in Hy0.
  subst y. cbn [app] in Happ.
  rewrite (remove_inserted T t key tys pre es0 x z h); try assumption;
    [| now rewrite Hset].
  assert (Hother : forall key', len key' = 2 -> key' <> key ->
                                TypeForKey t key'
                                = Ret (snd (fst (fst (locate key' pre es0))))).
  { intros key' Hk' Hne'.
    rewrite (TypeForKey_layout t key' pre _ Hstr Hpre Hpos' Hok Hk').
    f_equal. rewrite <- (locate_other key key' tys es0 Hne' pre pre).
    do 4 f_equal. symmetry. exact Hset. }
  destruct ((len x =? pVariant t) && isEmpty z) eqn:Hcond.
  - (* nothing is left of the suffix *)
    apply andb_true_iff in Hcond as (Hx & Hz). apply Z.eqb_eq in Hx.
    destruct z as [| c0 z]; [| discriminate Hz]. rewrite app_nil_r in Happ.
    assert (Hes0 : es0 = []).
    { apply (f_equal len) in Happ. unfold pre in Happ. lens.
      destruct es0 as [| e es0]; [reflexivity |].
      pose proof (renderExts_nonempty (e :: es0) ltac:(discriminate)). lia. }
    eexists. split; [reflexivity |]. split; [now apply validCore |].
    split; [now apply TypeForKey_core |].
    intros key' Hk' Hne'. rewrite (Hother key' Hk' Hne'), Hes0.
    now apply TypeForKey_core.
  - (* a suffix is left *)
    assert (Hleft : variants <> [] \/ es0 <> []).
    { destruct variants as [| w ws]; [| left; discriminate].
      destruct es0 as [| e es0]; [| right; discriminate]. exfalso.
      cbn [locate] in Hlocate. injection Hlocate as <- <- <-.
      unfold pre in Hcond. cbn [joinTokens map concat isEmpty] in Hcond.
      rewrite app_nil_r, Hpv, Z.eqb_refl in Hcond. discriminate Hcond. }
    assert (Hsuf : hasSuffix T (withStr t (x ++ z)) variants es0).
    { unfold hasSuffix, withStr. cbn [str pVariant pExt].
      change (coreString T (mkTag (lang t) (region t) (script t) _ _ _))
        with (coreString T t).
      split; [rewrite Happ; unfold pre; eqapp |]. now repeat split. }
    eexists. split; [reflexivity |]. split; [exact (validSuffix _ _ _ _ Hsuf) |].
    assert (Hlay : forall k, len k = 2 ->
                             TypeForKey (withStr t (x ++ z)) k
                             = Ret (snd (fst (fst (locate k pre es0))))).
    { intros k Hk2. now apply TypeForKey_layout. }
    split.
    + rewrite (Hlay key Hkey), Hlocate. reflexivity.
    + intros key' Hk' Hne'. now rewrite (Hlay key' Hk'), (Hother key' Hk' Hne').
Qed.

(** [co] goes from [en-u-co-phonebk-nu-latn], and [nu] stays. *)
Lemma SetTypeForKey_remove_spec_witness :
  exists t',
    SetTypeForKey sampleTables enPhonebkLatn (lit "co") [] = Ret (t', None) /\
    validTag sampleTables t' /\
    TypeForKey t' (lit "co") = Ret [] /\
    (forall key', len key' = 2 -> key' <> lit "co" ->
                  TypeForKey t' key' = TypeForKey enPhonebkLatn key').
Proof.
  apply (SetTypeForKey_remove_spec sampleTables enPhonebkLatn (lit "co")).
  - exact (validSuffix _ _ _ _ hasSuffix_enPhonebkLatn).
  - reflexivity.
  - reflexivity.
Defined.

(** ** What setting a key leaves as it is *)






(** ** Whether there is a 'u' extension *)

Lemma locate_hasExt (key : gostring) (es : list ext) :
  Forall extOk es ->
  StronglySorted (fun a b => byte_ltb (extType a) (extType b) = true) es ->
  forall (acc : gostring),
    snd (locate key acc es) = true <-> exists attrs kws, In (ExtU attrs kws) es.
Proof.
  induction es as [| e es IH]; intros Hok Hsorted acc; cbn [locate].
  - cbn [snd]. split; [discriminate | intros (attrs & kws & [])].
  - inversion Hok as [| ? ? He Hok']; subst x l.
    apply StronglySorted_inv in Hsorted as (Hsorted & Hall).
    destruct e as [attrs kws | ty toks].
    + rewrite locateKey_hasExt. split; [| reflexivity].
      intros _. exists attrs, kws. now left.
    + destruct (byte_ltb "u" ty) eqn:Hgt.
      * cbn [snd]. split; [discriminate |].
        intros (attrs & kws & [E | Hin]); [discriminate E |]. exfalso.
        rewrite Forall_forall in Hall. specialize (Hall _ Hin). cbn [extType] in Hall.
        pose proof (byte_ltb_trans _ _ _ Hgt Hall) as H.
        rewrite byte_ltb_irrefl in H. discriminate H.
      * rewrite (IH Hok' Hsorted). split.
        -- intros (attrs & kws & Hin). exists attrs, kws. now right.
        -- intros (attrs & kws & [E | Hin]); [discriminate E | eauto].
Qed.

(** On a valid tag with a suffix, and for a key of two bytes, [hasExt] is
    true exactly when the tag has a 'u' extension. *)
Theorem findTypeForKey_hasExt (T : IdentifierTables) (t : Tag) (key : gostring)
        (variants : list gostring) (es : list ext) :
  hasSuffix T t variants es -> len key = 2 ->
  exists start end_ hasExt,
    findTypeForKey t key = Ret (start, end_, hasExt) /\
    (hasExt = true <-> exists attrs kws, In (ExtU attrs kws) es).
Proof.
  intros (Hs & Hv & He & Hpos & _ & _ & _ & Hok & _ & Htypes) Hkey.
  pose proof (len_nonneg (joinTokens variants)) as Hlj.
  pose proof (locate_hasExt key es Hok Htypes (coreString T t ++ joinTokens variants)) as Hh.
  rewrite (findTypeForKey_layout t key (coreString T t ++ joinTokens variants) es);
    try assumption; [| rewrite Hs; eqapp | lens; lia | lens; lia].
  destruct (locate key _ es) as [[[x y] z] h]. cbn [span snd] in *.
  exists (len x), (len x + len y), h. split; [reflexivity | exact Hh].
Qed.

Lemma findTypeForKey_hasExt_witness :
  exists start end_ hasExt,
    findTypeForKey enPrivate (lit "co") = Ret (start, end_, hasExt) /\
    (hasExt = true <-> exists attrs kws, In (ExtU attrs kws) [ExtOther "x" [lit "abc"]]).
Proof.
  apply (findTypeForKey_hasExt sampleTables enPrivate (lit "co") [] _ hasSuffix_enPrivate).
  reflexivity.
Defined.

(** ** The bytes that [genCoreBytes] writes *)



